(** * omnia-vcv: DSP cores of the VCV Rack modules, embedded in Rocq

    The development follows the C++ sources module by module:
    - [StereoEffects.cpp]      : [DelayLine], [SimpleReverb], the effect chain;
    - [ChordPadSynth.cpp] and [ChordPluckSynth.cpp] : the two [ADSR] envelopes,
      and the oscillator [Voice] of the pad;
    - [WT_SURGE_X.cpp]         : wavetable mip generation, table read, soft clip;
    - [BuildupLooper.cpp]      : the ring-buffer looper state machine;
    - [AmbientRandomSynth.cpp] : the 16-slot voice pool, [playNote] and
      [Voice::process].

    Numeric conventions.  A C++ [float] is modelled by an exact rational
    ([Q]): rounding, infinities and NaN are not represented.  [int] values
    are [Z]; [size_t] values are [Z] reduced modulo [2^64] where the source
    subtracts.  Arrays are [list]s read with stdpp's lookup and written with
    stdpp's insert; an out-of-range read (undefined behaviour in C++) yields
    the default [0] and an out-of-range write leaves the list unchanged. *)

From Stdlib Require Import ZArith QArith Qabs Qround Qminmax Qpower Lia Lqa Bool.
From stdpp Require Import base list.

Local Open Scope Q_scope.

(** ** Shared numeric helpers (C++ and Rack SDK primitives) *)

Module Num.

(** [a < b] and [a <= b] on floats, as booleans. *)
Definition Qltb (a b : Q) : bool := negb (Qle_bool b a).
Definition Qleb (a b : Q) : bool := Qle_bool a b.

(** [std::max(a, b)] is [(a < b) ? b : a]; [std::min(a, b)] is
    [(b < a) ? b : a]. *)
Definition std_max (a b : Q) : Q := if Qltb a b then b else a.
Definition std_min (a b : Q) : Q := if Qltb b a then b else a.
Definition std_maxZ (a b : Z) : Z := if (a <? b)%Z then b else a.
Definition std_minZ (a b : Z) : Z := if (b <? a)%Z then b else a.

(** Rack SDK, [include/math.hpp] (library code, not part of the repository):
    [float clamp(float x, float a, float b)] is [fmax(fmin(x, b), a)] and
    [int clamp(int x, int a, int b)] is [std::max(std::min(x, b), a)], so
    that [a] is returned when [b < a]. *)
Definition clamp (x a b : Q) : Q := std_max (std_min x b) a.
Definition clampZ (x a b : Z) : Z := std_maxZ (std_minZ x b) a.

(** [(int)f] and [(size_t)f]: truncation toward zero. *)
Definition Qtrunc (q : Q) : Z := Z.quot (Qnum q) (Zpos (Qden q)).

(** [(float)i]. *)
Definition ofZ (i : Z) : Q := inject_Z i.

(** [std::fabs]. *)
Definition fabs (x : Q) : Q := Qabs x.

(** Unsigned 64-bit wrap-around of [size_t] arithmetic. *)
Definition wrap64 (z : Z) : Z := (z mod 2 ^ 64)%Z.

(** The C [%] operator on [int]: remainder of the truncated division. *)
Definition cmod (a b : Z) : Z := Z.rem a b.

(** [l[i]] for an [int] index: an access outside the array (undefined
    behaviour in C++) reads [0]. *)
Definition at_ (l : list Q) (i : Z) : Q :=
  if (i <? 0)%Z then 0 else default 0 (l !! Z.to_nat i).

(** The indices [0, 1, ..., n - 1] of a counting loop
    [for (int i = 0; i < n; i++)], built in linear time (it is the list
    [seqZ 0 n] of stdpp). *)
Fixpoint range_from (n : nat) (k : Z) : list Z :=
  match n with
  | O => []
  | S n' => k :: range_from n' (k + 1)%Z
  end.

Definition range (n : Z) : list Z := range_from (Z.to_nat n) 0%Z.

(** [while (cond(x)) x = body(x);] run for at most [fuel] iterations. *)
Fixpoint while_ (fuel : nat) (cond : Q -> bool) (body : Q -> Q) (x : Q) : Q :=
  match fuel with
  | O => x
  | S fuel' => if cond x then while_ fuel' cond body (body x) else x
  end.

End Num.

Import Num.

(** ** StereoEffects.cpp *)

Module StereoEffects.

(** [struct DelayLine]: [buffer] has [size] cells, [writePos] is the next
    cell to be written. *)
Record DelayLine : Type := mkDelayLine {
  buffer : list Q;
  size : Z;
  writePos : Z
}.

(** [DelayLine(size_t maxSize)]: allocate and [clear()]. *)
Definition DelayLine_new (maxSize : Z) : DelayLine :=
  {| buffer := replicate (Z.to_nat maxSize) 0; size := maxSize; writePos := 0%Z |}.

Definition DelayLine_clear (d : DelayLine) : DelayLine :=
  {| buffer := replicate (Z.to_nat (size d)) 0; size := size d; writePos := writePos d |}.

(** [void push(float sample)]. *)
Definition push (sample : Q) (d : DelayLine) : DelayLine :=
  {| buffer := <[Z.to_nat (writePos d) := sample]> (buffer d);
     size := size d;
     writePos := (wrap64 (writePos d + 1) mod size d)%Z |}.

(** [float read(size_t delay)]. *)
Definition read (d : DelayLine) (delay : Z) : Q :=
  let delay := if (size d <=? delay)%Z then wrap64 (size d - 1) else delay in
  let readPos := (wrap64 (wrap64 (writePos d - delay) + size d) mod size d)%Z in
  default 0 (buffer d !! Z.to_nat readPos).

(** A line as the constructor and [push] leave it: [new float[size]]
    succeeded (so the byte count fits [size_t]), the buffer has [size] cells
    and the cursor is inside it. *)
Definition DelayLine_ok (d : DelayLine) : Prop :=
  (0 < size d)%Z /\ (4 * size d < 2 ^ 64)%Z /\
  length (buffer d) = Z.to_nat (size d) /\
  (0 <= writePos d < size d)%Z.

(** [n] pushes in a row, oldest first. *)
Definition push_all (xs : list Q) (d : DelayLine) : DelayLine :=
  foldl (fun d x => push x d) d xs.

(** [struct SimpleReverb]. *)
Definition NUM_DELAYS : nat := 8.

Record SimpleReverb : Type := mkSimpleReverb {
  delays : list DelayLine;
  delayTimes : list Q;
  feedback : Q
}.

(** [SimpleReverb(float sampleRate)]: eight lines whose lengths are fixed
    multiples of a 30 ms base delay, each allocated at twice its delay. *)
Definition SimpleReverb_new (sampleRate : Q) : SimpleReverb :=
  let baseDelay := ofZ (Qtrunc (sampleRate * 0.03)) in
  let times := [baseDelay * 1.0; baseDelay * 1.3; baseDelay * 1.7; baseDelay * 2.1;
                baseDelay * 2.3; baseDelay * 2.7; baseDelay * 3.1; baseDelay * 3.7] in
  {| delays := map (fun t => DelayLine_new (wrap64 (Qtrunc (t * 2.0)))) times;
     delayTimes := times;
     feedback := 0.5 |}.

(** [void setFeedback(float fb) { feedback = fb; }] *)
Definition setFeedback (fb : Q) (r : SimpleReverb) : SimpleReverb :=
  {| delays := delays r; delayTimes := delayTimes r; feedback := fb |}.

(** One iteration of the loop of [SimpleReverb::process], at index [i]:
    the accumulator is the running [output] and the array of lines. *)
Definition process_tap (times : list Q) (fb input : Q)
    (acc : Q * list DelayLine) (i : nat) : Q * list DelayLine :=
  let '(output, ds) := acc in
  match ds !! i, times !! i with
  | Some d, Some t =>
      let delayed := read d (wrap64 (Qtrunc t)) in
      (output + delayed * (1.0 / ofZ (Z.of_nat NUM_DELAYS)),
       <[i := push (input + delayed * fb) d]> ds)
  | _, _ => acc
  end.

(** [float SimpleReverb::process(float input)]: returns the output sample
    and the reverb with its lines advanced. *)
Definition SimpleReverb_process (input : Q) (r : SimpleReverb) : Q * SimpleReverb :=
  let '(output, ds) :=
    foldl (process_tap (delayTimes r) (feedback r) input) (0, delays r) (seq 0 NUM_DELAYS) in
  (output, {| delays := ds; delayTimes := delayTimes r; feedback := feedback r |}).

(** Feeding a whole input stream, collecting the outputs in order. *)
Fixpoint SimpleReverb_run (inputs : list Q) (r : SimpleReverb) : list Q * SimpleReverb :=
  match inputs with
  | [] => ([], r)
  | x :: xs =>
      let '(y, r1) := SimpleReverb_process x r in
      let '(ys, r2) := SimpleReverb_run xs r1 in
      (y :: ys, r2)
  end.

(** Every stored sample of every line has magnitude at most [B]. *)
Definition line_bounded (B : Q) (d : DelayLine) : Prop :=
  Forall (fun v => Qabs v <= B) (buffer d).

Definition lines_bounded (B : Q) (r : SimpleReverb) : Prop :=
  Forall (line_bounded B) (delays r).

(** Module state of [struct StereoEffects].  [reverbL] and [reverbR] are
    [nullptr] until the first [process] call creates both at once, hence a
    single optional pair. *)
Record Module_ : Type := mkModule {
  delayLineL : DelayLine;
  delayLineR : DelayLine;
  reverbLR : option (SimpleReverb * SimpleReverb);
  echoLineL : DelayLine;
  echoLineR : DelayLine
}.

Definition Module_new : Module_ :=
  {| delayLineL := DelayLine_new 48000; delayLineR := DelayLine_new 48000;
     reverbLR := None;
     echoLineL := DelayLine_new 24000; echoLineR := DelayLine_new 24000 |}.

(** What one [process] call reads from the host. *)
Record Inputs : Type := mkInputs {
  sampleRate : Q;
  leftConnected : bool;
  rightConnected : bool;
  leftVoltage : Q;
  rightVoltage : Q;
  LEVEL_PARAM : Q;
  DELAY_ENABLE_PARAM : Q;
  DELAY_TIME_PARAM : Q;
  DELAY_FEEDBACK_PARAM : Q;
  REVERB_ENABLE_PARAM : Q;
  REVERB_SIZE_PARAM : Q;
  REVERB_DAMPING_PARAM : Q;
  ECHO_ENABLE_PARAM : Q;
  ECHO_TIME_PARAM : Q;
  ECHO_FEEDBACK_PARAM : Q
}.

(** What one [process] call writes to the host. *)
Record Outputs : Type := mkOutputs {
  LEFT_OUTPUT : Q;
  RIGHT_OUTPUT : Q;
  DELAY_LIGHT : Q;
  REVERB_LIGHT : Q;
  ECHO_LIGHT : Q
}.

(** The reverb stage of [StereoEffects::process] (the block guarded by
    [REVERB_ENABLE_PARAM > 0.5f]) on one channel: configure the feedback
    from the damping parameter, run the reverb, mix. *)
Definition reverb_channel (size_ damping out : Q) (r : SimpleReverb) : Q * SimpleReverb :=
  let r1 := setFeedback (damping * 0.7) r in
  let '(y, r2) := SimpleReverb_process out r1 in
  let reverb_out := y * size_ in
  (out * (1 - size_ * 0.5) + reverb_out, r2).

(** [void StereoEffects::process(const ProcessArgs& args)]. *)
Definition process (i : Inputs) (m : Module_) : Outputs * Module_ :=
  let '(rL, rR) :=
    match reverbLR m with
    | Some p => p
    | None => (SimpleReverb_new (sampleRate i), SimpleReverb_new (sampleRate i))
    end in
  let inL := if leftConnected i then leftVoltage i / 10 else 0 in
  let inR := if rightConnected i then rightVoltage i / 10 else 0 in
  let inR := if leftConnected i && negb (rightConnected i) then inL else inR in
  let inL := if rightConnected i && negb (leftConnected i) then inR else inL in
  let outL := inL in
  let outR := inR in
  (* delay *)
  let '(outL, outR, dL, dR, delayLight) :=
    if Qltb 0.5 (DELAY_ENABLE_PARAM i) then
      let fb := DELAY_FEEDBACK_PARAM i in
      let delaySamples := wrap64 (Qtrunc (DELAY_TIME_PARAM i * sampleRate i)) in
      let delayedL := read (delayLineL m) delaySamples in
      let delayedR := read (delayLineR m) delaySamples in
      (outL + delayedL, outR + delayedR,
       push (inL + delayedL * fb) (delayLineL m),
       push (inR + delayedR * fb) (delayLineR m), 1)
    else (outL, outR, delayLineL m, delayLineR m, 0) in
  (* reverb *)
  let '(outL, outR, rL, rR, reverbLight) :=
    if Qltb 0.5 (REVERB_ENABLE_PARAM i) then
      let '(oL, rL1) := reverb_channel (REVERB_SIZE_PARAM i) (REVERB_DAMPING_PARAM i) outL rL in
      let '(oR, rR1) := reverb_channel (REVERB_SIZE_PARAM i) (REVERB_DAMPING_PARAM i) outR rR in
      (oL, oR, rL1, rR1, 1)
    else (outL, outR, rL, rR, 0) in
  (* echo *)
  let '(outL, outR, eL, eR, echoLight) :=
    if Qltb 0.5 (ECHO_ENABLE_PARAM i) then
      let fb := ECHO_FEEDBACK_PARAM i in
      let echoSamples := wrap64 (Qtrunc (ECHO_TIME_PARAM i * sampleRate i)) in
      let echoL := read (echoLineL m) echoSamples in
      let echoR := read (echoLineR m) echoSamples in
      let outL := outL + echoL * 0.5 in
      let outR := outR + echoR * 0.5 in
      (outL, outR, push (outL + echoL * fb) (echoLineL m),
       push (outR + echoR * fb) (echoLineR m), 1)
    else (outL, outR, echoLineL m, echoLineR m, 0) in
  let outL := outL * LEVEL_PARAM i in
  let outR := outR * LEVEL_PARAM i in
  ({| LEFT_OUTPUT := outL * 10; RIGHT_OUTPUT := outR * 10;
      DELAY_LIGHT := delayLight; REVERB_LIGHT := reverbLight; ECHO_LIGHT := echoLight |},
   {| delayLineL := dL; delayLineR := dR; reverbLR := Some (rL, rR);
      echoLineL := eL; echoLineR := eR |}).

(** Example host inputs: 1 kHz sample rate, reverb on with damping 0.5. *)
Definition example_inputs : Inputs :=
  {| sampleRate := 1000; leftConnected := true; rightConnected := false;
     leftVoltage := 5; rightVoltage := 0; LEVEL_PARAM := 1;
     DELAY_ENABLE_PARAM := 0; DELAY_TIME_PARAM := 0.3; DELAY_FEEDBACK_PARAM := 0.3;
     REVERB_ENABLE_PARAM := 1; REVERB_SIZE_PARAM := 0.5; REVERB_DAMPING_PARAM := 0.5;
     ECHO_ENABLE_PARAM := 0; ECHO_TIME_PARAM := 0.2; ECHO_FEEDBACK_PARAM := 0.4 |}.

(** The outputs of a sequence of [process] calls, oldest first, and the
    module they leave. *)
Fixpoint run (is_ : list Inputs) (m : Module_) : list Outputs * Module_ :=
  match is_ with
  | [] => ([], m)
  | i :: is_ =>
      let '(o, m1) := process i m in
      let '(os, m2) := run is_ m1 in
      (o :: os, m2)
  end.

(** The two channels hold the same state. *)
Definition balanced (m : Module_) : Prop :=
  delayLineL m = delayLineR m /\ echoLineL m = echoLineR m /\
  match reverbLR m with Some (rL, rR) => rL = rR | None => True end.

(** The two channels are fed the same sample: one jack patched (the mono
    normalisation copies it), none, or both at the same voltage. *)
Definition same_feed (i : Inputs) : Prop :=
  leftConnected i = rightConnected i ->
  leftConnected i = true -> leftVoltage i = rightVoltage i.

End StereoEffects.

(** ** ChordPadSynth.cpp and ChordPluckSynth.cpp: the ADSR envelope *)

Module ADSR.

Inductive State : Type := IDLE | ATTACK | DECAY | SUSTAIN | RELEASE.

Definition State_eqb (a b : State) : bool :=
  match a, b with
  | IDLE, IDLE | ATTACK, ATTACK | DECAY, DECAY | SUSTAIN, SUSTAIN | RELEASE, RELEASE => true
  | _, _ => false
  end.

(** [struct ADSR]: the fields are the same in both files. *)
Record t : Type := mk {
  attack : Q;
  decay : Q;
  sustain : Q;
  release : Q;
  state : State;
  output : Q
}.

Definition with_state (s : State) (e : t) : t :=
  {| attack := attack e; decay := decay e; sustain := sustain e; release := release e;
     state := s; output := output e |}.

Definition with_output (o : Q) (e : t) : t :=
  {| attack := attack e; decay := decay e; sustain := sustain e; release := release e;
     state := state e; output := o |}.

(** The setters, identical in both files. *)
Definition setAttack (a : Q) (e : t) : t :=
  {| attack := std_max 0.001 a; decay := decay e; sustain := sustain e; release := release e;
     state := state e; output := output e |}.

Definition setDecay (d : Q) (e : t) : t :=
  {| attack := attack e; decay := std_max 0.001 d; sustain := sustain e; release := release e;
     state := state e; output := output e |}.

Definition setSustain (s : Q) (e : t) : t :=
  {| attack := attack e; decay := decay e; sustain := clamp s 0 1; release := release e;
     state := state e; output := output e |}.

Definition setRelease (r : Q) (e : t) : t :=
  {| attack := attack e; decay := decay e; sustain := sustain e; release := std_max 0.001 r;
     state := state e; output := output e |}.

(** [void process(float sampleTime)], identical in both files. *)
Definition process (sampleTime : Q) (e : t) : t :=
  match state e with
  | IDLE => with_output 0 e
  | ATTACK =>
      let o := output e + sampleTime / attack e in
      if Qleb 1 o then with_state DECAY (with_output 1 e) else with_output o e
  | DECAY =>
      let o := output e - sampleTime / decay e in
      if Qleb o (sustain e) then with_state SUSTAIN (with_output (sustain e) e)
      else with_output o e
  | SUSTAIN => with_output (sustain e) e
  | RELEASE =>
      let o := output e - sampleTime / release e in
      if Qleb o 0 then with_state IDLE (with_output 0 e) else with_output o e
  end.

End ADSR.

Module ChordPadSynth.
Import ADSR.

(** Field initialisers of [struct ADSR] in ChordPadSynth.cpp. *)
Definition ADSR_init : ADSR.t :=
  {| attack := 0.01; decay := 0.1; sustain := 0.7; release := 0.2;
     state := IDLE; output := 0 |}.

(** [void gate(bool on, float sampleTime)] of ChordPadSynth.cpp. *)
Definition gate (on : bool) (sampleTime : Q) (e : ADSR.t) : ADSR.t :=
  if on && State_eqb (state e) IDLE then with_state ATTACK e
  else if negb on && negb (State_eqb (state e) IDLE) && negb (State_eqb (state e) RELEASE)
  then with_state RELEASE e
  else e.

(** [struct Voice] of ChordPadSynth.cpp. *)
Inductive Waveform : Type := SINE | TRIANGLE | SAW | SQUARE.

Record Voice : Type := mkVoice {
  phase : Q;
  frequency : Q;
  targetFrequency : Q;
  active : bool;
  waveform : Waveform
}.

Definition Voice_init : Voice :=
  {| phase := 0; frequency := 0; targetFrequency := 0; active := false; waveform := SINE |}.

Definition FREQ_SMOOTH : Q := 0.01.

(** [void setTargetFrequency(float target)]. *)
Definition setTargetFrequency (target : Q) (v : Voice) : Voice :=
  {| phase := phase v; frequency := frequency v; targetFrequency := target;
     active := active v; waveform := waveform v |}.

Section Libm.

Variable sinf : Q -> Q.
Variable M_PI : Q.

(** [float generate(float sampleTime)]: the sample and the voice with its
    frequency and phase advanced. *)
Definition generate (sampleTime : Q) (v : Voice) : Q * Voice :=
  if negb (active v) then (0, v) else
  let frequency_ :=
    if Qltb 0.1 (fabs (frequency v - targetFrequency v))
    then frequency v + (targetFrequency v - frequency v) * FREQ_SMOOTH
    else targetFrequency v in
  let phase_ := phase v + frequency_ * sampleTime in
  let phase_ := if Qleb 1 phase_ then phase_ - 1 else phase_ in
  let phase_ := if Qltb phase_ 0 then phase_ + 1 else phase_ in
  let signal :=
    match waveform v with
    | SINE => sinf (2 * M_PI * phase_)
    | TRIANGLE => if Qltb phase_ 0.5 then 4 * phase_ - 1 else 3 - 4 * phase_
    | SAW => 2 * phase_ - 1
    | SQUARE => if Qltb phase_ 0.5 then 1 else -1
    end in
  (signal,
   {| phase := phase_; frequency := frequency_; targetFrequency := targetFrequency v;
      active := active v; waveform := waveform v |}).

(** The voice after [n] calls of [generate]. *)
Definition generate_n (n : nat) (sampleTime : Q) (v : Voice) : Voice :=
  Nat.iter n (fun v => snd (generate sampleTime v)) v.

End Libm.

End ChordPadSynth.

Module ChordPluckSynth.
Import ADSR.

(** Field initialisers of [struct ADSR] in ChordPluckSynth.cpp. *)
Definition ADSR_init : ADSR.t :=
  {| attack := 0.001; decay := 0.1; sustain := 0.0; release := 0.2;
     state := IDLE; output := 0 |}.

(** [void gate(bool on, float sampleTime)] of ChordPluckSynth.cpp: a gate-on
    always retriggers the attack from zero. *)
Definition gate (on : bool) (sampleTime : Q) (e : ADSR.t) : ADSR.t :=
  if on then with_output 0 (with_state ATTACK e)
  else if negb on && negb (State_eqb (state e) IDLE) && negb (State_eqb (state e) RELEASE)
  then with_state RELEASE e
  else e.

End ChordPluckSynth.

(** The calls a module makes on its envelope, as a trace alphabet. *)
Module Envelope.
Import ADSR.

Inductive Variant : Type := Pad | Pluck.

Inductive Call : Type :=
| SetAttack (a : Q)
| SetDecay (d : Q)
| SetSustain (s : Q)
| SetRelease (r : Q)
| Gate (on : bool) (sampleTime : Q)
| Process (sampleTime : Q).

Definition init (v : Variant) : ADSR.t :=
  match v with Pad => ChordPadSynth.ADSR_init | Pluck => ChordPluckSynth.ADSR_init end.

Definition gate (v : Variant) : bool -> Q -> ADSR.t -> ADSR.t :=
  match v with Pad => ChordPadSynth.gate | Pluck => ChordPluckSynth.gate end.

Definition call (v : Variant) (e : ADSR.t) (c : Call) : ADSR.t :=
  match c with
  | SetAttack a => setAttack a e
  | SetDecay d => setDecay d e
  | SetSustain s => setSustain s e
  | SetRelease r => setRelease r e
  | Gate on dt => gate v on dt e
  | Process dt => process dt e
  end.

(** The envelope after a sequence of calls, oldest first. *)
Definition run (v : Variant) (e : ADSR.t) (cs : list Call) : ADSR.t :=
  foldl (call v) e cs.

(** The sample time of a [Process] call is not negative (it is
    [1 / sampleRate] in every caller); other calls are unconstrained. *)
Definition time_ok (c : Call) : Prop :=
  match c with Process dt => 0 <= dt | _ => True end.

(** What every reachable envelope satisfies: output and sustain level in
    [[0, 1]], positive times, and a silent [IDLE]. *)
Record Inv (e : ADSR.t) : Prop := mkInv {
  inv_out : 0 <= output e /\ output e <= 1;
  inv_sus : 0 <= sustain e /\ sustain e <= 1;
  inv_att : 0 < attack e;
  inv_dec : 0 < decay e;
  inv_rel : 0 < release e;
  inv_idle : state e = IDLE -> output e = 0
}.

(** A call other than a gate-off.  Neither ChordPadSynth.cpp nor
    ChordPluckSynth.cpp ever calls [gate(false, _)]. *)
Definition no_gate_off (c : Call) : Prop :=
  match c with Gate on _ => on = true | _ => True end.

End Envelope.

(** ** WT_SURGE_X.cpp *)

Module WT_SURGE_X.

Definition TABLE_SIZE : Z := 2048.
Definition NUM_FRAMES : Z := 64.
Definition MIP_LEVELS : Z := 10.
Definition NUM_BANKS : Z := 2.

(** [float tables[NUM_BANKS][NUM_FRAMES][MIP_LEVELS][TABLE_SIZE]] as nested
    lists: a level is a list of samples, a frame a list of levels. *)
Abbreviation Level := (list Q).
Abbreviation Frame := (list (list Q)).
Abbreviation Bank := (list (list (list Q))).
Abbreviation Tables := (list (list (list (list Q)))).

Definition level_of (fr : Frame) (mip : Z) : Level := default [] (fr !! Z.to_nat mip).
Definition frame_of (ts : Tables) (bank frame : Z) : Frame :=
  default [] (default [] (ts !! Z.to_nat bank) !! Z.to_nat frame).

(** [tables[bank][frame][mip][s]]. *)
Definition sample (ts : Tables) (bank frame mip s : Z) : Q :=
  at_ (level_of (frame_of ts bank frame) mip) s.

(** A zero-filled array of the declared shape. *)
Definition Tables_zero : Tables :=
  replicate (Z.to_nat NUM_BANKS)
    (replicate (Z.to_nat NUM_FRAMES)
       (replicate (Z.to_nat MIP_LEVELS) (replicate (Z.to_nat TABLE_SIZE) 0))).

(** The shape of the array; contents are free. *)
Definition shaped (ts : Tables) : Prop :=
  length ts = Z.to_nat NUM_BANKS /\
  forall b, b ∈ ts -> length b = Z.to_nat NUM_FRAMES /\
    forall fr, fr ∈ b -> length fr = Z.to_nat MIP_LEVELS.

(** [(k % TABLE_SIZE + TABLE_SIZE) % TABLE_SIZE]. *)
Definition wrap_index (k : Z) : Z := cmod (cmod k TABLE_SIZE + TABLE_SIZE) TABLE_SIZE.

(** The innermost loop of the mip generation,
    [for (int k = s - step / 2; k <= s + step / 2; k += step)],
    accumulating [sum] and the tap count [n]; [fuel] bounds the number of
    iterations. *)
Fixpoint mip_taps (fuel : nat) (level0 : Level) (k hi step : Z) (sum : Q) (n : Z) : Q * Z :=
  match fuel with
  | O => (sum, n)
  | S fuel' =>
      if (k <=? hi)%Z then
        let idx := wrap_index k in
        mip_taps fuel' level0 (k + step)%Z hi step (sum + at_ level0 idx) (n + 1)%Z
      else (sum, n)
  end.

(** The value stored in [tables[bank][frame][mip][s]]: [step = 1 << mip];
    the window [s - step/2 .. s + step/2] has [step + 1] cells, which bounds
    the iterations of the tap loop. *)
Definition mip_sample (level0 prev : Level) (mip s : Z) : Q :=
  let step := Z.shiftl 1 mip in
  let '(sum, n) :=
    mip_taps (Z.to_nat (step + 1)) level0
      (s - Z.quot step 2)%Z (s + Z.quot step 2)%Z step 0 0%Z in
  if (0 <? n)%Z then sum / ofZ n else at_ prev s.

(** The loop [for (int mip = 1; mip < MIP_LEVELS; mip++)] over one frame
    whose level 0 is already in place. *)
Definition fill_mip (fr : Frame) (mip : Z) : Frame :=
  <[Z.to_nat mip :=
      map (mip_sample (level_of fr 0) (level_of fr (mip - 1)) mip) (seqZ 0 TABLE_SIZE)]> fr.

Definition fill_mips (fr : Frame) : Frame :=
  foldl fill_mip fr (seqZ 1 (MIP_LEVELS - 1)).

(** Peak search and normalisation, [peak] starting at [0.0001f]. *)
Definition peak_of (l : list Q) : Q :=
  foldl (fun peak v => let a := fabs v in if Qltb peak a then a else peak) 0.0001 l.

Definition normalize (l : list Q) : list Q :=
  let peak := peak_of l in map (fun v => v / peak) l.

(** The tail of [WavParser::load], from [int wantLen = targetLen *
    targetFrames] on: [raw] holds the decoded mono samples. *)
Definition resample (raw : list Q) (targetLen targetFrames : Z) : list Q :=
  let rawSize := Z.of_nat (length raw) in
  let wantLen := (targetLen * targetFrames)%Z in
  let out :=
    if (wantLen <=? rawSize)%Z then
      let samplesPerFrame := Z.quot rawSize targetFrames in
      flat_map (fun f =>
        let frameStart := (f * samplesPerFrame)%Z in
        map (fun s =>
          let t := ofZ s / ofZ targetLen * ofZ (samplesPerFrame - 1) in
          let i0 := (frameStart + Qtrunc t)%Z in
          let i0 := if (i0 <? 0)%Z then 0%Z else i0 in
          let i0 := if (rawSize <=? i0)%Z then (rawSize - 1)%Z else i0 in
          let i1 := (i0 + 1)%Z in
          let i1 := if (rawSize <=? i1)%Z then (rawSize - 1)%Z else i1 in
          let frac := t - ofZ (Qtrunc t) in
          at_ raw i0 * (1 - frac) + at_ raw i1 * frac) (range targetLen))
        (range targetFrames)
    else
      map (fun i =>
        let t := ofZ i / ofZ wantLen * ofZ rawSize in
        let i0 := Qtrunc t in
        let i0 := if (rawSize <=? i0)%Z then (rawSize - 1)%Z else i0 in
        let i1 := (i0 + 1)%Z in
        let i1 := if (rawSize <=? i1)%Z then (rawSize - 1)%Z else i1 in
        let frac := t - ofZ i0 in
        at_ raw i0 * (1 - frac) + at_ raw i1 * frac) (range wantLen) in
  normalize out.

(** [struct WavetableBank]. *)
Record WavetableBank : Type := mkBank {
  tables : Tables;
  tableReady : bool
}.

(** Body of the frame loop of [loadWav]: copy the frame's slice of [buf]
    into level 0, then build the mips. *)
Definition load_frame (buf : list Q) (old : Frame) (f : Z) : Frame :=
  fill_mips (<[0%nat := map (fun s => at_ buf (f * TABLE_SIZE + s)) (seqZ 0 TABLE_SIZE)]> old).

(** [void loadWav(int bank, const std::string& path)].  The file is read
    by [WavParser::load]; [decoded] is [None] when that returns [false]
    before the resampling stage (unreadable or unsupported file), otherwise
    the decoded mono samples. *)
Definition loadWav (bank : Z) (decoded : option (list Q)) (w : WavetableBank) : WavetableBank :=
  match decoded with
  | None => {| tables := tables w; tableReady := true |}
  | Some raw =>
      let buf := resample raw TABLE_SIZE NUM_FRAMES in
      {| tables :=
           <[Z.to_nat bank :=
               map (fun f => load_frame buf (frame_of (tables w) bank f) f) (seqZ 0 NUM_FRAMES)]>
             (tables w);
         tableReady := true |}
  end.

(** [lerp], [cubicHermite], [softClip]. *)
Definition lerp (a b t : Q) : Q := a + (b - a) * t.

Definition cubicHermite (y0 y1 y2 y3 t : Q) : Q :=
  let t2 := t * t in
  let t3 := t2 * t in
  let m0 := (y2 - y0) * 0.5 in
  let m1 := (y3 - y1) * 0.5 in
  (2 * t3 - 3 * t2 + 1) * y1 + (t3 - 2 * t2 + t) * m0 + (-2 * t3 + 3 * t2) * y2 + (t3 - t2) * m1.

Definition softClip (x : Q) : Q := x / (1 + fabs x).

(** [float readWavetable(int bank, float framePos, float phase, float freqHz,
    float sampleRate, int quality)]. *)
Definition select_mip (fc : Q) : Z :=
  if Qltb fc 32 then 0
  else if Qltb fc 64 then 1
  else if Qltb fc 128 then 2
  else if Qltb fc 256 then 3
  else if Qltb fc 512 then 4
  else if Qltb fc 1024 then 5
  else if Qltb fc 2048 then 6
  else if Qltb fc 4096 then 7
  else if Qltb fc 8192 then 8
  else 9.

Definition readWavetable (w : WavetableBank) (bank : Z) (framePos phase freqHz sampleRate : Q)
    (quality : Z) : Q :=
  if negb (tableReady w) then 0 else
  let fc := freqHz / sampleRate * ofZ TABLE_SIZE in
  let mip := select_mip fc in
  let mip := if (quality =? 0)%Z then std_minZ (mip + 2) (MIP_LEVELS - 1) else mip in
  let fIdx := framePos * ofZ (NUM_FRAMES - 1) in
  let f0 := Qtrunc fIdx in
  let f0 := if (f0 <? 0)%Z then 0%Z else f0 in
  let f0 := if (NUM_FRAMES - 1 <=? f0)%Z then (NUM_FRAMES - 2)%Z else f0 in
  let f1 := (f0 + 1)%Z in
  let fracF := fIdx - ofZ f0 in
  let pos := phase * ofZ TABLE_SIZE in
  let s0 := Qtrunc pos in
  let frac := pos - ofZ s0 in
  let s0 := wrap_index s0 in
  let s1 := cmod (s0 + 1) TABLE_SIZE in
  let v00 := sample (tables w) bank f0 mip s0 in
  let v01 := sample (tables w) bank f0 mip s1 in
  let v10 := sample (tables w) bank f1 mip s0 in
  let v11 := sample (tables w) bank f1 mip s1 in
  let v0 := lerp v00 v01 frac in
  let v1 := lerp v10 v11 frac in
  let '(v0, v1) :=
    if (quality =? 2)%Z then
      let sm1 := cmod (s0 - 1 + TABLE_SIZE) TABLE_SIZE in
      let sp2 := cmod (s1 + 1) TABLE_SIZE in
      (cubicHermite (sample (tables w) bank f0 mip sm1) v00 v01
         (sample (tables w) bank f0 mip sp2) frac,
       cubicHermite (sample (tables w) bank f1 mip sm1) v10 v11
         (sample (tables w) bank f1 mip sp2) frac)
    else (v0, v1) in
  lerp v0 v1 fracF.

(** The transcendental functions of [<cmath>] are parameters of the
    development; nothing is assumed about them. *)
Section Libm.

Variables sinf cosf tanhf floorf roundf : Q -> Q.
Variable powf : Q -> Q -> Q.
Variable M_PI : Q.

(** The sample computed for [tables[bank][frame][0][s]] by
    [generateDefault], before normalisation. *)
Definition default_sample (bank frame s : Z) : Q :=
  let t := ofZ frame / ofZ (NUM_FRAMES - 1) in
  let phase := ofZ s / ofZ TABLE_SIZE in
  if (bank =? 0)%Z then
    let sine := sinf (2 * M_PI * phase) in
    let saw := 2 * phase - 1 in
    let sq := if Qltb phase 0.5 then 1 else -1 in
    let rich :=
      foldl (fun rich h => rich + 0.3 / ofZ h * sinf (2 * M_PI * phase * ofZ h))
        sine (seqZ 2 7) in
    let rich := rich / 1.8 in
    sine * (1 - t * 0.7) + saw * (t * 0.4) + sq * (t * 0.3) + rich * (t * 0.5)
  else
    let sine := sinf (2 * M_PI * phase) in
    let w0 := 1 in
    let w1 := 0.5 * (1 + sinf (t * 2 * M_PI)) in
    let w2 := 0.3 * (1 + cosf (t * 3 * M_PI)) in
    let formant :=
      foldl (fun formant h =>
               let w := w0 / ofZ h + w1 / ofZ (h + 2) + w2 / ofZ (h + 4) in
               formant + w * sinf (2 * M_PI * phase * ofZ h))
        0 (seqZ 1 12) in
    let formant := formant / 2.5 in
    sine * (1 - t) + formant * t.

(** Body of the frame loop of [generateDefault]. *)
Definition default_frame (old : Frame) (bank frame : Z) : Frame :=
  fill_mips (<[0%nat := normalize (map (default_sample bank frame) (seqZ 0 TABLE_SIZE))]> old).

(** [void generateDefault()]. *)
Definition generateDefault (w : WavetableBank) : WavetableBank :=
  {| tables :=
       map (fun bank =>
              map (fun frame => default_frame (frame_of (tables w) bank frame) bank frame)
                (seqZ 0 NUM_FRAMES))
         (seqZ 0 NUM_BANKS);
     tableReady := tableReady w |}.

(** [float applyWarp(float sample, float phase, int mode, float amount)]:
    modes 0..4 are [WARP_PHASE_DISTORT], [WARP_BEND_ASYM], [WARP_MIRROR],
    [WARP_FOLD], [WARP_SYNC_LIKE].  Each fold loop leaves its range after one
    iteration, so two units of fuel cover it. *)
Definition applyWarp (sample_ phase : Q) (mode : Z) (amount : Q) : Q :=
  if Qltb amount 0.0001 then sample_ else
  let warped :=
    if (mode =? 0)%Z then
      let k := 0.5 + amount * 1.5 in
      sinf (2 * M_PI * powf phase k) * 0.9
    else if (mode =? 1)%Z then
      let b := 1 + amount * 3 in
      tanhf (sample_ * b)
    else if (mode =? 2)%Z then
      let s := sample_ in
      let s := if Qltb s 0 then - s else s in
      let s := if Qltb 0.5 phase then - s else s in
      s * (1 - amount) + sample_ * amount
    else if (mode =? 3)%Z then
      let s := while_ 2 (fun s => Qltb 1 s) (fun s => 2 - s) sample_ in
      let s := while_ 2 (fun s => Qltb s (-1)) (fun s => -2 - s) s in
      lerp sample_ s amount
    else if (mode =? 4)%Z then
      let mult := 1 + amount * 7 in
      let p := phase * mult in
      let p := p - floorf p in
      sinf (2 * M_PI * p) * 0.9
    else sample_ in
  lerp sample_ warped amount.

(** Module state of [struct WT_SURGE_X]. *)
Record Module_ : Type := mkModule {
  wavetable : WavetableBank;
  phaseStore : list Q
}.

(** What one [process] call reads from the host.  [sync] is the result of
    [syncTrigger.process(...)] on the SYNC input (Rack SDK's
    [dsp::SchmittTrigger], a library class). *)
Record Inputs : Type := mkInputs {
  sampleRate : Q;
  sampleTime : Q;
  PITCH_connected : bool;  PITCH_voltage : Q;
  FM_connected : bool;     FM_voltage : Q;
  WT_X_connected : bool;   WT_X_voltage : Q;
  WT_Y_connected : bool;   WT_Y_voltage : Q;
  XFADE_connected : bool;  XFADE_voltage : Q;
  WARP_A_connected : bool; WARP_A_voltage : Q;
  WARP_B_connected : bool; WARP_B_voltage : Q;
  sync : bool;
  COARSE_PARAM : Q; FINE_PARAM : Q; FM_AMT_PARAM : Q;
  X_POS_PARAM : Q; Y_POS_PARAM : Q; XFADE_PARAM : Q;
  WARP_A_MODE_PARAM : Q; WARP_A_AMT_PARAM : Q;
  WARP_B_MODE_PARAM : Q; WARP_B_AMT_PARAM : Q;
  UNISON_PARAM : Q; DETUNE_PARAM : Q; SPREAD_PARAM : Q;
  QUALITY_PARAM : Q; LEVEL_PARAM : Q; PHASE_PARAM : Q
}.

(** [dsp::FREQ_C4] of the Rack SDK. *)
Definition FREQ_C4 : Q := 261.6256.

(** A knob plus its attenuated CV, clamped to [0, 1]. *)
Definition knob_cv (param : Q) (connected : bool) (voltage : Q) : Q :=
  let x := if connected then param + voltage / 10 * 0.5 else param in
  clamp x 0 1.

(** The voltages written to OUT_L and OUT_R. *)
Record Outputs : Type := mkOutputs {
  OUT_L_OUTPUT : Q;
  OUT_R_OUTPUT : Q
}.

(** [void process(const ProcessArgs& args)]. *)
Definition process (i : Inputs) (m : Module_) : Outputs * Module_ :=
  if negb (tableReady (wavetable m)) then
    ({| OUT_L_OUTPUT := 0; OUT_R_OUTPUT := 0 |}, m)
  else
  let pitchV := PITCH_voltage i in
  let pitchV := if negb (PITCH_connected i) then 0 else pitchV in
  let coarse := COARSE_PARAM i in
  let fine := FINE_PARAM i / 100 in
  let fmAmt := FM_AMT_PARAM i in
  let fm := if FM_connected i then FM_voltage i * fmAmt * 12 else 0 in
  let pitch := pitchV + coarse + fine + fm in
  let freqHz := FREQ_C4 * powf 2 (pitch / 12) in
  let freqHz := clamp freqHz 1 20000 in
  let xPos := knob_cv (X_POS_PARAM i) (WT_X_connected i) (WT_X_voltage i) in
  let yPos := knob_cv (Y_POS_PARAM i) (WT_Y_connected i) (WT_Y_voltage i) in
  let xfade := knob_cv (XFADE_PARAM i) (XFADE_connected i) (XFADE_voltage i) in
  let warpAMode := Qtrunc (roundf (WARP_A_MODE_PARAM i)) in
  let warpAAmt := knob_cv (WARP_A_AMT_PARAM i) (WARP_A_connected i) (WARP_A_voltage i) in
  let warpBMode := Qtrunc (roundf (WARP_B_MODE_PARAM i)) in
  let warpBAmt := knob_cv (WARP_B_AMT_PARAM i) (WARP_B_connected i) (WARP_B_voltage i) in
  let voices := Qtrunc (roundf (UNISON_PARAM i)) in
  let voices := Qtrunc (clamp (ofZ voices) 1 4) in
  let detune := DETUNE_PARAM i * 30 / 1200 in
  let spread := SPREAD_PARAM i in
  let quality := Qtrunc (roundf (QUALITY_PARAM i)) in
  let quality := Qtrunc (clamp (ofZ quality) 0 2) in
  let level := LEVEL_PARAM i in
  let phaseStart := PHASE_PARAM i in
  let invVoices := 1 / ofZ voices in
  let '(store, outL, outR) :=
    foldl (fun (acc : list Q * Q * Q) (v : Z) =>
      let '(store, outL, outR) := acc in
      let detuneCents := (ofZ v - ofZ (voices - 1) * 0.5) * detune * 30 in
      let vFreq := freqHz * powf 2 (detuneCents / 12) in
      let inc := vFreq * sampleTime i in
      let ph := if sync i then phaseStart else at_ store v in
      let ph := ph + inc in
      let ph := if Qleb 1 ph then ph - 1 else ph in
      let ph := if Qltb ph 0 then ph + 1 else ph in
      let store := <[Z.to_nat v := ph]> store in
      let phase := ph in
      let sA := readWavetable (wavetable m) 0 xPos phase vFreq (sampleRate i) quality in
      let sB := readWavetable (wavetable m) 1 yPos phase vFreq (sampleRate i) quality in
      let base := lerp sA sB xfade in
      let base := applyWarp base phase warpAMode warpAAmt in
      let base := applyWarp base phase warpBMode warpBAmt in
      let pan :=
        if (1 <? voices)%Z then (ofZ v / ofZ (voices - 1) - 0.5) * 2 * spread else 0 in
      let gL := (1 - pan) * invVoices in
      let gR := (1 + pan) * invVoices in
      (store, outL + base * gL, outR + base * gR))
    (phaseStore m, 0, 0) (seqZ 0 voices) in
  let outL := softClip (outL * level * 5) in
  let outR := softClip (outR * level * 5) in
  ({| OUT_L_OUTPUT := outL; OUT_R_OUTPUT := outR |},
   {| wavetable := wavetable m; phaseStore := store |}).

End Libm.

(** What the claims say about the mip levels, in the spec's words: the
    average of the [2^k] consecutive, circularly wrapped cells of level 0
    that start at cell [a]. *)
Definition box_average (level0 : Level) (k a : Z) : Q :=
  foldl (fun acc j => acc + at_ level0 ((a + j) mod TABLE_SIZE)%Z) 0 (seqZ 0 (2 ^ k))
  / ofZ (2 ^ k).

(** A decoded 128-sample mono file that alternates [+1, -1]: stretched
    over the 64 frames it becomes a triangle wave, one period per frame. *)
Definition triangle_raw : list Q := concat (replicate 64 [1; -1]).

Definition blank_bank : WavetableBank := {| tables := Tables_zero; tableReady := true |}.

End WT_SURGE_X.

(** ** BuildupLooper.cpp *)

Module BuildupLooper.

Definition RING_MAX_SAMPLES : Z := Qtrunc (2.5 * 192000).
Definition LOOP_MAX_SAMPLES : Z := Qtrunc (2 * 192000).
Definition EXIT_FADE_MS : Q := 20.
Definition LOOP_FADE_MS : Q := 10.

(** [static inline float easeInOut(float x)]. *)
Definition easeInOut (x : Q) : Q :=
  let x := clamp x 0 1 in
  x * x * (3 - 2 * x).

(** Iteration bound for the loops [while (p >= len) p -= len;] and
    [while (p < 0.f) p += len;]: at most [|p / len| + 1] rounds are needed
    when [len] is positive. *)
Definition laps (p len : Q) : nat := S (S (Z.to_nat (Z.abs (Qtrunc (p / len))))).

Definition wrap_up (p len : Q) : Q :=
  while_ (laps p len) (fun p => Qltb p 0) (fun p => p + len) p.
Definition wrap_down (p len : Q) : Q :=
  while_ (laps p len) (fun p => Qleb len p) (fun p => p - len) p.

(** [static inline float readLinear(const float* buf, int size, float pos)]. *)
Definition readLinear (buf : list Q) (size : Z) (pos : Q) : Q :=
  if (size <=? 0)%Z then 0 else
  let pos := wrap_up pos (ofZ size) in
  let pos := wrap_down pos (ofZ size) in
  let i0 := Qtrunc pos in
  let i1 := (i0 + 1)%Z in
  let i1 := if (size <=? i1)%Z then 0%Z else i1 in
  let f := pos - ofZ i0 in
  at_ buf i0 * (1 - f) + at_ buf i1 * f.

(** [float readWithLoopCrossfade(const float* buf, int len, float pos, int Nfade)]. *)
Definition readWithLoopCrossfade (buf : list Q) (len : Z) (pos : Q) (Nfade : Z) : Q :=
  if (len <=? 0)%Z then 0 else
  let p := wrap_down pos (ofZ len) in
  let p := wrap_up p (ofZ len) in
  let end_ := readLinear buf len p in
  if (Nfade <=? 0)%Z || (len <? 2 * Nfade)%Z then end_ else
  let startPos := p - ofZ (len - Nfade) in
  let startPos := if Qltb startPos 0 then startPos + ofZ len else startPos in
  let start := readLinear buf len startPos in
  let w := if Qleb (ofZ (len - Nfade)) p then (p - ofZ (len - Nfade)) / ofZ Nfade else 0 in
  end_ * (1 - w) + start * w.

(** True when the crossfade branch of [readWithLoopCrossfade] is taken,
    that is, when neither early [return] fires. *)
Definition crossfade_applied (len Nfade : Z) : bool :=
  negb (len <=? 0)%Z && negb ((Nfade <=? 0)%Z || (len <? 2 * Nfade)%Z).

Inductive State : Type := IDLE | BUILD | EXIT_FADE.

(** Fields of [struct BuildupLooperModule]; [allocated] stands for
    [ringL != nullptr]. *)
Record Module_ : Type := mkModule {
  allocated : bool;
  ringL : list Q;
  ringR : list Q;
  ringSize : Z;
  ringWritePos : Z;
  loopL : list Q;
  loopR : list Q;
  loopSamples : Z;
  state : State;
  playheadL : Q;
  playheadR : Q;
  rampSamples : Z;
  exitFadeSamples : Q;
  exitFadeTotal : Q;
  buttonToggleState : bool;
  prevButtonPressed : bool;
  smoothedIntensity : Q;
  smoothedTime : Q;
  smoothedLoopSec : Q;
  prevClockHigh : bool;
  clockSampleCounter : Z;
  lastClockSample : Z;
  beatPeriodSamples : Q
}.

(** The member initialisers. *)
Definition Module_new : Module_ :=
  {| allocated := false; ringL := []; ringR := []; ringSize := 0; ringWritePos := 0;
     loopL := []; loopR := []; loopSamples := 0;
     state := IDLE; playheadL := 0; playheadR := 0; rampSamples := 0;
     exitFadeSamples := 0; exitFadeTotal := 1;
     buttonToggleState := false; prevButtonPressed := false;
     smoothedIntensity := 1; smoothedTime := 8; smoothedLoopSec := 0.25;
     prevClockHigh := false; clockSampleCounter := 0; lastClockSample := 0;
     beatPeriodSamples := 0 |}.

(** [void ensureBuffers()]. *)
Definition ensureBuffers (m : Module_) : Module_ :=
  if allocated m then m else
  {| allocated := true;
     ringL := replicate (Z.to_nat RING_MAX_SAMPLES) 0;
     ringR := replicate (Z.to_nat RING_MAX_SAMPLES) 0;
     ringSize := RING_MAX_SAMPLES;
     ringWritePos := ringWritePos m;
     loopL := replicate (Z.to_nat LOOP_MAX_SAMPLES) 0;
     loopR := replicate (Z.to_nat LOOP_MAX_SAMPLES) 0;
     loopSamples := loopSamples m;
     state := state m; playheadL := playheadL m; playheadR := playheadR m;
     rampSamples := rampSamples m;
     exitFadeSamples := exitFadeSamples m; exitFadeTotal := exitFadeTotal m;
     buttonToggleState := buttonToggleState m; prevButtonPressed := prevButtonPressed m;
     smoothedIntensity := smoothedIntensity m; smoothedTime := smoothedTime m;
     smoothedLoopSec := smoothedLoopSec m;
     prevClockHigh := prevClockHigh m; clockSampleCounter := clockSampleCounter m;
     lastClockSample := lastClockSample m; beatPeriodSamples := beatPeriodSamples m |}.

(** What one [process] call reads from the host. *)
Record Inputs : Type := mkInputs {
  sampleRate : Q;
  TRIG_connected : bool;      TRIG_voltage : Q;
  CLOCK_connected : bool;     CLOCK_voltage : Q;
  INTENSITY_connected : bool; INTENSITY_voltage : Q;
  AUDIO_L_connected : bool;   AUDIO_L_voltage : Q;
  AUDIO_R_connected : bool;   AUDIO_R_voltage : Q;
  BUILD_PARAM : Q;
  INTENSITY_PARAM : Q;
  TIME_PARAM : Q;
  LOOP_PARAM : Q;
  BAR_PARAM : Q
}.

Record Outputs : Type := mkOutputs {
  AUDIO_L_OUTPUT : Q;
  AUDIO_R_OUTPUT : Q;
  BUILD_LIGHT : Q
}.

(** The parameter-smoothing coefficient [smooth]. *)
Definition smooth : Q := 0.0005.

(** [buttonPressed], and the toggle after the edge test of this step. *)
Definition buttonPressed (i : Inputs) : bool := Qleb 0.5 (BUILD_PARAM i).

Definition toggle_step (i : Inputs) (m : Module_) : bool :=
  if negb (eqb (buttonPressed i) (prevButtonPressed m))
  then negb (buttonToggleState m) else buttonToggleState m.

(** [wantBuild = gateHigh || (!trigConnected && buttonToggleState)]. *)
Definition wantBuild (i : Inputs) (m : Module_) : bool :=
  let gateHigh := Qleb 0.5 (TRIG_voltage i) in
  gateHigh || (negb (TRIG_connected i) && toggle_step i m).

(** [smoothedLoopSec] after this step's smoothing. *)
Definition smoothedLoopSec_step (i : Inputs) (m : Module_) : Q :=
  smoothedLoopSec m + (LOOP_PARAM i - smoothedLoopSec m) * smooth.

(** The clock block: new values of [prevClockHigh], [clockSampleCounter],
    [lastClockSample] and [beatPeriodSamples] (unchanged when no clock is
    connected). *)
Definition clock_step (i : Inputs) (m : Module_) : bool * Z * Z * Q :=
  if CLOCK_connected i then
    let clockHigh := Qleb 0.5 (CLOCK_voltage i) in
    let '(last, beat) :=
      if clockHigh && negb (prevClockHigh m) then
        let period := (clockSampleCounter m - lastClockSample m)%Z in
        let beat :=
          if (0 <? period)%Z && (period <? Qtrunc (sampleRate i * 4))%Z
          then 0.1 * beatPeriodSamples m + 0.9 * ofZ period
          else beatPeriodSamples m in
        (clockSampleCounter m, beat)
      else (lastClockSample m, beatPeriodSamples m) in
    (clockHigh, (clockSampleCounter m + 1)%Z, last, beat)
  else (prevClockHigh m, clockSampleCounter m, lastClockSample m, beatPeriodSamples m).

(** [L_samples] of this step. *)
Definition L_samples (i : Inputs) (m : Module_) : Z :=
  let sr := sampleRate i in
  if CLOCK_connected i then
    let '(_, _, _, beat) := clock_step i m in
    let barIndex := Qtrunc (BAR_PARAM i + 0.5) in
    let barIndex := clampZ barIndex 0 3 in
    let bars := Z.shiftl 1 barIndex in
    let L :=
      if Qltb 0 beat then Qtrunc (ofZ (bars * 4) * beat)
      else Qtrunc (smoothedLoopSec_step i m * sr) in
    clampZ L 1
      (if (0 <? ringSize m)%Z then std_minZ LOOP_MAX_SAMPLES (ringSize m) else LOOP_MAX_SAMPLES)
  else
    let L := Qtrunc (smoothedLoopSec_step i m * sr) in
    clampZ L 1 LOOP_MAX_SAMPLES.

(** [Nfade] of this step. *)
Definition Nfade (i : Inputs) (m : Module_) : Z :=
  let N := Qtrunc (LOOP_FADE_MS * 0.001 * sampleRate i) in
  clampZ N 4 (Z.quot (L_samples i m) 2).

(** [inL] and [inR] of this step. *)
Definition audio_in (i : Inputs) : Q * Q :=
  let hasL := AUDIO_L_connected i in
  let hasR := AUDIO_R_connected i in
  let inL := if hasL then AUDIO_L_voltage i / 10 else 0 in
  let inR := if hasR then AUDIO_R_voltage i / 10 else 0 in
  let inR := if hasL && negb hasR then inL else inR in
  let inL := if hasR && negb hasL then inR else inL in
  (inL, inR).

(** The copy loop of the build transition:
    [for (i = 0; i < L_samples; i++) loop[i] = ring[(start + i) % ringSize]]. *)
Definition copy_loop (ring loop : list Q) (start L size : Z) : list Q :=
  foldl (fun lp k => <[Z.to_nat k := at_ ring (cmod (start + k) size)]> lp) loop (range L).

(** Writes to the fields owned by the state machine. *)
Definition set_machine (m : Module_) (lL lR : list Q) (ls : Z) (st : State) (pL pR : Q)
    (ramp : Z) (efs : Q) : Module_ :=
  {| allocated := allocated m; ringL := ringL m; ringR := ringR m; ringSize := ringSize m;
     ringWritePos := ringWritePos m;
     loopL := lL; loopR := lR; loopSamples := ls;
     state := st; playheadL := pL; playheadR := pR; rampSamples := ramp;
     exitFadeSamples := efs; exitFadeTotal := exitFadeTotal m;
     buttonToggleState := buttonToggleState m; prevButtonPressed := prevButtonPressed m;
     smoothedIntensity := smoothedIntensity m; smoothedTime := smoothedTime m;
     smoothedLoopSec := smoothedLoopSec m;
     prevClockHigh := prevClockHigh m; clockSampleCounter := clockSampleCounter m;
     lastClockSample := lastClockSample m; beatPeriodSamples := beatPeriodSamples m |}.

(** Everything [process] does before the state machine: buffers, exit-fade
    length, button toggle, smoothing, clock, ring write. *)
Definition pre_machine (i : Inputs) (m0 : Module_) : Module_ :=
  let m := ensureBuffers m0 in
  let sr := sampleRate i in
  let eft :=
    if Qleb (exitFadeTotal m) 0 || Qltb 96000 (exitFadeTotal m)
    then EXIT_FADE_MS * 0.001 * sr else exitFadeTotal m in
  let targetIntensity :=
    if INTENSITY_connected i
    then clamp (1 + (INTENSITY_voltage i / 10) * 14) 1 15
    else INTENSITY_PARAM i in
  let '(pch, counter, last, beat) := clock_step i m in
  let '(inL, inR) := audio_in i in
  {| allocated := allocated m;
     ringL := <[Z.to_nat (ringWritePos m) := inL]> (ringL m);
     ringR := <[Z.to_nat (ringWritePos m) := inR]> (ringR m);
     ringSize := ringSize m;
     ringWritePos := cmod (ringWritePos m + 1) (ringSize m);
     loopL := loopL m; loopR := loopR m; loopSamples := loopSamples m;
     state := state m; playheadL := playheadL m; playheadR := playheadR m;
     rampSamples := rampSamples m;
     exitFadeSamples := exitFadeSamples m; exitFadeTotal := eft;
     buttonToggleState := toggle_step i m; prevButtonPressed := buttonPressed i;
     smoothedIntensity := smoothedIntensity m + (targetIntensity - smoothedIntensity m) * smooth;
     smoothedTime := smoothedTime m + (TIME_PARAM i - smoothedTime m) * smooth;
     smoothedLoopSec := smoothedLoopSec_step i m;
     prevClockHigh := pch; clockSampleCounter := counter; lastClockSample := last;
     beatPeriodSamples := beat |}.

(** The [EXIT_FADE] block, entered with [exitFadeSamples = efs]. *)
Definition exit_fade (m : Module_) (inL inR : Q) (nfade : Z) (efs : Q) : Outputs * Module_ :=
  let mix :=
    if Qltb 0 (exitFadeTotal m) then clamp (efs / exitFadeTotal m) 0 1 else 1 in
  let loopL_out := readWithLoopCrossfade (loopL m) (loopSamples m) (playheadL m) nfade in
  let loopR_out := readWithLoopCrossfade (loopR m) (loopSamples m) (playheadR m) nfade in
  let outL := loopL_out * (1 - mix) + inL * mix in
  let outR := loopR_out * (1 - mix) + inR * mix in
  let efs := efs + 1 in
  ({| AUDIO_L_OUTPUT := outL * 10; AUDIO_R_OUTPUT := outR * 10;
      BUILD_LIGHT := 0.3 * (1 - mix) |},
   set_machine m (loopL m) (loopR m) (loopSamples m)
     (if Qleb (exitFadeTotal m) efs then IDLE else EXIT_FADE)
     (playheadL m) (playheadR m) (rampSamples m) efs).

(** [void process(const ProcessArgs& args)]. *)
Definition process (i : Inputs) (m0 : Module_) : Outputs * Module_ :=
  let m1 := ensureBuffers m0 in
  let want := wantBuild i m1 in
  let L := L_samples i m1 in
  let nfade := Nfade i m1 in
  let '(inL, inR) := audio_in i in
  let m := pre_machine i m0 in
  let sr := sampleRate i in
  match state m with
  | IDLE =>
      let m' :=
        if want then
          let start := cmod (ringWritePos m - L + ringSize m) (ringSize m) in
          set_machine m
            (copy_loop (ringL m) (loopL m) start L (ringSize m))
            (copy_loop (ringR m) (loopR m) start L (ringSize m))
            L BUILD 0 0 0%Z (exitFadeSamples m)
        else m in
      ({| AUDIO_L_OUTPUT := inL * 10; AUDIO_R_OUTPUT := inR * 10; BUILD_LIGHT := 0 |}, m')
  | BUILD =>
      if negb want then exit_fade m inL inR nfade 0
      else
        let ramp := (rampSamples m + 1)%Z in
        let T_samples := smoothedTime m * sr in
        let progress := if Qltb 0 T_samples then clamp (ofZ ramp / T_samples) 0 1 else 1 in
        let rate := 1 + (smoothedIntensity m - 1) * easeInOut progress in
        let len := ofZ (loopSamples m) in
        let pL := wrap_up (wrap_down (playheadL m + rate) len) len in
        let pR := wrap_up (wrap_down (playheadR m + rate) len) len in
        let outL := readWithLoopCrossfade (loopL m) (loopSamples m) pL nfade in
        let outR := readWithLoopCrossfade (loopR m) (loopSamples m) pR nfade in
        let peak := std_max (fabs outL) (fabs outR) in
        let gain := if Qltb 0.001 peak && Qltb peak 0.2 then 0.25 / peak else 1 in
        let gain := clamp gain 1 3 in
        let outL := clamp (outL * gain) (-1.2) 1.2 in
        let outR := clamp (outR * gain) (-1.2) 1.2 in
        ({| AUDIO_L_OUTPUT := outL * 10; AUDIO_R_OUTPUT := outR * 10;
            BUILD_LIGHT := 0.3 + 0.7 * progress |},
         set_machine m (loopL m) (loopR m) (loopSamples m) BUILD pL pR ramp
           (exitFadeSamples m))
  | EXIT_FADE => exit_fade m inL inR nfade (exitFadeSamples m)
  end.

(** The module after a sequence of [process] calls, oldest first. *)
Definition run (m : Module_) (is_ : list Inputs) : Module_ :=
  foldl (fun m i => snd (process i m)) m is_.

(** Reachable configurations of the buffers: either nothing is allocated
    yet, or the buffers have the sizes [ensureBuffers] gave them and the
    write cursor is inside the ring. *)
Definition buffers_ok (m : Module_) : Prop :=
  if allocated m then
    ringSize m = RING_MAX_SAMPLES /\
    length (ringL m) = Z.to_nat RING_MAX_SAMPLES /\
    length (ringR m) = Z.to_nat RING_MAX_SAMPLES /\
    length (loopL m) = Z.to_nat LOOP_MAX_SAMPLES /\
    length (loopR m) = Z.to_nat LOOP_MAX_SAMPLES /\
    (0 <= ringWritePos m < RING_MAX_SAMPLES)%Z
  else ringWritePos m = 0%Z.

(** The sample written to the ring [j] steps ago ([j = 0]: by the latest
    step), read [j + 1] cells behind the write cursor. *)
Definition recentL (m : Module_) (j : Z) : Q :=
  at_ (ringL m) ((ringWritePos m - 1 - j) mod ringSize m)%Z.
Definition recentR (m : Module_) (j : Z) : Q :=
  at_ (ringR m) ((ringWritePos m - 1 - j) mod ringSize m)%Z.

(** Example host inputs: nothing patched, knobs at their defaults; then
    the same with the BUILD button at [v], with a clock voltage [v], or
    with audio [v] on the left input. *)
Definition quiet (sr : Q) : Inputs :=
  {| sampleRate := sr;
     TRIG_connected := false; TRIG_voltage := 0;
     CLOCK_connected := false; CLOCK_voltage := 0;
     INTENSITY_connected := false; INTENSITY_voltage := 0;
     AUDIO_L_connected := false; AUDIO_L_voltage := 0;
     AUDIO_R_connected := false; AUDIO_R_voltage := 0;
     BUILD_PARAM := 0; INTENSITY_PARAM := 1; TIME_PARAM := 8; LOOP_PARAM := 0.25;
     BAR_PARAM := 0 |}.

Definition with_button (v : Q) (i : Inputs) : Inputs :=
  {| sampleRate := sampleRate i;
     TRIG_connected := TRIG_connected i; TRIG_voltage := TRIG_voltage i;
     CLOCK_connected := CLOCK_connected i; CLOCK_voltage := CLOCK_voltage i;
     INTENSITY_connected := INTENSITY_connected i; INTENSITY_voltage := INTENSITY_voltage i;
     AUDIO_L_connected := AUDIO_L_connected i; AUDIO_L_voltage := AUDIO_L_voltage i;
     AUDIO_R_connected := AUDIO_R_connected i; AUDIO_R_voltage := AUDIO_R_voltage i;
     BUILD_PARAM := v; INTENSITY_PARAM := INTENSITY_PARAM i; TIME_PARAM := TIME_PARAM i;
     LOOP_PARAM := LOOP_PARAM i; BAR_PARAM := BAR_PARAM i |}.

Definition with_clock (v : Q) (i : Inputs) : Inputs :=
  {| sampleRate := sampleRate i;
     TRIG_connected := TRIG_connected i; TRIG_voltage := TRIG_voltage i;
     CLOCK_connected := true; CLOCK_voltage := v;
     INTENSITY_connected := INTENSITY_connected i; INTENSITY_voltage := INTENSITY_voltage i;
     AUDIO_L_connected := AUDIO_L_connected i; AUDIO_L_voltage := AUDIO_L_voltage i;
     AUDIO_R_connected := AUDIO_R_connected i; AUDIO_R_voltage := AUDIO_R_voltage i;
     BUILD_PARAM := BUILD_PARAM i; INTENSITY_PARAM := INTENSITY_PARAM i;
     TIME_PARAM := TIME_PARAM i; LOOP_PARAM := LOOP_PARAM i; BAR_PARAM := BAR_PARAM i |}.

Definition with_audio (v : Q) (i : Inputs) : Inputs :=
  {| sampleRate := sampleRate i;
     TRIG_connected := TRIG_connected i; TRIG_voltage := TRIG_voltage i;
     CLOCK_connected := CLOCK_connected i; CLOCK_voltage := CLOCK_voltage i;
     INTENSITY_connected := INTENSITY_connected i; INTENSITY_voltage := INTENSITY_voltage i;
     AUDIO_L_connected := true; AUDIO_L_voltage := v;
     AUDIO_R_connected := AUDIO_R_connected i; AUDIO_R_voltage := AUDIO_R_voltage i;
     BUILD_PARAM := BUILD_PARAM i; INTENSITY_PARAM := INTENSITY_PARAM i;
     TIME_PARAM := TIME_PARAM i; LOOP_PARAM := LOOP_PARAM i; BAR_PARAM := BAR_PARAM i |}.

Definition playheads_ok (m : Module_) : Prop :=
  state m <> IDLE ->
  (1 <= loopSamples m <= LOOP_MAX_SAMPLES)%Z /\
  (0 <= playheadL m /\ playheadL m < ofZ (loopSamples m)) /\
  (0 <= playheadR m /\ playheadR m < ofZ (loopSamples m)).

(** [void onSampleRateChange(const SampleRateChangeEvent& e)]. *)
Definition onSampleRateChange (sr : Q) (m : Module_) : Module_ :=
  {| allocated := allocated m; ringL := ringL m; ringR := ringR m; ringSize := ringSize m;
     ringWritePos := ringWritePos m;
     loopL := loopL m; loopR := loopR m; loopSamples := loopSamples m;
     state := state m; playheadL := playheadL m; playheadR := playheadR m;
     rampSamples := rampSamples m;
     exitFadeSamples := exitFadeSamples m; exitFadeTotal := EXIT_FADE_MS * 0.001 * sr;
     buttonToggleState := buttonToggleState m; prevButtonPressed := prevButtonPressed m;
     smoothedIntensity := smoothedIntensity m; smoothedTime := smoothedTime m;
     smoothedLoopSec := smoothedLoopSec m;
     prevClockHigh := prevClockHigh m; clockSampleCounter := clockSampleCounter m;
     lastClockSample := lastClockSample m; beatPeriodSamples := beatPeriodSamples m |}.

End BuildupLooper.

(** ** AmbientRandomSynth.cpp *)

Module AmbientRandomSynth.

(** [struct Voice]. *)
Record Voice : Type := mkVoice {
  active : bool;
  freq : Q;
  phase : list Q;
  env : Q;
  envPhase : Q;
  attack : Q;
  release : Q;
  midiNote : Q
}.

Definition Voice_new : Voice :=
  {| active := false; freq := 0; phase := [0; 0; 0]; env := 0; envPhase := 0;
     attack := 0.5; release := 3.0; midiNote := 0 |}.

(** [void trigger(float f, float att, float rel, float note)]: the
    oscillator phases and [env] are left as they are. *)
Definition trigger (f att rel note : Q) (v : Voice) : Voice :=
  {| active := true; freq := f; phase := phase v; env := env v; envPhase := 0;
     attack := att; release := rel; midiNote := note |}.

(** The fields of [struct AmbientRandomSynth] outside the audio path (the
    biquad filter and the two delay buffers are not touched by [playNote]
    and are left out). *)
Record Module_ : Type := mkModule {
  voices : list Voice;
  delayWritePtr : Z;
  tickTimer : Q;
  freeze : bool;
  lastVoct : Q;
  gateTimer : Q
}.

Definition NUM_VOICES : nat := 16.

Definition Module_new : Module_ :=
  {| voices := replicate NUM_VOICES Voice_new; delayWritePtr := 0; tickTimer := 0;
     freeze := false; lastVoct := 0; gateTimer := 0 |}.

(** [SCALES]. *)
Definition SCALES : list (list Z) :=
  [ [0; 2; 4; 5; 7; 9; 11];
    [0; 2; 3; 5; 7; 8; 10];
    [0; 2; 4; 7; 9];
    [0; 2; 4; 6; 7; 9; 11];
    [0; 1; 3; 5; 7; 8; 10];
    [0; 2; 3; 5; 7; 9; 10] ]%Z.

(** The parameters [playNote] reads, and the two values it draws from
    [random::uniform()], in the order of the calls. *)
Record NoteInputs : Type := mkNoteInputs {
  ROOT_PARAM : Q;
  SCALE_PARAM : Q;
  MOTION_PARAM : Q;
  uniform1 : Q;
  uniform2 : Q
}.

Section Libm.

Variable powf : Q -> Q -> Q.

(** The note chosen by the first half of [playNote]. *)
Definition chosen_midiNote (i : NoteInputs) : Z :=
  let root := Qtrunc (ROOT_PARAM i) in
  let scaleIdx := Qtrunc (SCALE_PARAM i) in
  let scaleArr := default [] (SCALES !! Z.to_nat scaleIdx) in
  let octave := (Qtrunc (uniform1 i * 3) + 2)%Z in
  let scaleNote :=
    default 0%Z (scaleArr !! Z.to_nat (Qtrunc (uniform2 i * ofZ (Z.of_nat (length scaleArr))))) in
  (root + scaleNote + octave * 12)%Z.

Definition chosen_freq (i : NoteInputs) : Q :=
  440 * powf 2 (ofZ (chosen_midiNote i - 69) / 12).

Definition chosen_attack (i : NoteInputs) : Q := 0.5 + MOTION_PARAM i * 2.
Definition chosen_release (i : NoteInputs) : Q := 3 + MOTION_PARAM i * 4.

(** The body of the [if] in the scan: trigger slot [k] (holding [v]) and
    publish the note on the CV outputs. *)
Definition allocated_in (k : nat) (v : Voice) (i : NoteInputs) (m : Module_) : Module_ :=
  {| voices :=
       <[k := trigger (chosen_freq i) (chosen_attack i) (chosen_release i)
                (ofZ (chosen_midiNote i)) v]> (voices m);
     delayWritePtr := delayWritePtr m; tickTimer := tickTimer m; freeze := freeze m;
     lastVoct := ofZ (chosen_midiNote i - 60) / 12;
     gateTimer := 0.15 |}.

(** The scan [for (int i = 0; i < 16; i++) if (!voices[i].active) {...; break;}],
    from slot [k] with [n] slots left to visit. *)
Fixpoint scan (n k : nat) (i : NoteInputs) (m : Module_) : Module_ :=
  match n with
  | O => m
  | S n' =>
      match voices m !! k with
      | Some v =>
          if negb (active v) then allocated_in k v i m
          else scan n' (S k) i m
      | None => m
      end
  end.

(** [void playNote()]. *)
Definition playNote (i : NoteInputs) (m : Module_) : Module_ := scan NUM_VOICES 0 i m.

End Libm.

(** Example inputs: root C, pentatonic scale, both random draws at 0.5;
    and a pool whose 16 voices are all sounding. *)
Definition example_note : NoteInputs :=
  {| ROOT_PARAM := 0; SCALE_PARAM := 2; MOTION_PARAM := 0.5; uniform1 := 0.5; uniform2 := 0.5 |}.

Definition full_pool : Module_ :=
  {| voices := replicate NUM_VOICES (trigger 220 1.5 5 57 Voice_new);
     delayWritePtr := 0; tickTimer := 0; freeze := false; lastVoct := 0; gateTimer := 0 |}.

(** [float detunes[3]] of [Voice::process]. *)
Definition detunes : list Q := [1; 1.00289; 0.99712].

Section VoiceProcess.

Variables expf sinf : Q -> Q.
Variable M_PI : Q.

(** One iteration of the oscillator loop of [Voice::process], at index
    [k]: the accumulator is the running [out] and the three phases. *)
Definition osc_step (f dt : Q) (acc : Q * list Q) (k : nat) : Q * list Q :=
  let '(out, ph) := acc in
  let p := default 0 (ph !! k) + f * default 0 (detunes !! k) * dt in
  let p := if Qleb 1 p then p - 1 else p in
  (out + sinf (2 * M_PI * p), <[k := p]> ph).

(** [float Voice::process(float dt)]: the sample and the voice it leaves. *)
Definition Voice_process (dt : Q) (v : Voice) : Q * Voice :=
  if negb (active v) then (0, v) else
  let env_ :=
    if Qltb (envPhase v) (attack v) then envPhase v / attack v * 0.2
    else
      let t := envPhase v - attack v in
      0.2 * expf (-5.3 * t / release v) in
  if negb (Qltb (envPhase v) (attack v)) && Qltb env_ 0.001 then
    (0, {| active := false; freq := freq v; phase := phase v; env := 0;
           envPhase := envPhase v; attack := attack v; release := release v;
           midiNote := midiNote v |})
  else
    let '(out, ph) := foldl (osc_step (freq v) dt) (0, phase v) (seq 0 3) in
    (out / 3 * env_,
     {| active := true; freq := freq v; phase := ph; env := env_;
        envPhase := envPhase v + dt; attack := attack v; release := release v;
        midiNote := midiNote v |}).

End VoiceProcess.

End AmbientRandomSynth.

(** * Properties *)

(** ** Numeric helpers *)

Module NumFacts.

Lemma Qltb_true a b : Qltb a b = true <-> a < b.
Proof.
  unfold Qltb. rewrite negb_true_iff. split.
  - intros H. apply Qnot_le_lt. intros Hle. apply Qle_bool_iff in Hle. congruence.
  - intros H. destruct (Qle_bool b a) eqn:E; [|reflexivity].
    apply Qle_bool_iff in E. lra.
Qed.

Lemma Qltb_false a b : Qltb a b = false <-> b <= a.
Proof.
  unfold Qltb. rewrite negb_false_iff. apply Qle_bool_iff.
Qed.

Lemma Qleb_true a b : Qleb a b = true <-> a <= b.
Proof. apply Qle_bool_iff. Qed.

Lemma Qleb_false a b : Qleb a b = false <-> b < a.
Proof.
  unfold Qleb. split.
  - intros H. apply Qnot_le_lt. intros Hle. apply Qle_bool_iff in Hle. congruence.
  - intros H. destruct (Qle_bool a b) eqn:E; [|reflexivity].
    apply Qle_bool_iff in E. lra.
Qed.

Lemma Qltb_cases a b : (Qltb a b = true /\ a < b) \/ (Qltb a b = false /\ b <= a).
Proof.
  destruct (Qltb a b) eqn:E; [left | right]; split; try reflexivity.
  - by apply Qltb_true.
  - by apply Qltb_false.
Qed.

Lemma Qleb_cases a b : (Qleb a b = true /\ a <= b) \/ (Qleb a b = false /\ b < a).
Proof.
  destruct (Qleb a b) eqn:E; [left | right]; split; try reflexivity.
  - by apply Qleb_true.
  - by apply Qleb_false.
Qed.

Lemma std_max_lower a b : a <= std_max a b /\ b <= std_max a b.
Proof. unfold std_max. destruct (Qltb_cases a b) as [[-> H]|[-> H]]; lra. Qed.

Lemma clamp_range x a b : a <= b -> a <= clamp x a b /\ clamp x a b <= b.
Proof.
  intros Hab. unfold clamp, std_max, std_min.
  destruct (Qltb_cases b x) as [[-> H1]|[-> H1]];
    [destruct (Qltb_cases b a) as [[-> H2]|[-> H2]]
    |destruct (Qltb_cases x a) as [[-> H2]|[-> H2]]]; lra.
Qed.

Lemma clampZ_low x a b : (a <= clampZ x a b)%Z.
Proof. unfold clampZ, std_maxZ. destruct (Z.ltb_spec (std_minZ x b) a); lia. Qed.

Lemma clampZ_spec x a b :
  clampZ x a b = Z.max (Z.min x b) a.
Proof.
  unfold clampZ, std_maxZ, std_minZ.
  destruct (Z.ltb_spec b x); [destruct (Z.ltb_spec b a) | destruct (Z.ltb_spec x a)]; lia.
Qed.

Lemma range_from_seqZ n k : range_from n k = seqZ k (Z.of_nat n).
Proof.
  revert k. induction n as [|n IH]; intros k; [done|].
  cbn [range_from]. rewrite IH, (seqZ_cons k) by lia.
  do 2 f_equal; lia.
Qed.

Lemma range_seqZ n : range n = seqZ 0 n.
Proof.
  unfold range. rewrite range_from_seqZ.
  destruct (Z.le_gt_cases 0 n).
  - by rewrite Z2Nat.id.
  - rewrite Z2Nat.nonpos by lia. by rewrite !seqZ_nil by lia.
Qed.

(** [(int)q] is within one of [q]. *)
Lemma Qtrunc_bounds q : inject_Z (Qtrunc q) - 1 < q /\ q < inject_Z (Qtrunc q) + 1.
Proof.
  destruct q as [n d]. unfold Qtrunc, Qlt, Qminus, Qplus, Qopp, inject_Z. cbn.
  pose proof (Pos2Z.is_pos d).
  split; Z.to_euclidean_division_equations; nia.
Qed.

(** Rack's integer clamp returns the lower bound when the bounds cross. *)
Example clampZ_crossed_bounds : clampZ 441 4 3 = 4%Z.
Proof. reflexivity. Qed.

Example Qtrunc_toward_zero : Qtrunc 7.2 = 7%Z /\ Qtrunc (-7.2) = (-7)%Z.
Proof. split; reflexivity. Qed.

End NumFacts.

Import NumFacts.

(** ** StereoEffects.cpp: the delay line *)

Module DelayLineFacts.
Import StereoEffects.

Lemma push_ok x d : DelayLine_ok d -> DelayLine_ok (push x d).
Proof.
  intros (Hs & Hb & Hl & Hw). unfold DelayLine_ok, push, wrap64; simpl.
  rewrite length_insert. repeat split; try assumption.
  - apply Z.mod_pos_bound. lia.
  - apply Z.mod_pos_bound. lia.
Qed.

Lemma push_writePos x d :
  DelayLine_ok d -> writePos (push x d) = ((writePos d + 1) mod size d)%Z.
Proof.
  intros (Hs & Hb & Hl & Hw). unfold push, wrap64; simpl.
  rewrite (Z.mod_small (writePos d + 1)); [reflexivity | lia].
Qed.

Lemma push_all_snoc xs y d : push_all (xs ++ [y]) d = push y (push_all xs d).
Proof. unfold push_all. by rewrite foldl_app. Qed.

Lemma push_all_ok xs d : DelayLine_ok d -> DelayLine_ok (push_all xs d).
Proof.
  induction xs as [|y xs IH] using rev_ind; [done|].
  intros H. rewrite push_all_snoc. by apply push_ok, IH.
Qed.

Lemma push_all_size xs d : size (push_all xs d) = size d.
Proof.
  induction xs as [|y xs IH] using rev_ind; [done|].
  by rewrite push_all_snoc.
Qed.

(** After [push x] and [n] further pushes the cursor is [n + 1] cells past
    the cell that holds [x], and that cell is intact while [n + 1 < size]. *)
Lemma push_then_pushes x xs d :
  DelayLine_ok d ->
  let d' := push_all xs (push x d) in
  writePos d' = ((writePos d + 1 + Z.of_nat (length xs)) mod size d)%Z /\
  ((Z.of_nat (length xs) + 1 < size d)%Z ->
   buffer d' !! Z.to_nat (writePos d) = Some x).
Proof.
  intros Hok. induction xs as [|y xs IH] using rev_ind.
  - cbv zeta. unfold push_all, foldl. split.
    + rewrite push_writePos by done. f_equal. simpl. lia.
    + intros _. destruct Hok as (Hs & Hb & Hl & Hw).
      unfold push. simpl. apply list_lookup_insert_eq. lia.
  - cbv zeta in *. destruct IH as [IHw IHb].
    rewrite push_all_snoc.
    assert (Hok' : DelayLine_ok (push_all xs (push x d)))
      by (apply push_all_ok, push_ok, Hok).
    pose proof (push_all_size xs (push x d)) as Hsz. simpl in Hsz.
    destruct Hok as (Hs & Hb & Hl & Hw).
    rewrite length_app, Nat.add_1_r, Nat2Z.inj_succ. split.
    + rewrite push_writePos by done. rewrite IHw, Hsz.
      rewrite Zplus_mod_idemp_l. f_equal. lia.
    + intros Hlt. unfold push at 1. simpl.
      rewrite list_lookup_insert_ne; [apply IHb; lia|].
      rewrite IHw. intros Heq.
      apply Z2Nat.inj in Heq; [| apply Z.mod_pos_bound; lia | lia].
      set (n := Z.of_nat (length xs)) in *.
      assert (Hn : (0 <= n)%Z) by (subst n; lia).
      destruct (Z_lt_ge_dec (writePos d + 1 + n) (size d)) as [Hc|Hc].
      * rewrite Z.mod_small in Heq by lia. lia.
      * replace (writePos d + 1 + n)%Z with ((writePos d + 1 + n - size d) + 1 * size d)%Z in Heq by lia.
        rewrite Z.mod_add in Heq by lia.
        rewrite Z.mod_small in Heq by lia. lia.
Qed.

(** [read] at an in-range offset looks [delay] cells behind the cursor. *)
Lemma read_in_range d delay :
  DelayLine_ok d -> (0 <= delay < size d)%Z ->
  read d delay = default 0 (buffer d !! Z.to_nat ((writePos d - delay) mod size d)).
Proof.
  intros (Hs & Hb & Hl & Hw) Hd. unfold read.
  destruct (Z.leb_spec (size d) delay) as [Hc|Hc]; [lia|].
  do 2 f_equal. f_equal. unfold wrap64.
  rewrite Zplus_mod_idemp_l.
  rewrite (Z.mod_small (writePos d - delay + size d)) by lia.
  replace (writePos d - delay + size d)%Z with (writePos d - delay + 1 * size d)%Z by lia.
  by rewrite Z.mod_add by lia.
Qed.

Example delay_line_reads :
  let d := push_all [1; 2; 3] (DelayLine_new 4) in
  read d 1 = 3 /\ read d 2 = 2 /\ read d 3 = 1 /\ read d 9 = 1.
Proof. repeat split. Qed.

(** C8.  For a delay line of capacity [S = size d] and an offset [k] with
    [1 <= k <= S - 1]: after [push x] followed by [k - 1] further pushes,
    [read k] returns exactly [x]. *)
Theorem C8_delay_line_round_trip (d : DelayLine) (x : Q) (xs : list Q) (k : Z) :
  DelayLine_ok d ->
  (1 <= k <= size d - 1)%Z ->
  Z.of_nat (length xs) = (k - 1)%Z ->
  read (push_all xs (push x d)) k = x.
Proof.
  intros Hok Hk Hlen.
  pose proof (push_then_pushes x xs d Hok) as [Hw Hb]. cbv zeta in *.
  assert (Hok' : DelayLine_ok (push_all xs (push x d)))
    by (apply push_all_ok, push_ok, Hok).
  pose proof (push_all_size xs (push x d)) as Hsz. simpl in Hsz.
  rewrite read_in_range by (rewrite ?Hsz; done || lia).
  rewrite Hw, Hsz, Hlen.
  destruct Hok as (Hs & Hbytes & Hl & Hwp).
  rewrite Zminus_mod_idemp_l.
  replace (writePos d + 1 + (k - 1) - k)%Z with (writePos d) by lia.
  rewrite Z.mod_small by lia.
  rewrite Hb by lia. reflexivity.
Qed.

Lemma C8_round_trip_witness :
  read (push_all [2; 3] (push 1 (DelayLine_new 4))) 3 = 1.
Proof.
  apply (C8_delay_line_round_trip (DelayLine_new 4) 1 [2; 3] 3).
  - unfold DelayLine_ok. simpl. repeat split; lia.
  - simpl. lia.
  - reflexivity.
Defined.

End DelayLineFacts.

(** ** StereoEffects.cpp: the reverb *)

Module ReverbFacts.
Import StereoEffects.

Lemma Qabs_bound x B : Qabs x <= B <-> - B <= x /\ x <= B.
Proof. apply Qabs_Qle_condition. Qed.

(** Turn bounds on magnitudes into pairs of linear inequalities. *)
Ltac qabs :=
  repeat match goal with
         | H : Qabs _ <= _ |- _ => apply (proj1 (Qabs_bound _ _)) in H
         end;
  try apply (proj2 (Qabs_bound _ _)).

Lemma read_bounded B d k : 0 <= B -> line_bounded B d -> Qabs (read d k) <= B.
Proof.
  intros HB Hd. unfold read.
  match goal with |- context [buffer d !! ?i] => destruct (buffer d !! i) as [v|] eqn:E end.
  - cbn [default]. unfold line_bounded in Hd. rewrite Forall_lookup in Hd.
    by apply (Hd _ _ E).
  - cbn [default]. qabs. lra.
Qed.

Lemma push_bounded B d x : Qabs x <= B -> line_bounded B d -> line_bounded B (push x d).
Proof.
  intros Hx Hd. unfold line_bounded, push. simpl. by apply Forall_insert.
Qed.

Lemma tap_gain : 1.0 / ofZ (Z.of_nat NUM_DELAYS) == 1 # 8.
Proof. reflexivity. Qed.

Section Stability.

Variables (fb M B : Q).
Hypothesis fb_nonneg : 0 <= fb.
Hypothesis B_nonneg : 0 <= B.
Hypothesis B_closed : M + fb * B <= B.

Lemma fed_back_bounded x delayed :
  Qabs x <= M -> Qabs delayed <= B -> Qabs (x + delayed * fb) <= B.
Proof.
  intros Hx Hd. qabs. destruct Hx as [Hx1 Hx2], Hd as [Hd1 Hd2].
  assert (delayed * fb <= B * fb) by (apply Qmult_le_compat_r; lra).
  assert (- B * fb <= delayed * fb) by (apply Qmult_le_compat_r; lra).
  lra.
Qed.

Lemma process_tap_bounded times x out ds i :
  Qabs x <= M -> Forall (line_bounded B) ds ->
  Forall (line_bounded B) (process_tap times fb x (out, ds) i).2 /\
  Qabs ((process_tap times fb x (out, ds) i).1 - out) <= B * (1 # 8).
Proof.
  intros Hx Hds. unfold process_tap.
  destruct (ds !! i) as [d|] eqn:Ed; [destruct (times !! i) as [t|] eqn:Et|];
    cbn [fst snd].
  - assert (Hd : line_bounded B d) by (rewrite Forall_lookup in Hds; by apply (Hds _ _ Ed)).
    pose proof (read_bounded B d (wrap64 (Qtrunc t)) B_nonneg Hd) as Hr.
    set (delayed := read d (wrap64 (Qtrunc t))) in *.
    split.
    + apply Forall_insert; [done|]. apply push_bounded; [|done].
      by apply fed_back_bounded.
    + assert (E : out + delayed * (1.0 / ofZ (Z.of_nat NUM_DELAYS)) - out
                  == delayed * (1 # 8)) by (rewrite tap_gain; ring).
      rewrite E. qabs. lra.
  - split; [done|]. qabs. lra.
  - split; [done|]. qabs. lra.
Qed.

Lemma taps_bounded times x n : forall a out ds,
  Qabs x <= M -> Forall (line_bounded B) ds ->
  Forall (line_bounded B) (foldl (process_tap times fb x) (out, ds) (seq a n)).2 /\
  Qabs ((foldl (process_tap times fb x) (out, ds) (seq a n)).1 - out)
    <= B * (1 # 8) * inject_Z (Z.of_nat n).
Proof.
  induction n as [|n IH]; intros a out ds Hx Hds.
  - cbn [seq foldl fst snd]. split; [done|]. qabs.
    change (inject_Z (Z.of_nat 0)) with 0. lra.
  - rewrite <- cons_seq. cbn [foldl].
    destruct (process_tap_bounded times x out ds a Hx Hds) as [H1 H2].
    destruct (process_tap times fb x (out, ds) a) as [out1 ds1] eqn:E.
    cbn [fst snd] in H1, H2.
    destruct (IH (S a) out1 ds1 Hx H1) as [H3 H4].
    split; [done|].
    rewrite Nat2Z.inj_succ, <- Z.add_1_r, inject_Z_plus.
    qabs. change (inject_Z 1) with 1. lra.
Qed.

Lemma process_bounded x r :
  feedback r = fb -> Qabs x <= M -> lines_bounded B r ->
  lines_bounded B (SimpleReverb_process x r).2 /\
  feedback (SimpleReverb_process x r).2 = fb /\
  Qabs (SimpleReverb_process x r).1 <= B.
Proof.
  intros Hf Hx Hr. unfold SimpleReverb_process. rewrite Hf.
  destruct (taps_bounded (delayTimes r) x NUM_DELAYS 0%nat 0 (delays r) Hx Hr) as [H1 H2].
  destruct (foldl _ _ _) as [out ds]. cbn [fst snd] in *.
  repeat split; try done.
  qabs. change (inject_Z (Z.of_nat NUM_DELAYS)) with 8 in H2. lra.
Qed.

Lemma run_bounded xs : forall r,
  feedback r = fb -> Forall (fun x => Qabs x <= M) xs -> lines_bounded B r ->
  Forall (fun y => Qabs y <= B) (SimpleReverb_run xs r).1.
Proof.
  induction xs as [|x xs IH]; intros r Hf Hxs Hr; cbn [SimpleReverb_run].
  - constructor.
  - apply Forall_cons in Hxs as [Hx Hxs].
    destruct (process_bounded x r Hf Hx Hr) as (H1 & H2 & H3).
    destruct (SimpleReverb_process x r) as [y r1]. cbn [fst snd] in *.
    specialize (IH r1 H2 Hxs H1).
    destruct (SimpleReverb_run xs r1) as [ys r2]. cbn [fst snd] in *.
    by constructor.
Qed.

End Stability.

(** The bound [M / (1 - fb)] is closed under one feedback round. *)
Lemma stable_bound fb M : 0 <= fb -> fb < 1 -> 0 <= M ->
  0 <= M / (1 - fb) /\ M + fb * (M / (1 - fb)) <= M / (1 - fb).
Proof.
  intros H0 H1 HM.
  assert (Hpos : 0 < 1 - fb) by lra.
  assert (HB : 0 <= M / (1 - fb)).
  { apply Qle_shift_div_l; [done | lra]. }
  split; [done|].
  assert (E : M + fb * (M / (1 - fb)) == M / (1 - fb)) by (field; lra).
  rewrite E. lra.
Qed.

(** A freshly constructed reverb holds only zeros. *)
Lemma new_bounded sr B : 0 <= B -> lines_bounded B (SimpleReverb_new sr).
Proof.
  intros HB. unfold lines_bounded, SimpleReverb_new. simpl.
  repeat (constructor; [unfold line_bounded, DelayLine_new; simpl;
    apply Forall_replicate; qabs; lra|]).
  constructor.
Qed.

End ReverbFacts.

Module StereoEffectsFacts.
Import StereoEffects ReverbFacts.

(** The reverb stage leaves each reverb with the feedback it was given. *)
Lemma reverb_channel_feedback size_ damping out r :
  feedback (reverb_channel size_ damping out r).2 = damping * 0.7.
Proof.
  unfold reverb_channel, SimpleReverb_process. cbn [setFeedback feedback delays delayTimes].
  destruct (foldl _ _ _) as [y ds]. reflexivity.
Qed.

(** With the reverb switched on, [process] leaves both reverbs configured
    with [damping * 0.7]. *)
Lemma process_sets_feedback i m :
  Qltb 0.5 (REVERB_ENABLE_PARAM i) = true ->
  exists rL rR, reverbLR (process i m).2 = Some (rL, rR) /\
    feedback rL = REVERB_DAMPING_PARAM i * 0.7 /\
    feedback rR = REVERB_DAMPING_PARAM i * 0.7.
Proof.
  intros Hon. unfold process. rewrite Hon.
  destruct (match reverbLR m with Some p => p | None => _ end) as [rL rR].
  destruct (Qltb 0.5 (DELAY_ENABLE_PARAM i)).
  - pose proof (reverb_channel_feedback (REVERB_SIZE_PARAM i) (REVERB_DAMPING_PARAM i)) as Hf.
    match goal with |- context [reverb_channel ?s ?d ?o rL] =>
      pose proof (Hf o rL) as HL; destruct (reverb_channel s d o rL) as [oL rL1] end.
    match goal with |- context [reverb_channel ?s ?d ?o rR] =>
      pose proof (Hf o rR) as HR; destruct (reverb_channel s d o rR) as [oR rR1] end.
    destruct (Qltb 0.5 (ECHO_ENABLE_PARAM i)); cbn; eauto.
  - pose proof (reverb_channel_feedback (REVERB_SIZE_PARAM i) (REVERB_DAMPING_PARAM i)) as Hf.
    match goal with |- context [reverb_channel ?s ?d ?o rL] =>
      pose proof (Hf o rL) as HL; destruct (reverb_channel s d o rL) as [oL rL1] end.
    match goal with |- context [reverb_channel ?s ?d ?o rR] =>
      pose proof (Hf o rR) as HR; destruct (reverb_channel s d o rR) as [oR rR1] end.
    destruct (Qltb 0.5 (ECHO_ENABLE_PARAM i)); cbn; eauto.
Qed.

(** C3, as the code has it.  [setFeedback] stores its argument unchanged.
    [StereoEffects::process], its only caller, passes [damping * 0.7]: with
    the damping parameter in its range [[0, 1]] the coefficient left in
    both reverbs lies in [[0, 0.7]], below 1.  And for a coefficient [f]
    with [0 <= f < 1] and inputs of magnitude at most [M], every output of
    an arbitrarily long run has magnitude at most [M / (1 - f)], provided
    the lines start within that bound (as the freshly built, zeroed lines
    do). *)
Theorem C3_feedback_from_damping_and_stability
    (fb : Q) (r : SimpleReverb) (i : Inputs) (m : Module_) (M : Q) (xs : list Q) :
  feedback (setFeedback fb r) = fb /\
  (Qltb 0.5 (REVERB_ENABLE_PARAM i) = true ->
   0 <= REVERB_DAMPING_PARAM i -> REVERB_DAMPING_PARAM i <= 1 ->
   exists rL rR, reverbLR (process i m).2 = Some (rL, rR) /\
     feedback rL = REVERB_DAMPING_PARAM i * 0.7 /\
     feedback rR = REVERB_DAMPING_PARAM i * 0.7 /\
     0 <= feedback rL /\ feedback rL <= 0.7 /\ feedback rL < 1) /\
  (0 <= feedback r -> feedback r < 1 ->
   Forall (fun x => Qabs x <= M) xs ->
   lines_bounded (M / (1 - feedback r)) r ->
   Forall (fun y => Qabs y <= M / (1 - feedback r)) (SimpleReverb_run xs r).1).
Proof.
  split; [reflexivity|]. split.
  - intros Hon H0 H1.
    destruct (process_sets_feedback i m Hon) as (rL & rR & E & HL & HR).
    exists rL, rR. rewrite HL, HR. repeat split; try done; lra.
  - intros H0 H1 Hxs Hr.
    destruct xs as [|x xs']; [constructor|].
    assert (HM : 0 <= M).
    { apply Forall_cons in Hxs as [Hx _]. pose proof (Qabs_nonneg x). lra. }
    destruct (stable_bound (feedback r) M H0 H1 HM) as [HB Hc].
    by apply (run_bounded (feedback r) M (M / (1 - feedback r)) H0 HB Hc).
Qed.

Lemma C3_stability_witness :
  Forall (fun y => Qabs y <= 1 / (1 - 0.5))
    (SimpleReverb_run [1; -1; 0.5] (SimpleReverb_new 1000)).1 /\
  exists rL rR, reverbLR (process example_inputs Module_new).2 = Some (rL, rR) /\
    feedback rL = 0.5 * 0.7 /\ feedback rR = 0.5 * 0.7 /\
    0 <= feedback rL /\ feedback rL <= 0.7 /\ feedback rL < 1.
Proof.
  destruct (C3_feedback_from_damping_and_stability
              0.5 (SimpleReverb_new 1000) example_inputs Module_new 1 [1; -1; 0.5])
    as (_ & HA & HB).
  split.
  - apply HB.
    + vm_compute. discriminate.
    + reflexivity.
    + repeat constructor; vm_compute; discriminate.
    + apply new_bounded. vm_compute. discriminate.
  - apply HA.
    + reflexivity.
    + vm_compute. discriminate.
    + vm_compute. discriminate.
Defined.

(** C3 as stated fails: [setFeedback] neither rejects nor clamps.  Given 2,
    the reverb stores 2 and [process] runs with it. *)
Lemma C3_setFeedback_does_not_clamp :
  let r := setFeedback 2 (SimpleReverb_new 48000) in
  feedback r = 2 /\ ~ feedback r < 1 /\
  feedback (SimpleReverb_process 1 r).2 = 2.
Proof.
  cbv zeta. split; [reflexivity|]. split.
  - cbn [setFeedback feedback]. intros H. vm_compute in H. discriminate.
  - unfold SimpleReverb_process. cbn [setFeedback feedback delays delayTimes].
    destruct (foldl _ _ _) as [y ds]. reflexivity.
Qed.

End StereoEffectsFacts.

(** ** The ADSR envelopes *)

Module ADSRFacts.
Import ADSR Envelope.

Lemma div_nonneg a b : 0 <= a -> 0 < b -> 0 <= a / b.
Proof. intros Ha Hb. apply Qle_shift_div_l; [done | lra]. Qed.

Lemma init_inv v : Inv (init v).
Proof. destruct v; constructor; cbn; try split; try done; vm_compute; congruence. Qed.

Lemma std_max_pos a : 0 < std_max 0.001 a.
Proof. pose proof (std_max_lower 0.001 a) as [H _]. lra. Qed.

Lemma setters_inv e :
  Inv e ->
  (forall a, Inv (setAttack a e)) /\ (forall d, Inv (setDecay d e)) /\
  (forall s, Inv (setSustain s e)) /\ (forall r, Inv (setRelease r e)).
Proof.
  intros [Ho Hs Ha Hd Hr Hi].
  split; [|split; [|split]]; intros x; constructor;
    cbn [setAttack setDecay setSustain setRelease output sustain attack decay release state];
    try done; try apply std_max_pos.
  apply clamp_range; lra.
Qed.

Lemma gate_inv v on dt e : Inv e -> Inv (gate v on dt e).
Proof.
  intros [Ho Hs Ha Hd Hr Hi].
  destruct v, on; unfold gate, ChordPadSynth.gate, ChordPluckSynth.gate;
    destruct (state e) eqn:E; cbn; constructor; cbn; rewrite ?E; try done; try lra;
    intros; auto.
Qed.

Lemma process_inv dt e : 0 <= dt -> Inv e -> Inv (process dt e).
Proof.
  intros Hdt [[Ho1 Ho2] [Hs1 Hs2] Ha Hd Hr Hi]. unfold process.
  pose proof (div_nonneg dt (attack e) Hdt Ha).
  pose proof (div_nonneg dt (decay e) Hdt Hd).
  pose proof (div_nonneg dt (release e) Hdt Hr).
  destruct (state e) eqn:E.
  - constructor; cbn; rewrite ?E; try done; lra.
  - destruct (Qleb_cases 1 (output e + dt / attack e)) as [[-> Hc]|[-> Hc]];
      constructor; cbn; rewrite ?E; try done; lra.
  - destruct (Qleb_cases (output e - dt / decay e) (sustain e)) as [[-> Hc]|[-> Hc]];
      constructor; cbn; rewrite ?E; try done; lra.
  - constructor; cbn; rewrite ?E; try done; lra.
  - destruct (Qleb_cases (output e - dt / release e) 0) as [[-> Hc]|[-> Hc]];
      constructor; cbn; rewrite ?E; try done; lra.
Qed.

Lemma call_inv v e c : time_ok c -> Inv e -> Inv (call v e c).
Proof.
  intros Hc He. destruct c; cbn.
  - by apply setters_inv.
  - by apply setters_inv.
  - by apply setters_inv.
  - by apply setters_inv.
  - by apply gate_inv.
  - by apply process_inv.
Qed.

Lemma run_inv v cs : forall e, Forall time_ok cs -> Inv e -> Inv (run v e cs).
Proof.
  induction cs as [|c cs IH]; intros e Hcs He; [done|].
  apply Forall_cons in Hcs as [Hc Hcs]. cbn. apply IH; [done|]. by apply call_inv.
Qed.

(** Right after [process], a [SUSTAIN] envelope sits on the sustain level. *)
Lemma process_sustain dt e :
  state (process dt e) = SUSTAIN -> output (process dt e) = sustain (process dt e).
Proof.
  unfold process. destruct (state e) eqn:E; cbn; rewrite ?E; try done.
  - destruct (Qleb 1 _); cbn; rewrite ?E; done.
  - destruct (Qleb _ (sustain e)); cbn; rewrite ?E; done.
  - destruct (Qleb _ 0); cbn; rewrite ?E; done.
Qed.

(** C2.  For both envelopes (pad and pluck), after any sequence of setter
    calls, gate events and [process] steps with non-negative sample times,
    the value left by a [process] call lies in [[0, 1]], is exactly 0 when
    the state is [IDLE], and is exactly the sustain level when the state is
    [SUSTAIN]. *)
Theorem C2_adsr_output_in_unit_range (v : Variant) (cs : list Call) (dt : Q) :
  Forall time_ok cs -> 0 <= dt ->
  let e := run v (init v) (cs ++ [Process dt]) in
  (0 <= output e /\ output e <= 1) /\
  (state e = IDLE -> output e = 0) /\
  (state e = SUSTAIN -> output e = sustain e).
Proof.
  intros Hcs Hdt e.
  assert (He : Inv e).
  { apply run_inv, init_inv. apply Forall_app. split; [done|].
    constructor; [exact Hdt | constructor]. }
  split; [apply He|]. split; [apply He|].
  subst e. unfold run. rewrite foldl_app. cbn [foldl call]. apply process_sustain.
Qed.

Lemma C2_adsr_witness :
  let e := run Pad (init Pad) ([Gate true 0.001; Process 0.02; Process 0.2] ++ [Process 0.001]) in
  (0 <= output e /\ output e <= 1) /\
  (state e = IDLE -> output e = 0) /\
  (state e = SUSTAIN -> output e = sustain e).
Proof.
  apply (C2_adsr_output_in_unit_range Pad [Gate true 0.001; Process 0.02; Process 0.2] 0.001).
  - repeat constructor; vm_compute; discriminate.
  - vm_compute. discriminate.
Defined.

End ADSRFacts.

(** ** WT_SURGE_X.cpp: mip generation *)

Module WavetableFacts.
Import WT_SURGE_X.

Lemma wrap_index_mod k : wrap_index k = (k mod TABLE_SIZE)%Z.
Proof.
  unfold wrap_index, cmod, TABLE_SIZE. Z.to_euclidean_division_equations. lia.
Qed.

Lemma at_map (g : Z -> Q) n s :
  (0 <= s < n)%Z -> at_ (map g (seqZ 0 n)) s = g s.
Proof.
  intros Hs. unfold at_. destruct (Z.ltb_spec s 0) as [Hc|Hc]; [lia|].
  rewrite list_lookup_fmap, lookup_seqZ_lt by lia. cbn.
  f_equal. lia.
Qed.

(** The tap loop visits exactly the two ends of its window. *)
Lemma mip_taps_two fuel level0 s h sum n :
  (0 < h)%Z ->
  mip_taps (S (S (S fuel))) level0 (s - h) (s + h) (2 * h) sum n =
  (sum + at_ level0 (wrap_index (s - h)) + at_ level0 (wrap_index (s + h)), (n + 1 + 1)%Z).
Proof.
  intros Hh. cbn [mip_taps].
  destruct (Z.leb_spec (s - h) (s + h)) as [_|Hc]; [|lia].
  replace (s - h + 2 * h)%Z with (s + h)%Z by lia.
  destruct (Z.leb_spec (s + h) (s + h)) as [_|Hc]; [|lia].
  destruct (Z.leb_spec (s + h + 2 * h) (s + h)) as [Hc|_]; [lia|].
  reflexivity.
Qed.

(** Every mip sample is the mean of two cells of level 0, [2^(mip-1)] to
    the left and to the right of [s]; the previous level is never used. *)
Lemma mip_sample_two_taps level0 prev mip s :
  (1 <= mip)%Z ->
  mip_sample level0 prev mip s =
  (0 + at_ level0 ((s - 2 ^ (mip - 1)) mod TABLE_SIZE)
     + at_ level0 ((s + 2 ^ (mip - 1)) mod TABLE_SIZE)) / ofZ 2.
Proof.
  intros Hm. unfold mip_sample.
  rewrite Z.shiftl_1_l.
  set (h := (2 ^ (mip - 1))%Z).
  assert (Hh : (0 < h)%Z) by (apply Z.pow_pos_nonneg; lia).
  assert (Hp : (2 ^ mip = 2 * h)%Z).
  { subst h. rewrite <- Z.pow_succ_r by lia. f_equal. lia. }
  rewrite Hp.
  assert (Hq : (2 * h ÷ 2 = h)%Z) by (Z.to_euclidean_division_equations; lia).
  rewrite Hq.
  assert (Hf : exists fuel, Z.to_nat (2 * h + 1) = S (S (S fuel))).
  { exists (Z.to_nat (2 * h + 1) - 3)%nat. lia. }
  destruct Hf as [fuel ->].
  rewrite mip_taps_two by done.
  rewrite !wrap_index_mod. reflexivity.
Qed.

Lemma level_of_insert fr n m lv :
  (0 <= m)%Z ->
  level_of (<[n := lv]> fr) m =
  if decide (n = Z.to_nat m /\ (n < length fr)%nat) then lv else level_of fr m.
Proof.
  intros Hm. unfold level_of. case_decide as Hd.
  - destruct Hd as [-> Hl]. by rewrite list_lookup_insert_eq.
  - destruct (decide (n = Z.to_nat m)) as [->|Hne].
    + rewrite list_insert_ge by lia. reflexivity.
    + by rewrite list_lookup_insert_ne.
Qed.

(** The mip loop over a list [ms] of levels (all at least 1) keeps level 0
    and the number of levels, and leaves in every level it visits the
    two-tap means of level 0. *)
Lemma fill_mip_list fr ms :
  Forall (fun m => (1 <= m)%Z /\ (Z.to_nat m < length fr)%nat) ms ->
  let fr' := foldl fill_mip fr ms in
  length fr' = length fr /\
  level_of fr' 0 = level_of fr 0 /\
  forall m, m ∈ ms -> exists prev,
    level_of fr' m = map (mip_sample (level_of fr 0) prev m) (seqZ 0 TABLE_SIZE).
Proof.
  induction ms as [|m' ms IH] using rev_ind; intros Hms; cbv zeta.
  - cbn. repeat split. intros m Hm. by apply elem_of_nil in Hm.
  - apply Forall_app in Hms as [Hms Hm'].
    apply Forall_singleton in Hm' as [Hm'1 Hm'2].
    destruct (IH Hms) as (Hlen & H0 & Hlv).
    rewrite foldl_app. cbn [foldl].
    set (fr1 := foldl fill_mip fr ms) in *. unfold fill_mip.
    split; [by rewrite length_insert|]. split.
    + rewrite level_of_insert by lia. case_decide as Hd; [|done].
      destruct Hd as [Hd _]. change (Z.to_nat 0) with 0%nat in Hd. lia.
    + intros m Hm. rewrite level_of_insert.
      2:{ apply elem_of_app in Hm as [Hm|Hm].
          - rewrite Forall_forall in Hms. apply Hms in Hm. lia.
          - apply list_elem_of_singleton in Hm. lia. }
      case_decide as Hd.
      * destruct Hd as [Hd _]. assert (m = m') as -> by lia.
        rewrite H0. eauto.
      * apply elem_of_app in Hm as [Hm|Hm]; [by apply Hlv|].
        apply list_elem_of_singleton in Hm. subst m. exfalso. apply Hd. split; lia.
Qed.

(** After the mip loop, a frame of [MIP_LEVELS] levels holds at level
    [mip >= 1], cell [s], the mean of the cells [s - 2^(mip-1)] and
    [s + 2^(mip-1)] (wrapped) of its level 0, which is unchanged. *)
Lemma fill_mips_sample fr mip s :
  length fr = Z.to_nat MIP_LEVELS ->
  (1 <= mip < MIP_LEVELS)%Z -> (0 <= s < TABLE_SIZE)%Z ->
  level_of (fill_mips fr) 0 = level_of fr 0 /\
  at_ (level_of (fill_mips fr) mip) s =
  (0 + at_ (level_of fr 0) ((s - 2 ^ (mip - 1)) mod TABLE_SIZE)
     + at_ (level_of fr 0) ((s + 2 ^ (mip - 1)) mod TABLE_SIZE)) / ofZ 2.
Proof.
  intros Hlen Hmip Hs. unfold fill_mips.
  assert (Hall : Forall (fun m => (1 <= m)%Z /\ (Z.to_nat m < length fr)%nat)
                   (seqZ 1 (MIP_LEVELS - 1))).
  { apply Forall_seqZ. intros m Hm. rewrite Hlen. unfold MIP_LEVELS in *. lia. }
  destruct (fill_mip_list fr _ Hall) as (_ & H0 & Hlv).
  split; [done|].
  destruct (Hlv mip) as [prev ->].
  { apply elem_of_seqZ. unfold MIP_LEVELS in *. lia. }
  rewrite at_map by done. apply mip_sample_two_taps. lia.
Qed.

Lemma shaped_zero : shaped Tables_zero.
Proof.
  unfold shaped, Tables_zero. split; [by rewrite length_replicate|].
  intros b Hb. apply elem_of_replicate in Hb as [-> _].
  split; [by rewrite length_replicate|].
  intros fr Hfr. apply elem_of_replicate in Hfr as [-> _].
  by rewrite length_replicate.
Qed.

Lemma shaped_frame ts bank f :
  shaped ts -> (0 <= bank < NUM_BANKS)%Z -> (0 <= f < NUM_FRAMES)%Z ->
  length (frame_of ts bank f) = Z.to_nat MIP_LEVELS.
Proof.
  intros [Hb Hall] Hbank Hf. unfold frame_of.
  destruct (ts !! Z.to_nat bank) as [b|] eqn:Eb.
  2:{ apply lookup_ge_None in Eb. unfold NUM_BANKS in *. lia. }
  destruct (Hall b) as [Hlen Hfr]; [by eapply list_elem_of_lookup_2|].
  simpl.
  destruct (b !! Z.to_nat f) as [fr|] eqn:Ef.
  2:{ apply lookup_ge_None in Ef. unfold NUM_FRAMES in *. lia. }
  simpl. apply Hfr. by eapply list_elem_of_lookup_2.
Qed.

Lemma loadWav_frame bank raw w f :
  (Z.to_nat bank < length (tables w))%nat -> (0 <= bank)%Z -> (0 <= f < NUM_FRAMES)%Z ->
  frame_of (tables (loadWav bank (Some raw) w)) bank f =
  load_frame (resample raw TABLE_SIZE NUM_FRAMES) (frame_of (tables w) bank f) f.
Proof.
  intros Hb Hb0 Hf. unfold loadWav. cbn [tables]. unfold frame_of at 1.
  rewrite list_lookup_insert_eq by done. cbn [from_option id].
  rewrite list_lookup_fmap, lookup_seqZ_lt by lia. cbn [fmap option_fmap option_map from_option id].
  replace (0 + Z.of_nat (Z.to_nat f))%Z with f by lia. reflexivity.
Qed.

Lemma generateDefault_frame sinf cosf M_PI w bank f :
  (0 <= bank < NUM_BANKS)%Z -> (0 <= f < NUM_FRAMES)%Z ->
  frame_of (tables (generateDefault sinf cosf M_PI w)) bank f =
  default_frame sinf cosf M_PI (frame_of (tables w) bank f) bank f.
Proof.
  intros Hb Hf. unfold generateDefault. cbn [tables]. unfold frame_of at 1.
  rewrite list_lookup_fmap, lookup_seqZ_lt by lia. cbn [fmap option_fmap option_map from_option id].
  rewrite list_lookup_fmap, lookup_seqZ_lt by lia. cbn [fmap option_fmap option_map from_option id].
  replace (0 + Z.of_nat (Z.to_nat bank))%Z with bank by lia.
  replace (0 + Z.of_nat (Z.to_nat f))%Z with f by lia.
  reflexivity.
Qed.

(** A frame built as "level 0 in place, then the mip loop". *)
Lemma built_frame_sample old lv0 mip s :
  length old = Z.to_nat MIP_LEVELS ->
  (1 <= mip < MIP_LEVELS)%Z -> (0 <= s < TABLE_SIZE)%Z ->
  let fr := fill_mips (<[0%nat := lv0]> old) in
  level_of fr 0 = lv0 /\
  at_ (level_of fr mip) s =
  (0 + at_ (level_of fr 0) ((s - 2 ^ (mip - 1)) mod TABLE_SIZE)
     + at_ (level_of fr 0) ((s + 2 ^ (mip - 1)) mod TABLE_SIZE)) / ofZ 2.
Proof.
  intros Hlen Hmip Hs fr.
  destruct (fill_mips_sample (<[0%nat := lv0]> old) mip s) as [H0 H1];
    [by rewrite length_insert | done | done |].
  assert (E : level_of (<[0%nat := lv0]> old) 0 = lv0).
  { rewrite level_of_insert by lia. case_decide as Hd; [done|].
    exfalso. apply Hd. split; [done|]. rewrite Hlen. unfold MIP_LEVELS. lia. }
  subst fr. rewrite H1, H0, E. done.
Qed.

(** What the code stores: in every bank and frame rebuilt by
    [generateDefault] or by a successful [loadWav], cell [s] of mip level
    [mip] (1 to 9) is the mean of exactly two cells of level 0, the ones
    [2^(mip-1)] to the left and to the right of [s], circularly wrapped. *)
Lemma mips_are_two_tap_means sinf cosf M_PI w bank f mip s :
  shaped (tables w) ->
  (0 <= bank < NUM_BANKS)%Z -> (0 <= f < NUM_FRAMES)%Z ->
  (1 <= mip < MIP_LEVELS)%Z -> (0 <= s < TABLE_SIZE)%Z ->
  forall raw ts,
    ts = tables (generateDefault sinf cosf M_PI w) \/ ts = tables (loadWav bank (Some raw) w) ->
    sample ts bank f mip s =
    (0 + sample ts bank f 0 ((s - 2 ^ (mip - 1)) mod TABLE_SIZE)
       + sample ts bank f 0 ((s + 2 ^ (mip - 1)) mod TABLE_SIZE)) / ofZ 2.
Proof.
  intros Hsh Hb Hf Hmip Hs raw ts Hts.
  pose proof (shaped_frame _ _ _ Hsh Hb Hf) as Hlen.
  unfold sample. destruct Hts as [-> | ->].
  - rewrite generateDefault_frame by done. unfold default_frame.
    by apply built_frame_sample.
  - rewrite loadWav_frame; [| destruct Hsh as [-> _]; unfold NUM_BANKS in *; lia | lia | done].
    unfold load_frame. by apply built_frame_sample.
Qed.

(** Level 0 of a loaded frame is its slice of the resampled buffer. *)
Lemma loadWav_level0 w bank f raw s :
  shaped (tables w) ->
  (0 <= bank < NUM_BANKS)%Z -> (0 <= f < NUM_FRAMES)%Z -> (0 <= s < TABLE_SIZE)%Z ->
  sample (tables (loadWav bank (Some raw) w)) bank f 0 s =
  at_ (resample raw TABLE_SIZE NUM_FRAMES) (f * TABLE_SIZE + s).
Proof.
  intros Hsh Hb Hf Hs.
  pose proof (shaped_frame _ _ _ Hsh Hb Hf) as Hlen.
  unfold sample.
  rewrite loadWav_frame; [| destruct Hsh as [-> _]; unfold NUM_BANKS in *; lia | lia | done].
  unfold load_frame.
  destruct (built_frame_sample (frame_of (tables w) bank f)
              (map (fun s => at_ (resample raw TABLE_SIZE NUM_FRAMES) (f * TABLE_SIZE + s))
                   (seqZ 0 TABLE_SIZE)) 1 s Hlen) as [-> _]; [done | done |].
  by rewrite at_map.
Qed.

(** Frame 0 of the table loaded from [triangle_raw], around its trough at
    cell 1024. *)
Lemma triangle_level0_values :
  let buf := resample triangle_raw TABLE_SIZE NUM_FRAMES in
  Qred (at_ buf 1021) = -509 # 512 /\
  Qred (at_ buf 1022) = -255 # 256 /\
  Qred (at_ buf 1023) = -511 # 512 /\
  Qred (at_ buf 1024) = -1 /\
  Qred (at_ buf 1025) = -511 # 512 /\
  Qred (at_ buf 1026) = -255 # 256 /\
  Qred (at_ buf 1027) = -509 # 512.
Proof. vm_compute. repeat split. Qed.

Lemma sample_fold ts b f m s : at_ (level_of (frame_of ts b f) m) s = sample ts b f m s.
Proof. reflexivity. Qed.

Lemma triangle_level0 s v :
  (0 <= s < TABLE_SIZE)%Z ->
  Qred (at_ (resample triangle_raw TABLE_SIZE NUM_FRAMES) s) = v ->
  sample (tables (loadWav 0 (Some triangle_raw) blank_bank)) 0 0 0 s == v.
Proof.
  intros Hs E.
  rewrite loadWav_level0; [| apply shaped_zero | done | done | done].
  rewrite Z.mul_0_l, Z.add_0_l. rewrite <- E. symmetry. apply Qred_correct.
Qed.

Lemma two_tap_form x y : (0 + x + y) / ofZ 2 == (x + y) / 2.
Proof. change (ofZ 2) with 2. field. Qed.

Lemma box_average_4 level0 a :
  (0 <= a)%Z -> (a + 3 < TABLE_SIZE)%Z ->
  box_average level0 2 a ==
  (at_ level0 a + at_ level0 (a + 1) + at_ level0 (a + 2) + at_ level0 (a + 3)) / 4.
Proof.
  intros H0 H3. unfold box_average.
  replace (seqZ 0 (2 ^ 2)) with [0; 1; 2; 3]%Z by reflexivity.
  cbn [foldl]. rewrite !Z.mod_small by lia. rewrite Z.add_0_r.
  change (ofZ (2 ^ 2)) with 4. field.
Qed.

(** On a level 0 shaped like the trough of the triangle, the mean of the
    two cells at distance 2 differs from every 4-cell window average. *)
Lemma trough_two_tap_vs_box level0 :
  at_ level0 1021 == -509 # 512 -> at_ level0 1022 == -255 # 256 ->
  at_ level0 1023 == -511 # 512 -> at_ level0 1024 == -1 ->
  at_ level0 1025 == -511 # 512 -> at_ level0 1026 == -255 # 256 ->
  at_ level0 1027 == -509 # 512 ->
  (at_ level0 1022 + at_ level0 1026) / 2 == - (255 # 256) /\
  box_average level0 2 1021 == - (1021 # 1024) /\
  box_average level0 2 1022 == - (511 # 512) /\
  box_average level0 2 1023 == - (511 # 512) /\
  box_average level0 2 1024 == - (1021 # 1024).
Proof.
  intros V1 V2 V3 V4 V5 V6 V7.
  split; [rewrite V2, V6; reflexivity|].
  rewrite !box_average_4 by (unfold TABLE_SIZE; lia).
  change (1021 + 1)%Z with 1022%Z. change (1021 + 2)%Z with 1023%Z.
  change (1021 + 3)%Z with 1024%Z. change (1022 + 1)%Z with 1023%Z.
  change (1022 + 2)%Z with 1024%Z. change (1022 + 3)%Z with 1025%Z.
  change (1023 + 1)%Z with 1024%Z. change (1023 + 2)%Z with 1025%Z.
  change (1023 + 3)%Z with 1026%Z. change (1024 + 1)%Z with 1025%Z.
  change (1024 + 2)%Z with 1026%Z. change (1024 + 3)%Z with 1027%Z.
  rewrite V1, V2, V3, V4, V5, V6, V7. repeat split; reflexivity.
Qed.

(** C1, evaluated.  Load the 128-sample alternating file into bank 0.
    Frame 0 becomes a triangle wave with its trough [-1] at cell 1024.  The
    code stores at mip level 2, cell 1024, the mean of cells 1022 and 1026
    only, [-255/256]; each of the four windows of [2^2] consecutive cells of
    level 0 that contain cell 1024 has a different average. *)
Theorem C1_mip_level_is_two_tap_mean_not_box_average :
  let ts := tables (loadWav 0 (Some triangle_raw) blank_bank) in
  let level0 := level_of (frame_of ts 0 0) 0 in
  sample ts 0 0 2 1024 == (at_ level0 1022 + at_ level0 1026) / 2 /\
  sample ts 0 0 2 1024 == - (255 # 256) /\
  box_average level0 2 1021 == - (1021 # 1024) /\
  box_average level0 2 1022 == - (511 # 512) /\
  box_average level0 2 1023 == - (511 # 512) /\
  box_average level0 2 1024 == - (1021 # 1024) /\
  forall a, (1021 <= a <= 1024)%Z -> ~ sample ts 0 0 2 1024 == box_average level0 2 a.
Proof.
  cbv zeta.
  pose proof triangle_level0_values as Hv. cbv zeta in Hv.
  destruct Hv as (H1 & H2 & H3 & H4 & H5 & H6 & H7).
  assert (L : forall s v, (0 <= s < TABLE_SIZE)%Z ->
             Qred (at_ (resample triangle_raw TABLE_SIZE NUM_FRAMES) s) = v ->
             at_ (level_of (frame_of (tables (loadWav 0 (Some triangle_raw) blank_bank)) 0 0) 0) s
             == v).
  { intros s v Hs E. rewrite sample_fold. by apply triangle_level0. }
  assert (Hcode :
    sample (tables (loadWav 0 (Some triangle_raw) blank_bank)) 0 0 2 1024 ==
    (at_ (level_of (frame_of (tables (loadWav 0 (Some triangle_raw) blank_bank)) 0 0) 0) 1022
     + at_ (level_of (frame_of (tables (loadWav 0 (Some triangle_raw) blank_bank)) 0 0) 0) 1026)
    / 2).
  { rewrite (mips_are_two_tap_means (fun _ => 0) (fun _ => 0) 0 blank_bank 0 0 2 1024
               shaped_zero ltac:(unfold NUM_BANKS; lia) ltac:(unfold NUM_FRAMES; lia)
               ltac:(unfold MIP_LEVELS; lia) ltac:(unfold TABLE_SIZE; lia)
               triangle_raw _ (or_intror eq_refl)).
    replace ((1024 - 2 ^ (2 - 1)) mod TABLE_SIZE)%Z with 1022%Z by reflexivity.
    replace ((1024 + 2 ^ (2 - 1)) mod TABLE_SIZE)%Z with 1026%Z by reflexivity.
    rewrite <- !sample_fold. apply two_tap_form. }
  destruct (trough_two_tap_vs_box _
              (L 1021%Z _ ltac:(unfold TABLE_SIZE; lia) H1)
              (L 1022%Z _ ltac:(unfold TABLE_SIZE; lia) H2)
              (L 1023%Z _ ltac:(unfold TABLE_SIZE; lia) H3)
              (L 1024%Z _ ltac:(unfold TABLE_SIZE; lia) H4)
              (L 1025%Z _ ltac:(unfold TABLE_SIZE; lia) H5)
              (L 1026%Z _ ltac:(unfold TABLE_SIZE; lia) H6)
              (L 1027%Z _ ltac:(unfold TABLE_SIZE; lia) H7))
    as (Hval & B1 & B2 & B3 & B4).
  pose proof (Qeq_trans _ _ _ Hcode Hval) as Hval'.
  split; [exact Hcode|]. split; [exact Hval'|].
  split; [exact B1|]. split; [exact B2|]. split; [exact B3|]. split; [exact B4|].
  intros a Ha Heq.
  pose proof (Qeq_trans _ _ _ (Qeq_sym _ _ Hval') Heq) as Hbox.
  assert (Hcases : a = 1021%Z \/ a = 1022%Z \/ a = 1023%Z \/ a = 1024%Z) by lia.
  destruct Hcases as [-> | [-> | [-> | ->]]].
  - pose proof (Qeq_trans _ _ _ Hbox B1) as H. vm_compute in H. discriminate.
  - pose proof (Qeq_trans _ _ _ Hbox B2) as H. vm_compute in H. discriminate.
  - pose proof (Qeq_trans _ _ _ Hbox B3) as H. vm_compute in H. discriminate.
  - pose proof (Qeq_trans _ _ _ Hbox B4) as H. vm_compute in H. discriminate.
Qed.

End WavetableFacts.

(** ** WT_SURGE_X.cpp: the output stage *)

Module OutputFacts.
Import WT_SURGE_X.

(** [x / (1 + |x|)] never reaches [-1] or [1]. *)
Lemma softClip_range x : -1 < softClip x /\ softClip x < 1.
Proof.
  unfold softClip, fabs.
  pose proof (Qabs_nonneg x) as H0.
  pose proof (Qle_Qabs x) as H1.
  pose proof (Qle_Qabs (- x)) as H2. rewrite Qabs_opp in H2.
  split.
  - apply Qlt_shift_div_l; lra.
  - apply Qlt_shift_div_r; lra.
Qed.

(** Each fold loop of [applyWarp] needs a single iteration. *)
Lemma fold_loops_exit s :
  let s1 := while_ 2 (fun s => Qltb 1 s) (fun s => 2 - s) s in
  let s2 := while_ 2 (fun s => Qltb s (-1)) (fun s => -2 - s) s1 in
  Qltb 1 s1 = false /\ Qltb s2 (-1) = false.
Proof.
  cbv zeta. cbn [while_].
  assert (H1 : Qltb 1 (if Qltb 1 s then if Qltb 1 (2 - s) then 2 - (2 - s) else 2 - s else s)
               = false).
  { destruct (Qltb_cases 1 s) as [[-> Hc]|[-> Hc]]; [|by apply Qltb_false].
    destruct (Qltb_cases 1 (2 - s)) as [[-> Hc']|[-> Hc']]; apply Qltb_false; lra. }
  split; [exact H1|].
  set (s1 := if Qltb 1 s then _ else _) in *. apply Qltb_false in H1.
  destruct (Qltb_cases s1 (-1)) as [[-> Hc]|[-> Hc]]; [|by apply Qltb_false].
  destruct (Qltb_cases (-2 - s1) (-1)) as [[-> Hc']|[-> Hc']]; apply Qltb_false; lra.
Qed.

Example softClip_values : softClip 1 == 1 # 2 /\ softClip (-3) == - (3 # 4).
Proof. split; reflexivity. Qed.

(** C9.  Whatever the inputs, parameters and [<cmath>] functions, each of
    the two voltages written by [process] is either [0] (table not ready)
    or the soft clipper applied to a mix already scaled by the level and by
    5, and nothing scales it afterwards: both lie strictly between -1 and
    1. *)
Theorem C9_outputs_strictly_within_one_volt
    (sinf tanhf floorf roundf : Q -> Q) (powf : Q -> Q -> Q) (M_PI : Q)
    (i : Inputs) (m : Module_) :
  let o := (process sinf tanhf floorf roundf powf M_PI i m).1 in
  (-1 < OUT_L_OUTPUT o /\ OUT_L_OUTPUT o < 1) /\
  (-1 < OUT_R_OUTPUT o /\ OUT_R_OUTPUT o < 1) /\
  ((OUT_L_OUTPUT o = 0 /\ OUT_R_OUTPUT o = 0) \/
   exists mixL mixR,
     OUT_L_OUTPUT o = softClip (mixL * LEVEL_PARAM i * 5) /\
     OUT_R_OUTPUT o = softClip (mixR * LEVEL_PARAM i * 5)).
Proof.
  cbv zeta. unfold process.
  destruct (negb (tableReady (wavetable m))).
  - cbn [fst OUT_L_OUTPUT OUT_R_OUTPUT]. repeat split; try lra. by left.
  - destruct (foldl _ _ _) as [[store outL] outR].
    cbn [fst OUT_L_OUTPUT OUT_R_OUTPUT].
    split; [apply softClip_range|]. split; [apply softClip_range|].
    right. by exists outL, outR.
Qed.

End OutputFacts.

(** ** AmbientRandomSynth.cpp: the voice pool *)

Module VoicePoolFacts.
Import AmbientRandomSynth.

Section Scan.

Variable powf : Q -> Q -> Q.
Variable i : NoteInputs.

Lemma scan_all_active m n : forall k,
  (forall j v, (k <= j)%nat -> voices m !! j = Some v -> active v = true) ->
  scan powf n k i m = m.
Proof.
  induction n as [|n IH]; intros k Hall; [done|].
  cbn [scan]. destruct (voices m !! k) as [v|] eqn:E; [|done].
  rewrite (Hall k v) by done. cbn [negb]. apply IH.
  intros j v' Hj. apply Hall. lia.
Qed.

Lemma scan_first m v k n : forall k0,
  (k0 <= k < k0 + n)%nat ->
  voices m !! k = Some v -> active v = false ->
  (forall j v', (k0 <= j < k)%nat -> voices m !! j = Some v' -> active v' = true) ->
  scan powf n k0 i m = allocated_in powf k v i m.
Proof.
  induction n as [|n IH]; intros k0 Hk Hv Hin Hbefore; [lia|].
  cbn [scan]. destruct (decide (k0 = k)) as [->|Hne].
  - rewrite Hv, Hin. reflexivity.
  - assert (Hlt : (k0 < length (voices m))%nat).
    { apply lookup_lt_Some in Hv. lia. }
    destruct (lookup_lt_is_Some_2 _ _ Hlt) as [v0 E0].
    rewrite E0, (Hbefore k0 v0) by (done || lia). cbn [negb].
    apply IH; try done; [lia|]. intros j v' Hj. apply Hbefore. lia.
Qed.

End Scan.

(** What [trigger] writes: the voice is switched on with the given
    frequency, attack, release and note, and its envelope phase restarts
    at 0; the oscillator phases and the envelope level are kept. *)
Lemma trigger_fields f att rel note v :
  trigger f att rel note v =
  {| active := true; freq := f; phase := phase v; env := env v; envPhase := 0;
     attack := att; release := rel; midiNote := note |}.
Proof. reflexivity. Qed.

(** C7.  With all 16 slots active [playNote] returns the module unchanged
    (voices, [lastVoct], [gateTimer] and the rest).  Otherwise, if slot [k]
    is the first inactive one in scan order, the module it returns differs
    in that slot, [lastVoct] and [gateTimer] only: the slot is active, its
    frequency is [440 * 2^((note - 69) / 12)], its attack [0.5 + 2 * motion],
    its release [3 + 4 * motion], its note the chosen note, its envelope
    phase 0, with the oscillator phases and the envelope level it had;
    every other slot is the one it was; [lastVoct] is [(note - 60) / 12]
    and [gateTimer] is 0.15. *)
Theorem C7_full_pool_drops_note_else_first_free_slot
    (powf : Q -> Q -> Q) (i : NoteInputs) (m : Module_) :
  length (voices m) = NUM_VOICES ->
  (Forall (fun v => active v = true) (voices m) -> playNote powf i m = m) /\
  (forall k v,
     voices m !! k = Some v -> active v = false ->
     (forall j v', (j < k)%nat -> voices m !! j = Some v' -> active v' = true) ->
     let m' := playNote powf i m in
     let note := chosen_midiNote i in
     voices m' !! k =
       Some {| active := true;
               freq := 440 * powf 2 (ofZ (note - 69) / 12);
               phase := phase v; env := env v; envPhase := 0;
               attack := 0.5 + MOTION_PARAM i * 2;
               release := 3 + MOTION_PARAM i * 4;
               midiNote := ofZ note |} /\
     (forall j, j <> k -> voices m' !! j = voices m !! j) /\
     length (voices m') = NUM_VOICES /\
     lastVoct m' = ofZ (note - 60) / 12 /\ gateTimer m' = 0.15 /\
     delayWritePtr m' = delayWritePtr m /\ tickTimer m' = tickTimer m /\
     freeze m' = freeze m).
Proof.
  intros Hlen. split.
  - intros Hall. apply scan_all_active. intros j v _ Hj.
    rewrite Forall_lookup in Hall. by apply (Hall j).
  - intros k v Hv Hin Hbefore. cbv zeta. unfold playNote.
    pose proof (lookup_lt_Some _ _ _ Hv) as Hk.
    rewrite (scan_first powf i m v k NUM_VOICES 0%nat); try done; [|lia|].
    + unfold allocated_in.
      cbn [voices lastVoct gateTimer delayWritePtr tickTimer freeze].
      rewrite trigger_fields. unfold chosen_freq, chosen_attack, chosen_release.
      split; [by apply list_lookup_insert_eq|].
      split; [intros j Hj; by apply list_lookup_insert_ne|].
      rewrite length_insert. done.
    + intros j v' Hj. apply Hbefore. lia.
Qed.

Lemma C7_voice_pool_witness :
  playNote (fun _ _ => 1) example_note full_pool = full_pool /\
  (let m' := playNote (fun _ _ => 1) example_note Module_new in
   let note := chosen_midiNote example_note in
   voices m' !! 0%nat =
     Some {| active := true;
             freq := 440 * (fun _ _ => 1) 2 (ofZ (note - 69) / 12);
             phase := phase Voice_new; env := env Voice_new; envPhase := 0;
             attack := 0.5 + MOTION_PARAM example_note * 2;
             release := 3 + MOTION_PARAM example_note * 4;
             midiNote := ofZ note |} /\
   (forall j, j <> 0%nat -> voices m' !! j = voices Module_new !! j) /\
   length (voices m') = NUM_VOICES /\
   lastVoct m' = ofZ (note - 60) / 12 /\ gateTimer m' = 0.15 /\
   delayWritePtr m' = delayWritePtr Module_new /\ tickTimer m' = tickTimer Module_new /\
   freeze m' = freeze Module_new).
Proof.
  split.
  - apply (C7_full_pool_drops_note_else_first_free_slot (fun _ _ => 1) example_note full_pool).
    + reflexivity.
    + repeat constructor.
  - apply (proj2 (C7_full_pool_drops_note_else_first_free_slot (fun _ _ => 1) example_note
                    Module_new ltac:(reflexivity)) 0%nat Voice_new).
    + reflexivity.
    + reflexivity.
    + intros j v' Hj. lia.
Defined.

(** The slot the example note lands in, evaluated: pentatonic degree 4 in
    octave 3, MIDI note 40, attack 1.5 s, release 5 s. *)
Example playNote_example_slot :
  let m' := playNote (fun _ _ => 1) example_note Module_new in
  chosen_midiNote example_note = 40%Z /\
  (exists v, voices m' !! 0%nat = Some v /\ active v = true /\ freq v == 440 /\
     attack v == 1.5 /\ release v == 5 /\ midiNote v == 40 /\ envPhase v = 0) /\
  lastVoct m' == - (5 # 3) /\ gateTimer m' = 0.15.
Proof.
  cbv zeta. split; [reflexivity|]. split.
  - eexists. split; [reflexivity|]. repeat split; reflexivity.
  - split; reflexivity.
Qed.

End VoicePoolFacts.

(** ** BuildupLooper.cpp *)

Module LooperFacts.
Import BuildupLooper.

(** [ensureBuffers] touches the buffers only. *)
Lemma ensureBuffers_button m :
  buttonToggleState (ensureBuffers m) = buttonToggleState m /\
  prevButtonPressed (ensureBuffers m) = prevButtonPressed m /\
  state (ensureBuffers m) = state m.
Proof. unfold ensureBuffers. by destruct (allocated m). Qed.

Lemma toggle_step_ensure i m : toggle_step i (ensureBuffers m) = toggle_step i m.
Proof.
  unfold toggle_step. destruct (ensureBuffers_button m) as (-> & -> & _). reflexivity.
Qed.

(** The fields of the module after the common prefix of [process]. *)
Lemma pre_machine_fields i m0 :
  let m1 := ensureBuffers m0 in
  let m := pre_machine i m0 in
  state m = state m0 /\
  buttonToggleState m = toggle_step i m0 /\
  prevButtonPressed m = buttonPressed i /\
  allocated m = allocated m1 /\
  ringSize m = ringSize m1 /\
  ringWritePos m = cmod (ringWritePos m1 + 1) (ringSize m1) /\
  ringL m = <[Z.to_nat (ringWritePos m1) := (audio_in i).1]> (ringL m1) /\
  ringR m = <[Z.to_nat (ringWritePos m1) := (audio_in i).2]> (ringR m1) /\
  loopL m = loopL m1 /\ loopR m = loopR m1.
Proof.
  cbv zeta. unfold pre_machine.
  destruct (clock_step i (ensureBuffers m0)) as [[[pch counter] last] beat].
  destruct (audio_in i) as [inL inR].
  cbn [state buttonToggleState prevButtonPressed allocated ringSize ringWritePos ringL ringR
       loopL loopR fst snd].
  destruct (ensureBuffers_button m0) as (_ & _ & ->).
  rewrite toggle_step_ensure. repeat split.
Qed.

(** Whatever branch the state machine takes, the button fields are those
    computed at the top of [process]. *)
Lemma process_button i m :
  buttonToggleState (process i m).2 = toggle_step i m /\
  prevButtonPressed (process i m).2 = buttonPressed i.
Proof.
  destruct (pre_machine_fields i m) as (_ & Ht & Hp & _).
  unfold process. destruct (audio_in i) as [inL inR].
  destruct (state (pre_machine i m));
    [destruct (wantBuild i (ensureBuffers m)) | destruct (wantBuild i (ensureBuffers m)) | ];
    cbn [negb snd exit_fade set_machine buttonToggleState prevButtonPressed]; by split.
Qed.

Lemma run_cons m i is_ : run m (i :: is_) = run (process i m).2 is_.
Proof. reflexivity. Qed.

Lemma run_app m is1 is2 : run m (is1 ++ is2) = run (run m is1) is2.
Proof. unfold run. apply foldl_app. Qed.

(** The toggle after a run of steps during which the button value stays at
    [b], the previous value being [b] already: no change. *)
Lemma held_button_keeps_toggle b is_ : forall m,
  prevButtonPressed m = b ->
  Forall (fun i => buttonPressed i = b) is_ ->
  buttonToggleState (run m is_) = buttonToggleState m /\
  prevButtonPressed (run m is_) = b.
Proof.
  induction is_ as [|i is_ IH]; intros m Hp Hall; [done|].
  apply Forall_cons in Hall as [Hi Hall].
  destruct (process_button i m) as [Ht Hp'].
  rewrite run_cons.
  destruct (IH (process i m).2) as [-> ->]; [congruence | done |].
  split; [|done]. rewrite Ht. unfold toggle_step. rewrite Hi, Hp.
  by destruct b.
Qed.

(** C10.  Each [process] step flips the BUILD toggle exactly when the
    button value differs from the previous step's, on falling edges as on
    rising ones.  Hence a press held for any number of steps and then
    released leaves the toggle where it was, while a value that changes
    once and stays (a latched button) flips it once. *)
Theorem C10_build_toggle_flips_on_every_button_change
    (m : Module_) (press : Inputs) (held : list Inputs) (release : Inputs) (after : list Inputs) :
  (forall i m', buttonToggleState (process i m').2 =
                if eqb (buttonPressed i) (prevButtonPressed m')
                then buttonToggleState m' else negb (buttonToggleState m')) /\
  (prevButtonPressed m = false ->
   buttonPressed press = true ->
   Forall (fun i => buttonPressed i = true) held ->
   buttonPressed release = false ->
   Forall (fun i => buttonPressed i = false) after ->
   buttonToggleState (run m (press :: held)) = negb (buttonToggleState m) /\
   buttonToggleState (run m (press :: held ++ release :: after)) = buttonToggleState m).
Proof.
  split.
  - intros i m'. destruct (process_button i m') as [-> _]. unfold toggle_step.
    by destruct (eqb _ _).
  - intros Hp Hpress Hheld Hrel Hafter.
    destruct (process_button press m) as [Ht1 Hp1].
    assert (T1 : buttonToggleState (process press m).2 = negb (buttonToggleState m)).
    { rewrite Ht1. unfold toggle_step. by rewrite Hpress, Hp. }
    destruct (held_button_keeps_toggle true held (process press m).2) as [Ht2 Hp2];
      [congruence | done |].
    split.
    + rewrite run_cons. by rewrite Ht2.
    + rewrite app_comm_cons, run_app, (run_cons _ release).
      assert (E : run m (press :: held) = run (process press m).2 held) by reflexivity.
      set (m2 := run m (press :: held)) in *.
      destruct (process_button release m2) as [Ht3 Hp3].
      destruct (held_button_keeps_toggle false after (process release m2).2) as [-> _];
        [congruence | done |].
      rewrite Ht3. unfold toggle_step. rewrite Hrel, E, Hp2, Ht2, T1.
      cbn. by rewrite negb_involutive.
Qed.

Lemma C10_toggle_witness :
  let press := with_button 1 (quiet 44100) in
  let release := quiet 44100 in
  buttonToggleState (run Module_new (press :: [press; press])) = true /\
  buttonToggleState (run Module_new (press :: [press; press] ++ release :: [release])) = false.
Proof.
  intros press release.
  apply (C10_build_toggle_flips_on_every_button_change
           Module_new press [press; press] release [release]).
  - reflexivity.
  - reflexivity.
  - repeat constructor.
  - reflexivity.
  - repeat constructor.
Defined.

(** *** The wrapping loops run to completion

    With a positive length, [laps] grants enough iterations: both loops
    stop because their condition fails, not because the bound is hit. *)

Lemma while_sub_exits len (n : nat) : forall p,
  0 < len -> p < inject_Z (Z.of_nat n) * len ->
  Qleb len (while_ n (fun p => Qleb len p) (fun p => p - len) p) = false.
Proof.
  induction n as [|n IH]; intros p Hlen Hp; cbn [while_].
  - apply Qleb_false. change (inject_Z (Z.of_nat 0)) with 0 in Hp. lra.
  - destruct (Qleb_cases len p) as [[-> Hc]|[E Hc]]; [|by rewrite E].
    apply IH; [done|].
    rewrite Nat2Z.inj_succ, <- Z.add_1_r, inject_Z_plus in Hp.
    change (inject_Z 1) with 1 in Hp. lra.
Qed.

Lemma while_add_exits len (n : nat) : forall p,
  0 < len -> 0 <= p + inject_Z (Z.of_nat n) * len ->
  Qltb (while_ n (fun p => Qltb p 0) (fun p => p + len) p) 0 = false.
Proof.
  induction n as [|n IH]; intros p Hlen Hp; cbn [while_].
  - apply Qltb_false. change (inject_Z (Z.of_nat 0)) with 0 in Hp. lra.
  - destruct (Qltb_cases p 0) as [[-> Hc]|[E Hc]]; [|by rewrite E].
    apply IH; [done|].
    rewrite Nat2Z.inj_succ, <- Z.add_1_r, inject_Z_plus in Hp.
    change (inject_Z 1) with 1 in Hp. lra.
Qed.

Lemma laps_enough p len :
  0 < len ->
  p < inject_Z (Z.of_nat (laps p len)) * len /\
  0 <= p + inject_Z (Z.of_nat (laps p len)) * len.
Proof.
  intros Hlen. unfold laps.
  destruct (Qtrunc_bounds (p / len)) as [H1 H2].
  set (t := Qtrunc (p / len)) in *.
  rewrite !Nat2Z.inj_succ, Z2Nat.id by lia.
  rewrite <- !Z.add_1_r, !inject_Z_plus. change (inject_Z 1) with 1.
  assert (Ha1 : inject_Z t <= inject_Z (Z.abs t)) by (rewrite <- Zle_Qle; lia).
  assert (Ha2 : - inject_Z t <= inject_Z (Z.abs t)).
  { rewrite <- inject_Z_opp, <- Zle_Qle. lia. }
  assert (E : p == p / len * len) by (field; lra).
  set (q := p / len) in *.
  split.
  - rewrite E at 1. apply Qmult_lt_compat_r; [done | lra].
  - assert (- (inject_Z (Z.abs t) + 1 + 1) * len <= q * len).
    { apply Qmult_le_compat_r; lra. }
    lra.
Qed.

Lemma wrap_down_exits p len : 0 < len -> Qleb len (wrap_down p len) = false.
Proof. intros H. apply while_sub_exits; [done|]. by apply laps_enough. Qed.

Lemma wrap_up_exits p len : 0 < len -> Qltb (wrap_up p len) 0 = false.
Proof. intros H. apply while_add_exits; [done|]. by apply laps_enough. Qed.

(** *** Loop length and crossfade window *)

Lemma RING_MAX_value : RING_MAX_SAMPLES = 480000%Z.
Proof. reflexivity. Qed.

Lemma LOOP_MAX_value : LOOP_MAX_SAMPLES = 384000%Z.
Proof. reflexivity. Qed.

Lemma L_samples_range i m : (1 <= L_samples i m <= LOOP_MAX_SAMPLES)%Z.
Proof.
  unfold L_samples. rewrite LOOP_MAX_value.
  destruct (CLOCK_connected i).
  - destruct (clock_step i m) as [[[pch counter] last] beat].
    rewrite clampZ_spec.
    destruct (Z.ltb_spec 0 (ringSize m)); unfold std_minZ;
      try destruct (Z.ltb_spec (ringSize m) 384000); lia.
  - rewrite clampZ_spec. lia.
Qed.

Lemma Nfade_value i m :
  Nfade i m =
  Z.max (Z.min (Qtrunc (LOOP_FADE_MS * 0.001 * sampleRate i)) (L_samples i m ÷ 2)) 4.
Proof. unfold Nfade. apply clampZ_spec. Qed.

(** With a window longer than half the loop, [readWithLoopCrossfade] is the
    plain interpolated read. *)
Lemma no_crossfade_when_window_too_long buf len pos N :
  (0 < len)%Z -> (len < 2 * N)%Z ->
  readWithLoopCrossfade buf len pos N =
  readLinear buf len (wrap_up (wrap_down pos (ofZ len)) (ofZ len)).
Proof.
  intros H0 H1. unfold readWithLoopCrossfade.
  destruct (Z.leb_spec len 0); [lia|].
  destruct (Z.ltb_spec len (2 * N)); [|lia].
  by rewrite orb_true_r.
Qed.

(** C5, as the code has it.  [L_samples] is at least 1 and [Nfade] is
    [max (min (trunc (0.01 * sampleRate)) (L_samples / 2)) 4], at least 4:
    it is at most [L_samples / 2] exactly when [L_samples >= 8].  For a
    shorter loop [Nfade] is 4, more than half the loop, and
    [readWithLoopCrossfade] then applies no crossfade to any loop shorter
    than [2 * Nfade]. *)
Theorem C5_crossfade_window_at_most_half_loop_from_8_samples
    (i : Inputs) (m : Module_) (buf : list Q) (len : Z) (pos : Q) :
  let L := L_samples i m in
  let N := Nfade i m in
  (1 <= L)%Z /\ (4 <= N)%Z /\
  N = Z.max (Z.min (Qtrunc (LOOP_FADE_MS * 0.001 * sampleRate i)) (L ÷ 2)) 4 /\
  ((N <= L ÷ 2)%Z <-> (8 <= L)%Z) /\
  ((L < 8)%Z -> N = 4%Z) /\
  ((0 < len)%Z -> (len < 2 * N)%Z ->
   readWithLoopCrossfade buf len pos N =
   readLinear buf len (wrap_up (wrap_down pos (ofZ len)) (ofZ len))).
Proof.
  intros L N. subst L N.
  pose proof (L_samples_range i m) as HL.
  pose proof (Nfade_value i m) as HN.
  set (L := L_samples i m) in *. set (N := Nfade i m) in *.
  set (N0 := Qtrunc (LOOP_FADE_MS * 0.001 * sampleRate i)) in *.
  assert (Hq : (L ÷ 2 < 4 <-> L < 8)%Z) by (Z.to_euclidean_division_equations; lia).
  repeat split; try lia.
  apply no_crossfade_when_window_too_long.
Qed.

Lemma C5_window_witness :
  let i := quiet 44100 in
  ((Nfade i Module_new <= L_samples i Module_new ÷ 2)%Z <->
   (8 <= L_samples i Module_new)%Z) /\
  readWithLoopCrossfade [1; 2; 3; 4; 5; 6; 7] 7 0 (Nfade i Module_new) =
  readLinear [1; 2; 3; 4; 5; 6; 7] 7 (wrap_up (wrap_down 0 (ofZ 7)) (ofZ 7)).
Proof.
  intros i.
  destruct (C5_crossfade_window_at_most_half_loop_from_8_samples
              i Module_new [1; 2; 3; 4; 5; 6; 7] 7 0) as (_ & H4 & _ & Hiff & _ & Hread).
  split; [exact Hiff|]. apply Hread; [reflexivity|]. cbv zeta in H4. lia.
Defined.

(** C5 as stated fails.  At 44.1 kHz, from power-on, a clock that goes
    high, low, high in three consecutive samples measures a beat of 1.8
    samples: the third step computes [L_samples = 7] and [Nfade = 4], which
    exceeds [7 / 2 = 3]. *)
Lemma C5_fast_clock_counterexample :
  let hi := with_clock 10 (quiet 44100) in
  let lo := with_clock 0 (quiet 44100) in
  let m := ensureBuffers (run Module_new [hi; lo]) in
  L_samples hi m = 7%Z /\ Nfade hi m = 4%Z /\
  ~ (Nfade hi m <= L_samples hi m ÷ 2)%Z.
Proof.
  cbv zeta.
  assert (HL : L_samples (with_clock 10 (quiet 44100))
                 (ensureBuffers (run Module_new
                    [with_clock 10 (quiet 44100); with_clock 0 (quiet 44100)])) = 7%Z)
    by (vm_compute; reflexivity).
  assert (HN : Nfade (with_clock 10 (quiet 44100))
                 (ensureBuffers (run Module_new
                    [with_clock 10 (quiet 44100); with_clock 0 (quiet 44100)])) = 4%Z)
    by (rewrite Nfade_value, HL; reflexivity).
  rewrite HN, HL. repeat split. intros H. vm_compute in H. by apply H.
Qed.

(** *** The ring buffer and the build snapshot *)

Lemma at_lookup (l : list Q) (k : nat) x : l !! k = Some x -> at_ l (Z.of_nat k) = x.
Proof.
  intros H. unfold at_. destruct (Z.ltb_spec (Z.of_nat k) 0); [lia|].
  by rewrite Nat2Z.id, H.
Qed.

Lemma at_insert_eq (l : list Q) (k : Z) x :
  (0 <= k)%Z -> (Z.to_nat k < length l)%nat -> at_ (<[Z.to_nat k := x]> l) k = x.
Proof.
  intros H0 Hk. unfold at_. destruct (Z.ltb_spec k 0); [lia|].
  by rewrite list_lookup_insert_eq.
Qed.

Lemma at_insert_ne (l : list Q) (k j : Z) x :
  (0 <= k)%Z -> (0 <= j)%Z -> k <> j -> at_ (<[Z.to_nat k := x]> l) j = at_ l j.
Proof.
  intros H0 H1 Hne. unfold at_. destruct (Z.ltb_spec j 0); [lia|].
  rewrite list_lookup_insert_ne; [done | lia].
Qed.

(** The copy loop fills cells [0 .. L-1] of the loop buffer from the ring,
    in order, and keeps the buffer's length. *)
Lemma copy_loop_spec ring loop start size (n : nat) :
  (n <= length loop)%nat ->
  length (copy_loop ring loop start (Z.of_nat n) size) = length loop /\
  forall k, (0 <= k < Z.of_nat n)%Z ->
    at_ (copy_loop ring loop start (Z.of_nat n) size) k = at_ ring (cmod (start + k) size).
Proof.
  unfold copy_loop. rewrite range_seqZ.
  induction n as [|n IH]; intros Hn.
  - cbn. split; [done|]. intros k Hk. lia.
  - rewrite seqZ_S, foldl_app. cbn [foldl].
    destruct IH as [IHlen IHat]; [lia|].
    set (lp := foldl _ loop (seqZ 0 (Z.of_nat n))) in *.
    rewrite Z.add_0_l. split; [by rewrite length_insert|].
    intros k Hk. destruct (decide (k = Z.of_nat n)) as [->|Hne].
    + rewrite at_insert_eq; [done | lia | lia].
    + rewrite at_insert_ne by lia. apply IHat. lia.
Qed.

Lemma ensureBuffers_ok m : buffers_ok m -> 
  let m1 := ensureBuffers m in
  allocated m1 = true /\
  ringSize m1 = RING_MAX_SAMPLES /\
  length (ringL m1) = Z.to_nat RING_MAX_SAMPLES /\
  length (ringR m1) = Z.to_nat RING_MAX_SAMPLES /\
  length (loopL m1) = Z.to_nat LOOP_MAX_SAMPLES /\
  length (loopR m1) = Z.to_nat LOOP_MAX_SAMPLES /\
  (0 <= ringWritePos m1 < RING_MAX_SAMPLES)%Z.
Proof.
  unfold buffers_ok, ensureBuffers. destruct (allocated m) eqn:E.
  - intros H. by rewrite E.
  - intros ->. cbn [allocated ringSize ringL ringR loopL loopR ringWritePos].
    rewrite !length_replicate, RING_MAX_value. repeat split; lia.
Qed.

Lemma ensureBuffers_idem m : ensureBuffers (ensureBuffers m) = ensureBuffers m.
Proof. unfold ensureBuffers. by destruct (allocated m) eqn:E; cbn; rewrite ?E. Qed.

Lemma ensureBuffers_allocated m : allocated m = true -> ensureBuffers m = m.
Proof. unfold ensureBuffers. by intros ->. Qed.

Lemma process_ensure i m : process i (ensureBuffers m) = process i m.
Proof. unfold process, pre_machine. by rewrite !ensureBuffers_idem. Qed.

(** The buffer fields after a whole [process] call: the ring is the one
    written by the common prefix; the loop buffers change only on the build
    transition. *)
Lemma process_ring i m :
  let m1 := ensureBuffers m in
  let m' := (process i m).2 in
  allocated m' = allocated m1 /\
  ringSize m' = ringSize m1 /\
  ringWritePos m' = cmod (ringWritePos m1 + 1) (ringSize m1) /\
  ringL m' = <[Z.to_nat (ringWritePos m1) := (audio_in i).1]> (ringL m1) /\
  ringR m' = <[Z.to_nat (ringWritePos m1) := (audio_in i).2]> (ringR m1).
Proof.
  cbv zeta.
  destruct (pre_machine_fields i m) as (_ & _ & _ & Ha & Hs & Hw & HL & HR & _).
  unfold process. destruct (audio_in i) as [inL inR].
  destruct (state (pre_machine i m));
    [destruct (wantBuild i (ensureBuffers m)) | destruct (wantBuild i (ensureBuffers m)) | ];
    cbn [negb snd exit_fade set_machine allocated ringSize ringWritePos ringL ringR];
    by repeat split.
Qed.

(** The build transition, spelled out. *)
Lemma process_idle_build i m :
  state m = IDLE -> wantBuild i (ensureBuffers m) = true ->
  let mp := pre_machine i m in
  let L := L_samples i (ensureBuffers m) in
  let start := cmod (ringWritePos mp - L + ringSize mp) (ringSize mp) in
  (process i m).2 =
  set_machine mp
    (copy_loop (ringL mp) (loopL mp) start L (ringSize mp))
    (copy_loop (ringR mp) (loopR mp) start L (ringSize mp))
    L BUILD 0 0 0%Z (exitFadeSamples mp).
Proof.
  intros Hst Hw. cbv zeta.
  destruct (pre_machine_fields i m) as (Hs & _).
  unfold process. destruct (audio_in i) as [inL inR].
  rewrite Hs, Hst, Hw. reflexivity.
Qed.

Lemma process_loop_lengths i m :
  buffers_ok m ->
  length (loopL (process i m).2) = Z.to_nat LOOP_MAX_SAMPLES /\
  length (loopR (process i m).2) = Z.to_nat LOOP_MAX_SAMPLES.
Proof.
  intros Hok.
  destruct (ensureBuffers_ok m Hok) as (_ & _ & _ & _ & HlL & HlR & _).
  destruct (pre_machine_fields i m) as (_ & _ & _ & _ & _ & _ & _ & _ & HL & HR).
  cbv zeta in HL, HR.
  pose proof (L_samples_range i (ensureBuffers m)) as HLs.
  assert (Hn : (Z.to_nat (L_samples i (ensureBuffers m)) <= Z.to_nat LOOP_MAX_SAMPLES)%nat) by lia.
  unfold process. destruct (audio_in i) as [inL inR].
  destruct (state (pre_machine i m));
    [destruct (wantBuild i (ensureBuffers m)) | destruct (wantBuild i (ensureBuffers m)) | ];
    cbn [negb snd exit_fade set_machine loopL loopR]; rewrite ?HL, ?HR; try done.
  rewrite <- (Z2Nat.id (L_samples i (ensureBuffers m))) by lia.
  split; (etrans; [apply copy_loop_spec; lia | done]).
Qed.

Lemma process_ok i m : buffers_ok m ->
  buffers_ok (process i m).2 /\ allocated (process i m).2 = true.
Proof.
  intros Hok.
  destruct (ensureBuffers_ok m Hok) as (Ha & Hs & HrL & HrR & _ & _ & Hw).
  destruct (process_ring i m) as (Ha' & Hs' & Hw' & HL' & HR').
  destruct (process_loop_lengths i m Hok) as [HlL HlR].
  cbv zeta in *. rewrite Ha in Ha'. split; [|done].
  unfold buffers_ok. rewrite Ha', Hs', Hw', HL', HR', !length_insert, Hs.
  repeat split; try assumption.
  - unfold cmod. rewrite RING_MAX_value in *. Z.to_euclidean_division_equations. lia.
  - unfold cmod. rewrite RING_MAX_value in *. Z.to_euclidean_division_equations. lia.
Qed.

Lemma run_ok is_ : forall m, buffers_ok m -> buffers_ok (run m is_).
Proof.
  induction is_ as [|i is_ IH]; intros m Hok; [done|].
  rewrite run_cons. apply IH. by apply process_ok.
Qed.

Lemma run_snoc m is_ i : run m (is_ ++ [i]) = (process i (run m is_)).2.
Proof. by rewrite run_app. Qed.

(** One step shifts the history by one and puts this step's samples in
    front. *)
Lemma process_recent i m :
  buffers_ok m ->
  let m' := (process i m).2 in
  recentL m' 0 = (audio_in i).1 /\ recentR m' 0 = (audio_in i).2 /\
  forall j, (0 <= j)%Z -> (j + 1 < RING_MAX_SAMPLES)%Z ->
    recentL m' (j + 1) = recentL (ensureBuffers m) j /\
    recentR m' (j + 1) = recentR (ensureBuffers m) j.
Proof.
  intros Hok.
  destruct (ensureBuffers_ok m Hok) as (Ha & Hs & HrL & HrR & _ & _ & Hw).
  destruct (process_ring i m) as (Ha' & Hs' & Hw' & HL' & HR').
  cbv zeta in *. unfold recentL, recentR. rewrite Hs', Hw', HL', HR', Hs.
  set (w := ringWritePos (ensureBuffers m)) in *.
  rewrite RING_MAX_value in *.
  assert (Hc : cmod (w + 1) 480000 = ((w + 1) mod 480000)%Z).
  { unfold cmod. apply Z.rem_mod_nonneg; lia. }
  rewrite Hc.
  assert (H0 : (((w + 1) mod 480000 - 1 - 0) mod 480000 = w)%Z).
  { Z.to_euclidean_division_equations. lia. }
  rewrite H0. split; [apply at_insert_eq; lia|]. split; [apply at_insert_eq; lia|].
  intros j Hj0 Hj.
  assert (H1 : (((w + 1) mod 480000 - 1 - (j + 1)) mod 480000 = (w - 1 - j) mod 480000)%Z).
  { Z.to_euclidean_division_equations. lia. }
  rewrite H1.
  assert (Hne : w <> ((w - 1 - j) mod 480000)%Z).
  { Z.to_euclidean_division_equations. lia. }
  assert (Hpos : (0 <= (w - 1 - j) mod 480000)%Z) by (apply Z.mod_pos_bound; lia).
  split; apply at_insert_ne; lia.
Qed.

Lemma run_allocated is_ m : is_ <> [] -> buffers_ok m -> allocated (run m is_) = true.
Proof.
  intros Hne Hok. destruct (exists_last Hne) as (p & i & ->).
  rewrite run_snoc. apply process_ok. by apply run_ok.
Qed.

(** After any run, the ring read backwards from the cursor yields the
    inputs of the run, latest first (as far back as the ring is long). *)
Lemma run_history past : forall m0,
  buffers_ok m0 ->
  forall (j : nat) x, rev past !! j = Some x -> (Z.of_nat j < RING_MAX_SAMPLES)%Z ->
    recentL (run m0 past) (Z.of_nat j) = (audio_in x).1 /\
    recentR (run m0 past) (Z.of_nat j) = (audio_in x).2.
Proof.
  induction past as [|i p IH] using rev_ind; intros m0 Hok j x Hj Hlt; [done|].
  rewrite rev_unit in Hj. rewrite run_snoc.
  pose proof (run_ok p m0 Hok) as Hokp.
  destruct (process_recent i (run m0 p) Hokp) as (H0L & H0R & Hshift).
  destruct j as [|j'].
  - injection Hj as <-. by split.
  - cbn in Hj.
    assert (Hne : p <> []) by (intros ->; done).
    rewrite Nat2Z.inj_succ, <- Z.add_1_r in *.
    destruct (Hshift (Z.of_nat j')) as [-> ->]; [lia | lia |].
    rewrite ensureBuffers_allocated by (by apply run_allocated).
    apply IH; [done | done | lia].
Qed.

(** C4.  When a step finds the looper in [IDLE] with a build request (gate
    high, or toggle on with no gate patched), it enters [BUILD] with
    [loopSamples = L_samples] and both playheads (and the ramp counter) at
    0, and cells [0 .. L_samples - 1] of both loop buffers hold the last
    [L_samples] cells written to the ring, oldest first: cell
    [L_samples - 1 - j] is the sample written [j] steps ago, [j = 0] being
    the sample written by this very step.  In terms of the inputs: counting
    back through the steps run so far, the [j]-th latest input (normalised
    by [audio_in]) sits in cell [L_samples - 1 - j]. *)
Theorem C4_build_request_snapshots_latest_samples
    (m0 : Module_) (past : list Inputs) (i : Inputs) :
  buffers_ok m0 ->
  let m := run m0 past in
  state m = IDLE ->
  wantBuild i (ensureBuffers m) = true ->
  let L := L_samples i (ensureBuffers m) in
  let m' := (process i m).2 in
  state m' = BUILD /\ loopSamples m' = L /\
  playheadL m' = 0 /\ playheadR m' = 0 /\ rampSamples m' = 0%Z /\
  (forall k, (0 <= k < L)%Z ->
     at_ (loopL m') k = recentL m' (L - 1 - k) /\
     at_ (loopR m') k = recentR m' (L - 1 - k)) /\
  (forall (j : nat) x, (Z.of_nat j < L)%Z -> rev (past ++ [i]) !! j = Some x ->
     at_ (loopL m') (L - 1 - Z.of_nat j) = (audio_in x).1 /\
     at_ (loopR m') (L - 1 - Z.of_nat j) = (audio_in x).2).
Proof.
  intros Hok0 m Hst Hw L m'.
  pose proof (run_ok past m0 Hok0) as Hok. fold m in Hok.
  pose proof (L_samples_range i (ensureBuffers m)) as HL. fold L in HL.
  rewrite LOOP_MAX_value in HL.
  assert (Hsnap : forall k, (0 <= k < L)%Z ->
     at_ (loopL m') k = recentL m' (L - 1 - k) /\
     at_ (loopR m') k = recentR m' (L - 1 - k)).
  { intros k Hk.
    destruct (ensureBuffers_ok m Hok) as (_ & Hs & _ & _ & HlL & HlR & Hwp).
    destruct (pre_machine_fields i m) as (_ & _ & _ & _ & Hs' & Hw' & _ & _ & HpL & HpR).
    cbv zeta in *.
    unfold recentL, recentR, m'. rewrite (process_idle_build i m Hst Hw).
    cbn [set_machine loopL loopR ringL ringR ringWritePos ringSize].
    fold L. rewrite Hs', Hw', Hs. rewrite RING_MAX_value in *.
    set (w := ringWritePos (ensureBuffers m)) in *.
    set (start := cmod (cmod (w + 1) 480000 - L + 480000) 480000).
    assert (Hidx : cmod (start + k) 480000 =
                   ((cmod (w + 1) 480000 - 1 - (L - 1 - k)) mod 480000)%Z).
    { subst start. unfold cmod. Z.to_euclidean_division_equations. lia. }
    rewrite <- Hidx.
    rewrite <- (Z2Nat.id L) by lia.
    assert (HnL : (Z.to_nat L <= length (loopL (pre_machine i m)))%nat).
    { rewrite HpL, HlL, LOOP_MAX_value. lia. }
    assert (HnR : (Z.to_nat L <= length (loopR (pre_machine i m)))%nat).
    { rewrite HpR, HlR, LOOP_MAX_value. lia. }
    split.
    - apply copy_loop_spec; [exact HnL | lia].
    - apply copy_loop_spec; [exact HnR | lia]. }
  assert (Hm' : m' = run m0 (past ++ [i])) by (by rewrite run_snoc).
  split; [|split; [|split; [|split; [|split; [|split]]]]].
  - unfold m'. by rewrite (process_idle_build i m Hst Hw).
  - unfold m'. by rewrite (process_idle_build i m Hst Hw).
  - unfold m'. by rewrite (process_idle_build i m Hst Hw).
  - unfold m'. by rewrite (process_idle_build i m Hst Hw).
  - unfold m'. by rewrite (process_idle_build i m Hst Hw).
  - exact Hsnap.
  - intros j x Hj Hx.
    destruct (Hsnap (L - 1 - Z.of_nat j)%Z) as [-> ->]; [lia|].
    replace (L - 1 - (L - 1 - Z.of_nat j))%Z with (Z.of_nat j) by lia.
    rewrite Hm'. apply run_history; [done | done |].
    rewrite RING_MAX_value. lia.
Qed.

Lemma C4_snapshot_witness :
  let past := [with_audio 5 (quiet 44100)] in
  let i := with_button 1 (with_audio 2 (quiet 44100)) in
  let m := run Module_new past in
  let L := L_samples i (ensureBuffers m) in
  let m' := (process i m).2 in
  state m' = BUILD /\ loopSamples m' = L /\
  playheadL m' = 0 /\ playheadR m' = 0 /\ rampSamples m' = 0%Z /\
  (forall k, (0 <= k < L)%Z ->
     at_ (loopL m') k = recentL m' (L - 1 - k) /\
     at_ (loopR m') k = recentR m' (L - 1 - k)) /\
  (forall (j : nat) x, (Z.of_nat j < L)%Z -> rev (past ++ [i]) !! j = Some x ->
     at_ (loopL m') (L - 1 - Z.of_nat j) = (audio_in x).1 /\
     at_ (loopR m') (L - 1 - Z.of_nat j) = (audio_in x).2).
Proof.
  apply (C4_build_request_snapshots_latest_samples
           Module_new [with_audio 5 (quiet 44100)] (with_button 1 (with_audio 2 (quiet 44100)))).
  - reflexivity.
  - vm_compute. reflexivity.
  - vm_compute. reflexivity.
Defined.

End LooperFacts.

(** ** More on the numeric helpers *)

Module NumLemmas.

Lemma clamp_value x a b : a <= b ->
  (x <= a /\ clamp x a b = a) \/ (a <= x /\ x <= b /\ clamp x a b = x) \/
  (b <= x /\ clamp x a b = b).
Proof.
  intros Hab. unfold clamp, std_max, std_min.
  destruct (Qltb_cases b x) as [[-> H1]|[-> H1]].
  - destruct (Qltb_cases b a) as [[-> H2]|[-> H2]]; [lra|]. right. right. split; [lra|done].
  - destruct (Qltb_cases x a) as [[-> H2]|[-> H2]]; [left; split; [lra|done]|].
    right. left. repeat split; done || lra.
Qed.

Lemma smoothstep_unit c : 0 <= c -> c <= 1 -> 0 <= c * c * (3 - 2 * c) /\ c * c * (3 - 2 * c) <= 1.
Proof.
  intros H0 H1.
  assert (A : 0 <= c * c * (3 - 2 * c)).
  { apply Qmult_le_0_compat; [apply Qmult_le_0_compat; done | lra]. }
  assert (B : 0 <= (1 - c) * (1 - c) * (1 + 2 * c)).
  { apply Qmult_le_0_compat; [apply Qmult_le_0_compat; lra | lra]. }
  split; [done|].
  assert (E : (1 - c) * (1 - c) * (1 + 2 * c) == 1 - c * c * (3 - 2 * c)) by ring.
  rewrite E in B. lra.
Qed.

Lemma smoothstep_mono c d : 0 <= c -> c <= d -> d <= 1 ->
  c * c * (3 - 2 * c) <= d * d * (3 - 2 * d).
Proof.
  intros H0 H1 H2.
  assert (A : 0 <= (d - c) * (c * (3 - 2 * c - d) + d * (3 - 2 * d - c))).
  { apply Qmult_le_0_compat; [lra|].
    assert (0 <= c * (3 - 2 * c - d)) by (apply Qmult_le_0_compat; lra).
    assert (0 <= d * (3 - 2 * d - c)) by (apply Qmult_le_0_compat; lra).
    lra. }
  assert (E : (d - c) * (c * (3 - 2 * c - d) + d * (3 - 2 * d - c))
              == d * d * (3 - 2 * d) - c * c * (3 - 2 * c)) by ring.
  rewrite E in A. lra.
Qed.

Lemma Qtrunc_nonneg q : 0 <= q -> (0 <= Qtrunc q)%Z /\ inject_Z (Qtrunc q) <= q.
Proof.
  destruct q as [n d]. unfold Qtrunc, Qle, inject_Z. cbn. intros H.
  pose proof (Pos2Z.is_pos d).
  split; Z.to_euclidean_division_equations; nia.
Qed.

Lemma Qtrunc_inject z : Qtrunc (inject_Z z) = z.
Proof. unfold Qtrunc, inject_Z. cbn. apply Z.quot_1_r. Qed.

Lemma ofZ_pos z : (0 < z)%Z -> 0 < ofZ z.
Proof. intros H. unfold ofZ. change 0 with (inject_Z 0). by rewrite <- Zlt_Qlt. Qed.

Lemma clamp_mono x y a b : a <= b -> x <= y -> clamp x a b <= clamp y a b.
Proof.
  intros Hab Hxy.
  destruct (clamp_value x a b Hab) as [[Hx ->]|[(Hx0 & Hx1 & ->)|[Hx ->]]];
  destruct (clamp_value y a b Hab) as [[Hy ->]|[(Hy0 & Hy1 & ->)|[Hy ->]]]; lra.
Qed.

End NumLemmas.

Import NumLemmas.

(** ** StereoEffects.cpp: more on the delay line *)

Module DelayLineBehaviour.
Import StereoEffects DelayLineFacts.

Lemma DelayLine_new_ok cap : (0 < cap)%Z -> (4 * cap < 2 ^ 64)%Z -> DelayLine_ok (DelayLine_new cap).
Proof.
  intros H0 H1. unfold DelayLine_ok, DelayLine_new. cbn [size buffer writePos].
  rewrite length_replicate. repeat split; lia.
Qed.

Lemma push_all_writePos xs d :
  DelayLine_ok d ->
  writePos (push_all xs d) = ((writePos d + Z.of_nat (length xs)) mod size d)%Z.
Proof.
  intros Hok. induction xs as [|y xs IH] using rev_ind.
  - destruct Hok as (Hs & Hb & Hl & Hw). cbn [push_all foldl length Z.of_nat].
    rewrite Z.add_0_r, Z.mod_small; lia.
  - rewrite push_all_snoc, push_writePos by by apply push_all_ok.
    rewrite IH, push_all_size, length_app, Nat2Z.inj_add. cbn [length Z.of_nat].
    rewrite Zplus_mod_idemp_l. f_equal. lia.
Qed.

Lemma wrap64_small z : (0 <= z < 2 ^ 64)%Z -> wrap64 z = z.
Proof. intros H. unfold wrap64. by rewrite Z.mod_small. Qed.

(** A cell that none of the pushes addresses keeps its content. *)
Lemma push_all_untouched xs d (j : nat) :
  DelayLine_ok d ->
  (forall i, (0 <= i < Z.of_nat (length xs))%Z ->
     j <> Z.to_nat ((writePos d + i) mod size d)) ->
  buffer (push_all xs d) !! j = buffer d !! j.
Proof.
  intros Hok. induction xs as [|y xs IH] using rev_ind; [done|].
  intros Hj. rewrite length_app, Nat2Z.inj_add in Hj. cbn [length Z.of_nat] in Hj.
  rewrite push_all_snoc. unfold push at 1. cbn [buffer].
  rewrite list_lookup_insert_ne.
  - apply IH. intros i Hi. apply Hj. lia.
  - rewrite push_all_writePos by done. intros E. symmetry in E. revert E. apply Hj. lia.
Qed.

(** The cell written by a push survives as many further pushes as leave
    the cursor short of it: up to [size - 1]. *)
Lemma push_survives x xs d :
  DelayLine_ok d -> (Z.of_nat (length xs) < size d)%Z ->
  buffer (push_all xs (push x d)) !! Z.to_nat (writePos d) = Some x.
Proof.
  intros Hok Hlen.
  rewrite push_all_untouched.
  - destruct Hok as (Hs & Hb & Hl & Hw). unfold push. cbn [buffer].
    apply list_lookup_insert_eq. lia.
  - by apply push_ok.
  - intros i Hi. rewrite push_writePos by done. cbn [size push].
    destruct Hok as (Hs & Hb & Hl & Hw).
    rewrite Zplus_mod_idemp_l. intros E.
    apply Z2Nat.inj in E; [|lia|apply Z.mod_pos_bound; lia].
    destruct (Z_lt_ge_dec (writePos d + 1 + i) (size d)) as [Hc|Hc].
    + rewrite Z.mod_small in E by lia. lia.
    + replace (writePos d + 1 + i)%Z with ((writePos d + 1 + i - size d) + 1 * size d)%Z in E by lia.
      rewrite Z.mod_add in E by lia. rewrite Z.mod_small in E by lia. lia.
Qed.

(** X10.  A freshly built line is a pure delay: for an offset [k] with
    [1 <= k <= size - 1], what [read k] returns after the samples [xs] have
    been pushed is the next sample of [xs] preceded by [k] zeros, that is
    0 until [k] samples have gone in and the sample pushed [k] pushes ago
    from then on, however often the cursor has wrapped. *)
Theorem fresh_line_delays_the_stream_by_k (cap : Z) (xs : list Q) (k : Z) :
  (0 < cap)%Z -> (4 * cap < 2 ^ 64)%Z -> (1 <= k <= cap - 1)%Z ->
  read (push_all xs (DelayLine_new cap)) k =
  default 0 ((replicate (Z.to_nat k) 0 ++ xs) !! length xs).
Proof.
  intros H0 H1 Hk.
  pose proof (DelayLine_new_ok cap H0 H1) as Hok0.
  set (N := length xs).
  destruct (le_lt_dec (Z.to_nat k) N) as [Hc|Hc].
  - (* the sample pushed k pushes ago *)
    rewrite lookup_app_r by (rewrite length_replicate; lia).
    rewrite length_replicate.
    assert (Hsplit : exists pre x post, xs = pre ++ x :: post /\
              length pre = (N - Z.to_nat k)%nat /\ Z.of_nat (length post) = (k - 1)%Z).
    { destruct (lookup_lt_is_Some_2 xs (N - Z.to_nat k)%nat) as [x Hx]; [subst N; lia|].
      exists (take (N - Z.to_nat k)%nat xs), x, (drop (Datatypes.S (N - Z.to_nat k)%nat) xs).
      split; [by rewrite take_drop_middle|].
      rewrite length_take, length_drop. subst N. lia. }
    destruct Hsplit as (pre & x & post & -> & Hpre & Hpost).
    rewrite <- Hpre, list_lookup_middle by done. cbn [default from_option id].
    unfold push_all. rewrite foldl_app. cbn [foldl]. fold (push_all pre (DelayLine_new cap)).
    set (d := push_all pre (DelayLine_new cap)).
    fold (push_all post (push x d)).
    assert (Hok : DelayLine_ok d) by by apply push_all_ok.
    assert (Hsz : size d = cap) by (subst d; by rewrite push_all_size).
    assert (Hok' : DelayLine_ok (push_all post (push x d))) by by apply push_all_ok, push_ok.
    rewrite read_in_range; [|done|rewrite push_all_size; cbn [size push]; lia].
    rewrite push_all_writePos by by apply push_ok.
    rewrite push_writePos by done. rewrite push_all_size. cbn [size push].
    rewrite Zplus_mod_idemp_l, Zminus_mod_idemp_l, Hpost.
    replace (writePos d + 1 + (k - 1) - k)%Z with (writePos d) by lia.
    pose proof Hok as (Hs & Hb & Hl & Hw). rewrite Z.mod_small by lia.
    rewrite push_survives; [done|done|lia].
  - (* nothing has been pushed that long ago *)
    rewrite lookup_app_l by (rewrite length_replicate; lia).
    rewrite lookup_replicate_2 by lia. cbn [default from_option id].
    assert (Hok : DelayLine_ok (push_all xs (DelayLine_new cap))) by by apply push_all_ok.
    rewrite read_in_range; [|done|rewrite push_all_size; cbn [size DelayLine_new]; lia].
    rewrite push_all_writePos, push_all_size by done.
    cbn [size writePos DelayLine_new]. fold N.
    rewrite Z.add_0_l, Zminus_mod_idemp_l.
    replace (Z.of_nat N - k)%Z with ((Z.of_nat N - k + cap) + (-1) * cap)%Z by lia.
    rewrite Z.mod_add by lia. rewrite Z.mod_small by lia.
    rewrite push_all_untouched; [|done|].
    + cbn [buffer DelayLine_new]. rewrite lookup_replicate_2 by lia. done.
    + intros i Hi. cbn [size writePos DelayLine_new]. rewrite Z.add_0_l.
      fold N in Hi. rewrite Z.mod_small by lia. lia.
Qed.

Lemma fresh_line_witness :
  read (push_all [1; 2; 3; 4; 5; 6] (DelayLine_new 4)) 2 =
  default 0 ((replicate (Z.to_nat 2) 0 ++ [1; 2; 3; 4; 5; 6]) !! length [1; 2; 3; 4; 5; 6]).
Proof.
  apply (fresh_line_delays_the_stream_by_k 4 [1; 2; 3; 4; 5; 6] 2); lia.
Defined.

(** X11.  Offset 0 does not read the latest sample: once a line has taken
    [size] pushes, [read 0] returns the oldest of them, the cell the next
    push overwrites. *)
Theorem zero_offset_reads_one_full_turn_back (d : DelayLine) (x : Q) (xs : list Q) :
  DelayLine_ok d ->
  Z.of_nat (length xs) = (size d - 1)%Z ->
  read (push_all xs (push x d)) 0 = x.
Proof.
  intros Hok Hlen.
  assert (Hok' : DelayLine_ok (push_all xs (push x d))) by by apply push_all_ok, push_ok.
  rewrite read_in_range; [|done|rewrite push_all_size; cbn [size push]; destruct Hok; lia].
  rewrite push_all_writePos by by apply push_ok.
  rewrite push_writePos by done. rewrite push_all_size. cbn [size push].
  rewrite Zplus_mod_idemp_l, Z.sub_0_r, Z.mod_mod by (destruct Hok; lia). rewrite Hlen.
  replace (writePos d + 1 + (size d - 1))%Z with (writePos d + 1 * size d)%Z by lia.
  pose proof Hok as (Hs & Hb & Hl & Hw).
  rewrite Z.mod_add by lia. rewrite Z.mod_small by lia.
  rewrite push_survives; [done|done|lia].
Qed.

Lemma zero_offset_witness :
  read (push_all [2; 3; 4] (push 1 (DelayLine_new 4))) 0 = 1.
Proof.
  apply (zero_offset_reads_one_full_turn_back (DelayLine_new 4) 1 [2; 3; 4]).
  - apply DelayLine_new_ok; lia.
  - reflexivity.
Defined.

(** X12.  [read] never leaves the buffer: an offset of [size] or more is
    read as [size - 1], and the value returned is the content of a cell
    with an index in [[0, size)]. *)
Theorem read_clamps_the_offset_and_stays_inside (d : DelayLine) (delay : Z) :
  DelayLine_ok d -> (0 <= delay < 2 ^ 64)%Z ->
  let k := Z.min delay (size d - 1) in
  let j := ((writePos d - k) mod size d)%Z in
  (0 <= j < size d)%Z /\
  buffer d !! Z.to_nat j = Some (read d delay) /\
  read d delay = read d k.
Proof.
  intros Hok Hd k j.
  assert (Hk : (0 <= k < size d)%Z) by (destruct Hok; subst k; lia).
  assert (E : read d delay = read d k).
  { unfold read. destruct Hok as (Hs & Hb & Hl & Hw).
    destruct (Z.leb_spec (size d) delay) as [Hc|Hc];
    destruct (Z.leb_spec (size d) k) as [Hc'|Hc']; try lia.
    - cbv zeta. rewrite (wrap64_small (size d - 1)) by lia.
      subst k. by rewrite Z.min_r by lia.
    - subst k. by rewrite Z.min_l by lia. }
  assert (Hj : (0 <= j < size d)%Z) by (subst j; apply Z.mod_pos_bound; destruct Hok; lia).
  split; [done|]. split; [|done].
  rewrite E, read_in_range by done. fold j.
  destruct (lookup_lt_is_Some_2 (buffer d) (Z.to_nat j)) as [v Hv].
  { destruct Hok as (Hs & Hb & Hl & Hw). rewrite Hl. lia. }
  by rewrite Hv.
Qed.

Lemma read_clamps_witness :
  let d := push_all [1; 2; 3] (DelayLine_new 4) in
  let k := Z.min 9 (size d - 1) in
  let j := ((writePos d - k) mod size d)%Z in
  (0 <= j < size d)%Z /\
  buffer d !! Z.to_nat j = Some (read d 9) /\
  read d 9 = read d k.
Proof.
  apply (read_clamps_the_offset_and_stays_inside (push_all [1; 2; 3] (DelayLine_new 4)) 9).
  - apply push_all_ok, DelayLine_new_ok; lia.
  - lia.
Defined.

End DelayLineBehaviour.

(** ** StereoEffects.cpp: the reverb as built and the effect chain *)

Module EffectChainBehaviour.
Import StereoEffects DelayLineFacts DelayLineBehaviour.

(** One tap of the constructor: with an integer base delay [b >= 1] and a
    multiplier [c] in [[1, 4]], the line is allocated strictly longer than
    the offset it is read at. *)
Lemma tap_well_formed (b : Z) (c : Q) :
  (1 <= b <= 30000)%Z -> 1 <= c -> c <= 4 ->
  let t := ofZ b * c in
  let d := DelayLine_new (wrap64 (Qtrunc (t * 2.0))) in
  DelayLine_ok d /\ (1 <= wrap64 (Qtrunc t) < size d)%Z.
Proof.
  intros Hb Hc0 Hc1 t d.
  assert (Hb1 : 1 <= ofZ b) by (unfold ofZ; change 1 with (inject_Z 1); rewrite <- Zle_Qle; lia).
  assert (Hb2 : ofZ b <= 30000)
    by (unfold ofZ; change 30000 with (inject_Z 30000); rewrite <- Zle_Qle; lia).
  assert (Ht1 : 1 <= t).
  { subst t. assert (0 <= (ofZ b - 1) * c) by (apply Qmult_le_0_compat; lra).
    assert (E : ofZ b * c == (ofZ b - 1) * c + c) by ring. lra. }
  assert (Ht2 : t <= 120000).
  { subst t. assert (0 <= (30000 - ofZ b) * c) by (apply Qmult_le_0_compat; lra).
    assert (E : ofZ b * c == 30000 * c - (30000 - ofZ b) * c) by ring. lra. }
  destruct (Qtrunc_bounds t) as [_ Ha]. destruct (Qtrunc_nonneg t ltac:(lra)) as [Ha0 Ha1].
  destruct (Qtrunc_bounds (t * 2.0)) as [_ Hd].
  destruct (Qtrunc_nonneg (t * 2.0) ltac:(lra)) as [Hd0 Hd1].
  assert (H1 : (1 <= Qtrunc t)%Z).
  { assert (0 < Qtrunc t)%Z; [|lia]. rewrite Zlt_Qlt. change (inject_Z 0) with 0. lra. }
  assert (H2 : (Qtrunc t < Qtrunc (t * 2.0))%Z) by (rewrite Zlt_Qlt; lra).
  assert (H3 : (Qtrunc (t * 2.0) <= 240000)%Z).
  { rewrite Zle_Qle. change (inject_Z 240000) with 240000. lra. }
  rewrite (wrap64_small (Qtrunc t)) by lia.
  subst d. rewrite (wrap64_small (Qtrunc (t * 2.0))) by lia.
  split; [apply DelayLine_new_ok; lia|]. cbn [size DelayLine_new]. lia.
Qed.

(** X13.  For sample rates from 100/3 Hz to 768 kHz the constructor builds
    eight lines, each well formed and strictly longer than the offset it
    is read at, which is at least 1: no tap of the reverb is clamped by
    [read]. *)
Theorem reverb_lines_are_longer_than_their_taps (sr : Q) :
  100 # 3 <= sr -> sr <= 768000 ->
  let r := SimpleReverb_new sr in
  length (delays r) = NUM_DELAYS /\ length (delayTimes r) = NUM_DELAYS /\
  Forall2 (fun d t => DelayLine_ok d /\ (1 <= wrap64 (Qtrunc t) < size d)%Z)
    (delays r) (delayTimes r).
Proof.
  intros H0 H1. cbv zeta. unfold SimpleReverb_new. cbn [delays delayTimes map length].
  split; [done|]. split; [done|].
  set (b := Qtrunc (sr * 0.03)).
  assert (Hb : (1 <= b <= 30000)%Z).
  { destruct (Qtrunc_bounds (sr * 0.03)) as [_ Ha].
    destruct (Qtrunc_nonneg (sr * 0.03) ltac:(lra)) as [Ha0 Ha1]. fold b in Ha, Ha0, Ha1.
    split.
    - assert (0 < b)%Z; [|lia]. rewrite Zlt_Qlt. change (inject_Z 0) with 0. lra.
    - rewrite Zle_Qle. change (inject_Z 30000) with 30000. lra. }
  repeat (constructor; [apply (tap_well_formed b); [exact Hb|lra|lra]|]).
  constructor.
Qed.

Lemma reverb_lines_witness :
  let r := SimpleReverb_new 48000 in
  length (delays r) = NUM_DELAYS /\ length (delayTimes r) = NUM_DELAYS /\
  Forall2 (fun d t => DelayLine_ok d /\ (1 <= wrap64 (Qtrunc t) < size d)%Z)
    (delays r) (delayTimes r).
Proof.
  apply (reverb_lines_are_longer_than_their_taps 48000); lra.
Defined.

(** X14.  With the three effects switched off the module is a gain stage:
    each output is the channel's input (the other jack's when only that
    one is patched) times the level, the lights are off, and neither the
    delay lines, the echo lines nor an existing reverb are touched. *)
Theorem all_effects_off_is_a_gain_stage (i : Inputs) (m : Module_) :
  DELAY_ENABLE_PARAM i <= 0.5 -> REVERB_ENABLE_PARAM i <= 0.5 -> ECHO_ENABLE_PARAM i <= 0.5 ->
  let o := (process i m).1 in
  let m' := (process i m).2 in
  let inL := if leftConnected i then leftVoltage i / 10
             else if rightConnected i then rightVoltage i / 10 else 0 in
  let inR := if rightConnected i then rightVoltage i / 10
             else if leftConnected i then leftVoltage i / 10 else 0 in
  LEFT_OUTPUT o = inL * LEVEL_PARAM i * 10 /\
  RIGHT_OUTPUT o = inR * LEVEL_PARAM i * 10 /\
  DELAY_LIGHT o = 0 /\ REVERB_LIGHT o = 0 /\ ECHO_LIGHT o = 0 /\
  delayLineL m' = delayLineL m /\ delayLineR m' = delayLineR m /\
  echoLineL m' = echoLineL m /\ echoLineR m' = echoLineR m /\
  (forall p, reverbLR m = Some p -> reverbLR m' = Some p).
Proof.
  intros Hd Hr He. cbv zeta. unfold process.
  rewrite (proj2 (Qltb_false _ _) Hd), (proj2 (Qltb_false _ _) Hr), (proj2 (Qltb_false _ _) He).
  destruct (reverbLR m) as [[rL rR]|];
    destruct (leftConnected i), (rightConnected i);
    cbn [fst snd negb andb LEFT_OUTPUT RIGHT_OUTPUT DELAY_LIGHT REVERB_LIGHT ECHO_LIGHT
         delayLineL delayLineR echoLineL echoLineR reverbLR];
    repeat split; try done; intros p Hp; by inversion Hp.
Qed.

Lemma all_effects_off_witness :
  let i := {| sampleRate := 48000; leftConnected := true; rightConnected := false;
              leftVoltage := 5; rightVoltage := 0; LEVEL_PARAM := 2;
              DELAY_ENABLE_PARAM := 0; DELAY_TIME_PARAM := 0.3; DELAY_FEEDBACK_PARAM := 0.3;
              REVERB_ENABLE_PARAM := 0; REVERB_SIZE_PARAM := 0.5; REVERB_DAMPING_PARAM := 0.5;
              ECHO_ENABLE_PARAM := 0; ECHO_TIME_PARAM := 0.2; ECHO_FEEDBACK_PARAM := 0.4 |} in
  LEFT_OUTPUT (process i Module_new).1 = 5 / 10 * 2 * 10 /\
  RIGHT_OUTPUT (process i Module_new).1 = 5 / 10 * 2 * 10.
Proof.
  cbv zeta.
  set (i := {| sampleRate := 48000; leftConnected := true; rightConnected := false;
              leftVoltage := 5; rightVoltage := 0; LEVEL_PARAM := 2;
              DELAY_ENABLE_PARAM := 0; DELAY_TIME_PARAM := 0.3; DELAY_FEEDBACK_PARAM := 0.3;
              REVERB_ENABLE_PARAM := 0; REVERB_SIZE_PARAM := 0.5; REVERB_DAMPING_PARAM := 0.5;
              ECHO_ENABLE_PARAM := 0; ECHO_TIME_PARAM := 0.2; ECHO_FEEDBACK_PARAM := 0.4 |}).
  destruct (all_effects_off_is_a_gain_stage i Module_new) as (HL & HR & _).
  - vm_compute. discriminate.
  - vm_compute. discriminate.
  - vm_compute. discriminate.
  - split; [exact HL | exact HR].
Defined.

Lemma process_balanced i m :
  same_feed i -> balanced m ->
  LEFT_OUTPUT (process i m).1 = RIGHT_OUTPUT (process i m).1 /\ balanced (process i m).2.
Proof.
  intros Hf (Hd & He & Hr). unfold balanced, process.
  assert (Hin :
    (if rightConnected i && negb (leftConnected i)
     then (if leftConnected i && negb (rightConnected i)
           then (if leftConnected i then leftVoltage i / 10 else 0)
           else (if rightConnected i then rightVoltage i / 10 else 0))
     else (if leftConnected i then leftVoltage i / 10 else 0)) =
    (if leftConnected i && negb (rightConnected i)
     then (if leftConnected i then leftVoltage i / 10 else 0)
     else (if rightConnected i then rightVoltage i / 10 else 0))).
  { unfold same_feed in Hf.
    destruct (leftConnected i), (rightConnected i); cbn [andb negb]; try done.
    by rewrite Hf. }
  cbv zeta. rewrite Hin. rewrite <- Hd, <- He.
  set (x := if leftConnected i && negb (rightConnected i) then _ else _).
  assert (Hrev : exists rL,
     (match reverbLR m with
      | Some p => p
      | None => (SimpleReverb_new (sampleRate i), SimpleReverb_new (sampleRate i))
      end) = (rL, rL)).
  { destruct (reverbLR m) as [[rL rR]|]; [subst; by eexists|by eexists]. }
  destruct Hrev as [r ->].
  destruct (Qltb 0.5 (DELAY_ENABLE_PARAM i));
    destruct (Qltb 0.5 (REVERB_ENABLE_PARAM i));
    try destruct (reverb_channel _ _ _ r) as [oL rL1];
    destruct (Qltb 0.5 (ECHO_ENABLE_PARAM i));
    cbn [fst snd LEFT_OUTPUT RIGHT_OUTPUT delayLineL delayLineR echoLineL echoLineR reverbLR];
    done.
Qed.

(** X15.  Equal feeds give equal channels: started with the same state on
    both sides (as the constructor leaves it) and fed the same sample on
    both sides at every step (one jack patched, none, or both at the same
    voltage), the module puts out the same voltage left and right at
    every step, whatever the effect settings. *)
Theorem equal_feeds_give_equal_channels (is_ : list Inputs) : forall m,
  balanced m -> Forall same_feed is_ ->
  Forall (fun o => LEFT_OUTPUT o = RIGHT_OUTPUT o) (run is_ m).1 /\
  balanced (run is_ m).2.
Proof.
  induction is_ as [|i is_ IH]; intros m Hm Hf.
  - by split; [constructor|].
  - inversion Hf as [|? ? Hi Hrest]; subst.
    destruct (process_balanced i m Hi Hm) as [Ho Hm'].
    cbn [run]. destruct (process i m) as [o m1]. cbn [fst snd] in Ho, Hm'.
    destruct (IH m1 Hm' Hrest) as [Hos Hm2].
    destruct (run is_ m1) as [os m2]. cbn [fst snd] in *.
    split; [by constructor|done].
Qed.

Lemma equal_feeds_witness :
  Forall (fun o => LEFT_OUTPUT o = RIGHT_OUTPUT o)
    (run [example_inputs; example_inputs] Module_new).1 /\
  balanced (run [example_inputs; example_inputs] Module_new).2.
Proof.
  apply (equal_feeds_give_equal_channels [example_inputs; example_inputs] Module_new).
  - repeat split.
  - repeat constructor; intros H; discriminate H.
Defined.

End EffectChainBehaviour.

(** ** ChordPadSynth.cpp and ChordPluckSynth.cpp: the envelope segments *)

Module EnvelopeBehaviour.
Import ADSR Envelope ADSRFacts.

Lemma ofnat_succ (n : nat) : inject_Z (Z.of_nat (S n)) == inject_Z (Z.of_nat n) + 1.
Proof. rewrite Nat2Z.inj_succ, <- Z.add_1_r, inject_Z_plus. reflexivity. Qed.

Lemma iter_process_succ dt n e :
  Nat.iter (S n) (process dt) e = Nat.iter n (process dt) (process dt e).
Proof. apply Nat.iter_succ_r. Qed.

Lemma idle_stays dt n : forall e,
  state e = IDLE -> output e = 0 ->
  state (Nat.iter n (process dt) e) = IDLE /\ output (Nat.iter n (process dt) e) = 0.
Proof.
  induction n as [|n IH]; intros e Hs Ho; [done|].
  rewrite iter_process_succ. apply IH; unfold process; by rewrite Hs.
Qed.

(** X16.  The attack is a linear ramp: from [ATTACK] below the peak, with
    step [dt / attack], the output after [j] steps is
    [output + j * dt / attack] until that would reach 1; the step that
    reaches it leaves the output at exactly 1 and the state [DECAY].  It
    comes within any [n] steps that suffice for the ramp. *)
Theorem attack_is_a_linear_ramp_to_the_peak (dt : Q) (n : nat) : forall e,
  state e = ATTACK -> 0 < dt -> 0 < attack e -> output e < 1 ->
  1 <= output e + inject_Z (Z.of_nat n) * (dt / attack e) ->
  exists k, (1 <= k <= n)%nat /\
    state (Nat.iter k (process dt) e) = DECAY /\
    output (Nat.iter k (process dt) e) = 1 /\
    forall j, (j < k)%nat ->
      state (Nat.iter j (process dt) e) = ATTACK /\
      output (Nat.iter j (process dt) e) == output e + inject_Z (Z.of_nat j) * (dt / attack e).
Proof.
  induction n as [|n IH]; intros e Hs Hdt Ha Ho Hn.
  - change (inject_Z (Z.of_nat 0)) with 0 in Hn. lra.
  - rewrite ofnat_succ in Hn.
    destruct (Qleb_cases 1 (output e + dt / attack e)) as [[E Hc]|[E Hc]].
    + exists 1%nat. split; [lia|]. cbn [Nat.iter nat_rect]. unfold process. rewrite Hs.
      cbv zeta. rewrite E. cbn [state output with_state with_output].
      split; [done|]. split; [done|].
      intros j Hj. assert (j = 0%nat) as -> by lia. cbn [Nat.iter nat_rect].
      split; [done|]. change (inject_Z (Z.of_nat 0)) with 0. ring.
    + assert (Hstep : process dt e = with_output (output e + dt / attack e) e).
      { unfold process. rewrite Hs. cbv zeta. by rewrite E. }
      destruct (IH (process dt e)) as (k & Hk & Hst & Hout & Hbefore);
        rewrite ?Hstep; cbn [state output attack with_output]; try done; try lra.
      exists (S k). split; [lia|]. rewrite iter_process_succ.
      split; [done|]. split; [done|].
      intros j Hj. destruct j as [|j].
      * cbn [Nat.iter nat_rect]. split; [done|]. change (inject_Z (Z.of_nat 0)) with 0. ring.
      * rewrite iter_process_succ. destruct (Hbefore j ltac:(lia)) as [Hsj Hoj].
        split; [done|]. rewrite Hoj, Hstep. cbn [output attack with_output].
        rewrite ofnat_succ. ring.
Qed.

Lemma attack_witness :
  exists k, (1 <= k <= 10)%nat /\
    state (Nat.iter k (process (1 # 1000)) (ChordPadSynth.gate true (1 # 1000) (init Pad))) = DECAY /\
    output (Nat.iter k (process (1 # 1000)) (ChordPadSynth.gate true (1 # 1000) (init Pad))) = 1 /\
    forall j, (j < k)%nat ->
      state (Nat.iter j (process (1 # 1000)) (ChordPadSynth.gate true (1 # 1000) (init Pad))) = ATTACK /\
      output (Nat.iter j (process (1 # 1000)) (ChordPadSynth.gate true (1 # 1000) (init Pad))) ==
        output (ChordPadSynth.gate true (1 # 1000) (init Pad)) +
        inject_Z (Z.of_nat j) * ((1 # 1000) / attack (ChordPadSynth.gate true (1 # 1000) (init Pad))).
Proof.
  apply (attack_is_a_linear_ramp_to_the_peak (1 # 1000) 10
           (ChordPadSynth.gate true (1 # 1000) (init Pad))).
  - reflexivity.
  - reflexivity.
  - reflexivity.
  - reflexivity.
  - vm_compute. discriminate.
Defined.

(** X17.  The decay is a linear ramp down to the sustain level: from
    [DECAY] above it the output falls by [dt / decay] per step, and the
    step that would reach or pass the sustain level leaves the output at
    exactly that level and the state [SUSTAIN]. *)
Theorem decay_is_a_linear_ramp_to_the_sustain_level (dt : Q) (n : nat) : forall e,
  state e = DECAY -> 0 < dt -> 0 < decay e -> sustain e < output e ->
  output e - inject_Z (Z.of_nat n) * (dt / decay e) <= sustain e ->
  exists k, (1 <= k <= n)%nat /\
    state (Nat.iter k (process dt) e) = SUSTAIN /\
    output (Nat.iter k (process dt) e) = sustain e /\
    forall j, (j < k)%nat ->
      state (Nat.iter j (process dt) e) = DECAY /\
      output (Nat.iter j (process dt) e) == output e - inject_Z (Z.of_nat j) * (dt / decay e).
Proof.
  induction n as [|n IH]; intros e Hs Hdt Ha Ho Hn.
  - change (inject_Z (Z.of_nat 0)) with 0 in Hn. lra.
  - rewrite ofnat_succ in Hn.
    destruct (Qleb_cases (output e - dt / decay e) (sustain e)) as [[E Hc]|[E Hc]].
    + exists 1%nat. split; [lia|]. cbn [Nat.iter nat_rect]. unfold process. rewrite Hs.
      cbv zeta. rewrite E. cbn [state output sustain with_state with_output].
      split; [done|]. split; [done|].
      intros j Hj. assert (j = 0%nat) as -> by lia. cbn [Nat.iter nat_rect].
      split; [done|]. change (inject_Z (Z.of_nat 0)) with 0. ring.
    + assert (Hstep : process dt e = with_output (output e - dt / decay e) e).
      { unfold process. rewrite Hs. cbv zeta. by rewrite E. }
      destruct (IH (process dt e)) as (k & Hk & Hst & Hout & Hbefore);
        rewrite ?Hstep; cbn [state output decay sustain with_output]; try done; try lra.
      exists (S k). split; [lia|]. rewrite iter_process_succ.
      split; [done|]. split; [by rewrite Hout, Hstep|].
      intros j Hj. destruct j as [|j].
      * cbn [Nat.iter nat_rect]. split; [done|]. change (inject_Z (Z.of_nat 0)) with 0. ring.
      * rewrite iter_process_succ. destruct (Hbefore j ltac:(lia)) as [Hsj Hoj].
        split; [done|]. rewrite Hoj, Hstep. cbn [output decay with_output].
        rewrite ofnat_succ. ring.
Qed.

Lemma decay_witness :
  let e := Nat.iter 10 (process (1 # 1000)) (ChordPadSynth.gate true (1 # 1000) (init Pad)) in
  exists k, (1 <= k <= 30)%nat /\
    state (Nat.iter k (process (1 # 1000)) e) = SUSTAIN /\
    output (Nat.iter k (process (1 # 1000)) e) = sustain e /\
    forall j, (j < k)%nat ->
      state (Nat.iter j (process (1 # 1000)) e) = DECAY /\
      output (Nat.iter j (process (1 # 1000)) e) ==
        output e - inject_Z (Z.of_nat j) * ((1 # 1000) / decay e).
Proof.
  apply (decay_is_a_linear_ramp_to_the_sustain_level (1 # 1000) 30
           (Nat.iter 10 (process (1 # 1000)) (ChordPadSynth.gate true (1 # 1000) (init Pad)))).
  - vm_compute. reflexivity.
  - reflexivity.
  - vm_compute. reflexivity.
  - vm_compute. reflexivity.
  - vm_compute. discriminate.
Defined.

(** X18.  The release is a linear ramp to silence at a slope fixed by the
    release time, so its duration is proportional to the level it starts
    from: the output falls by [dt / release] per step, the step that would
    reach 0 leaves exactly 0 and the state [IDLE], and the envelope then
    stays idle and silent. *)
Theorem release_is_a_linear_ramp_to_silence (dt : Q) (n : nat) : forall e,
  state e = RELEASE -> 0 < dt -> 0 < release e -> 0 < output e ->
  output e <= inject_Z (Z.of_nat n) * (dt / release e) ->
  exists k, (1 <= k <= n)%nat /\
    (forall j, (j < k)%nat ->
      state (Nat.iter j (process dt) e) = RELEASE /\
      output (Nat.iter j (process dt) e) == output e - inject_Z (Z.of_nat j) * (dt / release e)) /\
    (forall j, (k <= j)%nat ->
      state (Nat.iter j (process dt) e) = IDLE /\ output (Nat.iter j (process dt) e) = 0).
Proof.
  induction n as [|n IH]; intros e Hs Hdt Ha Ho Hn.
  - change (inject_Z (Z.of_nat 0)) with 0 in Hn. lra.
  - rewrite ofnat_succ in Hn.
    destruct (Qleb_cases (output e - dt / release e) 0) as [[E Hc]|[E Hc]].
    + exists 1%nat. split; [lia|].
      assert (Hstep : process dt e = with_state IDLE (with_output 0 e)).
      { unfold process. rewrite Hs. cbv zeta. by rewrite E. }
      split.
      * intros j Hj. assert (j = 0%nat) as -> by lia. cbn [Nat.iter nat_rect].
        split; [done|]. change (inject_Z (Z.of_nat 0)) with 0. ring.
      * intros j Hj. destruct j as [|j]; [lia|]. rewrite iter_process_succ.
        apply idle_stays; by rewrite Hstep.
    + assert (Hstep : process dt e = with_output (output e - dt / release e) e).
      { unfold process. rewrite Hs. cbv zeta. by rewrite E. }
      destruct (IH (process dt e)) as (k & Hk & Hbefore & Hafter);
        rewrite ?Hstep; cbn [state output release with_output]; try done; try lra.
      exists (S k). split; [lia|]. split.
      * intros j Hj. destruct j as [|j].
        -- cbn [Nat.iter nat_rect]. split; [done|]. change (inject_Z (Z.of_nat 0)) with 0. ring.
        -- rewrite iter_process_succ. destruct (Hbefore j ltac:(lia)) as [Hsj Hoj].
           split; [done|]. rewrite Hoj, Hstep. cbn [output release with_output].
           rewrite ofnat_succ. ring.
      * intros j Hj. destruct j as [|j]; [lia|]. rewrite iter_process_succ.
        apply Hafter. lia.
Qed.

Lemma release_witness :
  let e := ChordPadSynth.gate false (1 # 1000)
             (Nat.iter 5 (process (1 # 1000)) (ChordPadSynth.gate true (1 # 1000) (init Pad))) in
  exists k, (1 <= k <= 100)%nat /\
    (forall j, (j < k)%nat ->
      state (Nat.iter j (process (1 # 1000)) e) = RELEASE /\
      output (Nat.iter j (process (1 # 1000)) e) ==
        output e - inject_Z (Z.of_nat j) * ((1 # 1000) / release e)) /\
    (forall j, (k <= j)%nat ->
      state (Nat.iter j (process (1 # 1000)) e) = IDLE /\
      output (Nat.iter j (process (1 # 1000)) e) = 0).
Proof.
  apply (release_is_a_linear_ramp_to_silence (1 # 1000) 100
           (ChordPadSynth.gate false (1 # 1000)
              (Nat.iter 5 (process (1 # 1000)) (ChordPadSynth.gate true (1 # 1000) (init Pad))))).
  - vm_compute. reflexivity.
  - reflexivity.
  - vm_compute. reflexivity.
  - vm_compute. reflexivity.
  - vm_compute. discriminate.
Defined.

Lemma call_keeps_sounding v c e :
  no_gate_off c ->
  (state e <> RELEASE -> state (call v e c) <> RELEASE) /\
  (state e <> RELEASE -> state e <> IDLE -> state (call v e c) <> IDLE).
Proof.
  intros Hc. destruct c as [a|d|s|r|on dt|dt]; cbn [call no_gate_off] in *;
    try (split; intros; assumption).
  - subst on. destruct v; cbn [gate]; unfold ChordPadSynth.gate, ChordPluckSynth.gate;
      destruct (state e) eqn:E; cbn [andb negb State_eqb state with_state with_output];
      rewrite ?E; split; intros; congruence.
  - unfold process. destruct (state e) eqn:E; cbv zeta;
      repeat match goal with |- context [if ?b then _ else _] => destruct b end;
      cbn [state with_state with_output]; rewrite ?E; split; intros; congruence.
Qed.

(** X19.  Without a gate-off there is no release: in both envelopes, a
    sequence of setter calls, gate-on events and [process] steps started
    outside [RELEASE] never reaches [RELEASE], and once the envelope has
    left [IDLE] it never returns to it.  (Both synths only ever call
    [gate(true, _)].) *)
Theorem without_gate_off_a_note_never_ends (v : Variant) (cs : list Call) : forall e,
  Forall no_gate_off cs -> state e <> RELEASE ->
  state (run v e cs) <> RELEASE /\
  (state e <> IDLE -> state (run v e cs) <> IDLE).
Proof.
  induction cs as [|c cs IH]; intros e Hcs He; [done|].
  inversion Hcs as [|? ? Hc Hrest]; subst.
  destruct (call_keeps_sounding v c e Hc) as [H1 H2].
  change (run v e (c :: cs)) with (run v (call v e c) cs).
  destruct (IH (call v e c) Hrest (H1 He)) as [H3 H4].
  split; [done|]. intros Hi. apply H4. by apply H2.
Qed.

Lemma no_release_witness :
  let e := ChordPadSynth.gate true (1 # 1000) (init Pad) in
  let cs := [Process (1 # 1000); Gate true (1 # 1000); Process (1 # 1000)] in
  state (run Pad e cs) <> RELEASE /\ (state e <> IDLE -> state (run Pad e cs) <> IDLE).
Proof.
  apply (without_gate_off_a_note_never_ends Pad
           [Process (1 # 1000); Gate true (1 # 1000); Process (1 # 1000)]
           (ChordPadSynth.gate true (1 # 1000) (init Pad))).
  - repeat constructor.
  - discriminate.
Defined.

End EnvelopeBehaviour.

(** ** ChordPadSynth.cpp and ChordPluckSynth.cpp: the gate-on policy *)

Module GatePolicy.
Import ADSR Envelope ADSRFacts EnvelopeBehaviour.





End GatePolicy.

(** ** ChordPadSynth.cpp: the oscillator voice *)

Module PadVoiceBehaviour.
Import ReverbFacts ChordPadSynth.

Section Glide.

Variable sinf : Q -> Q.
Variable M_PI : Q.

Lemma generate_fields dt v :
  active v = true ->
  let v' := (generate sinf M_PI dt v).2 in
  active v' = true /\ targetFrequency v' = targetFrequency v /\ waveform v' = waveform v /\
  frequency v' =
    (if Qltb 0.1 (fabs (frequency v - targetFrequency v))
     then frequency v + (targetFrequency v - frequency v) * FREQ_SMOOTH
     else targetFrequency v).
Proof. intros Ha. unfold generate. rewrite Ha. cbn [negb snd active targetFrequency waveform frequency]. done. Qed.

Lemma glide_step dt v :
  active v = true ->
  let e := frequency v - targetFrequency v in
  let e' := frequency (generate sinf M_PI dt v).2 - targetFrequency v in
  (Qabs e <= 0.1 -> frequency (generate sinf M_PI dt v).2 = targetFrequency v) /\
  (0.1 < Qabs e -> e' == 0.99 * e) /\
  Qabs e' <= 0.99 * Qabs e.
Proof.
  intros Ha. cbv zeta.
  destruct (generate_fields dt v Ha) as (_ & _ & _ & ->). unfold fabs, FREQ_SMOOTH.
  pose proof (Qabs_nonneg (frequency v - targetFrequency v)) as Hn.
  destruct (Qltb_cases 0.1 (Qabs (frequency v - targetFrequency v))) as [[-> H]|[-> H]].
  - split; [lra|].
    assert (E : frequency v + (targetFrequency v - frequency v) * 0.01 - targetFrequency v
                == 0.99 * (frequency v - targetFrequency v)) by ring.
    split; [done|]. rewrite E, Qabs_Qmult. change (Qabs 0.99) with 0.99. lra.
  - split; [done|]. split; [lra|].
    assert (E : targetFrequency v - targetFrequency v == 0) by ring.
    rewrite E. change (Qabs 0) with 0. lra.
Qed.

Lemma generate_n_succ n dt v :
  generate_n sinf M_PI (S n) dt v = (generate sinf M_PI dt (generate_n sinf M_PI n dt v)).2.
Proof. reflexivity. Qed.

Lemma generate_n_fields n dt v :
  active v = true ->
  active (generate_n sinf M_PI n dt v) = true /\
  targetFrequency (generate_n sinf M_PI n dt v) = targetFrequency v.
Proof.
  intros Ha. induction n as [|n [IH1 IH2]]; [done|].
  rewrite generate_n_succ.
  destruct (generate_fields dt _ IH1) as (H1 & H2 & _). cbv zeta in *.
  by rewrite H1, H2.
Qed.

Lemma pow99_succ n :
  (99 # 100) ^ Z.of_nat (S n) == (99 # 100) * (99 # 100) ^ Z.of_nat n.
Proof.
  rewrite Nat2Z.inj_succ, <- Z.add_1_l.
  rewrite Qpower_plus by discriminate. reflexivity.
Qed.

Lemma pow99_pos n : 0 < (99 # 100) ^ Z.of_nat n.
Proof. apply Qpower_0_lt. reflexivity. Qed.

(** X27.  The frequency glide of an active voice closes in on the target
    without overshoot: after [n] calls of [generate] the distance to the
    target is at most [0.99^n] times the initial one and the frequency is
    still on the side it started from; and once that bound is at most 0.1
    the frequency is exactly the target from the next call on. *)
Theorem frequency_glide_closes_in_without_overshoot (n : nat) (dt : Q) (v : Voice) :
  active v = true ->
  let e := frequency v - targetFrequency v in
  let vn := generate_n sinf M_PI n dt v in
  Qabs (frequency vn - targetFrequency v) <= (99 # 100) ^ Z.of_nat n * Qabs e /\
  (0 <= e -> 0 <= frequency vn - targetFrequency v) /\
  (e <= 0 -> frequency vn - targetFrequency v <= 0) /\
  ((99 # 100) ^ Z.of_nat n * Qabs e <= 0.1 ->
   forall m, (n < m)%nat -> frequency (generate_n sinf M_PI m dt v) = targetFrequency v).
Proof.
  intros Ha. cbv zeta.
  assert (Hmain : forall k,
    Qabs (frequency (generate_n sinf M_PI k dt v) - targetFrequency v)
      <= (99 # 100) ^ Z.of_nat k * Qabs (frequency v - targetFrequency v) /\
    (0 <= frequency v - targetFrequency v ->
     0 <= frequency (generate_n sinf M_PI k dt v) - targetFrequency v) /\
    (frequency v - targetFrequency v <= 0 ->
     frequency (generate_n sinf M_PI k dt v) - targetFrequency v <= 0)).
  { induction k as [|k (IH1 & IH2 & IH3)].
    - cbn [generate_n Nat.iter nat_rect]. change ((99 # 100) ^ Z.of_nat 0) with 1.
      split; [lra|]. split; done.
    - rewrite generate_n_succ.
      destruct (generate_n_fields k dt v Ha) as [Hk1 Hk2].
      destruct (glide_step dt _ Hk1) as (G1 & G2 & G3). cbv zeta in *.
      rewrite Hk2 in *.
      set (fk := frequency (generate_n sinf M_PI k dt v)) in *.
      set (fk' := frequency (generate sinf M_PI dt (generate_n sinf M_PI k dt v)).2) in *.
      pose proof (pow99_pos k) as Hp.
      split.
      + rewrite pow99_succ.
        assert (E : (99 # 100) * (99 # 100) ^ Z.of_nat k * Qabs (frequency v - targetFrequency v)
                    == 0.99 * ((99 # 100) ^ Z.of_nat k * Qabs (frequency v - targetFrequency v)))
          by ring.
        rewrite E. lra.
      + destruct (Qlt_le_dec (1 # 10) (Qabs (fk - targetFrequency v))) as [Hc|Hc].
        * pose proof (G2 Hc) as E. split; intros H; [specialize (IH2 H)|specialize (IH3 H)]; lra.
        * assert (Ef : fk' = targetFrequency v) by (apply G1; lra).
          rewrite Ef. split; intros _; lra. }
  destruct (Hmain n) as (H1 & H2 & H3).
  split; [done|]. split; [done|]. split; [done|].
  intros Hsmall m Hm.
  assert (Hland : frequency (generate_n sinf M_PI (S n) dt v) = targetFrequency v).
  { rewrite generate_n_succ.
    destruct (generate_n_fields n dt v Ha) as [Hk1 Hk2].
    destruct (glide_step dt _ Hk1) as (G1 & _). cbv zeta in G1. rewrite Hk2 in G1.
    apply G1. lra. }
  induction m as [|m IH]; [lia|].
  destruct (Nat.eq_dec m n) as [->|Hne]; [done|].
  rewrite generate_n_succ.
  destruct (generate_n_fields m dt v Ha) as [Hk1 Hk2].
  destruct (glide_step dt _ Hk1) as (G1 & _). cbv zeta in G1. rewrite Hk2 in G1.
  apply G1. rewrite IH by lia.
  assert (E : targetFrequency v - targetFrequency v == 0) by ring.
  rewrite E. change (Qabs 0) with 0. lra.
Qed.

(** X28.  With both the current and the target frequency at most the
    sample rate in magnitude, [generate] takes a phase in [[0, 1)] to a
    phase in [[0, 1)], keeps the frequency within that limit, and the
    triangle, saw and square samples lie in [[-1, 1]]. *)
Theorem phase_stays_in_the_unit_interval (dt : Q) (v : Voice) :
  active v = true -> 0 <= dt ->
  0 <= phase v -> phase v < 1 ->
  Qabs (frequency v) * dt <= 1 -> Qabs (targetFrequency v) * dt <= 1 ->
  let s := (generate sinf M_PI dt v).1 in
  let v' := (generate sinf M_PI dt v).2 in
  (0 <= phase v' /\ phase v' < 1) /\
  Qabs (frequency v') * dt <= 1 /\
  (waveform v <> SINE -> -1 <= s /\ s <= 1).
Proof.
  intros Ha Hdt Hp0 Hp1 Hf Ht. cbv zeta. unfold generate. rewrite Ha.
  cbn [negb fst snd phase frequency]. cbv zeta.
  set (f' := if Qltb 0.1 _ then _ else _).
  assert (Hf' : - 1 <= f' * dt /\ f' * dt <= 1 /\ Qabs f' * dt <= 1).
  { assert (Hfa : -1 <= frequency v * dt /\ frequency v * dt <= 1).
    { pose proof (Qle_Qabs (frequency v)) as A1.
      pose proof (Qle_Qabs (- frequency v)) as A2. rewrite Qabs_opp in A2.
      assert (0 <= (Qabs (frequency v) - frequency v) * dt) by (apply Qmult_le_0_compat; lra).
      assert (0 <= (Qabs (frequency v) + frequency v) * dt) by (apply Qmult_le_0_compat; lra).
      assert (E1 : (Qabs (frequency v) - frequency v) * dt
                   == Qabs (frequency v) * dt - frequency v * dt) by ring.
      assert (E2 : (Qabs (frequency v) + frequency v) * dt
                   == Qabs (frequency v) * dt + frequency v * dt) by ring.
      split; lra. }
    assert (Hta : -1 <= targetFrequency v * dt /\ targetFrequency v * dt <= 1).
    { pose proof (Qle_Qabs (targetFrequency v)) as A1.
      pose proof (Qle_Qabs (- targetFrequency v)) as A2. rewrite Qabs_opp in A2.
      assert (0 <= (Qabs (targetFrequency v) - targetFrequency v) * dt)
        by (apply Qmult_le_0_compat; lra).
      assert (0 <= (Qabs (targetFrequency v) + targetFrequency v) * dt)
        by (apply Qmult_le_0_compat; lra).
      assert (E1 : (Qabs (targetFrequency v) - targetFrequency v) * dt
                   == Qabs (targetFrequency v) * dt - targetFrequency v * dt) by ring.
      assert (E2 : (Qabs (targetFrequency v) + targetFrequency v) * dt
                   == Qabs (targetFrequency v) * dt + targetFrequency v * dt) by ring.
      split; lra. }
    destruct Hfa as [Hfa0 Hfa1]. destruct Hta as [Hta0 Hta1].
    assert (Hlin : -1 <= f' * dt /\ f' * dt <= 1).
    { subst f'. unfold FREQ_SMOOTH. destruct (Qltb 0.1 _).
      - assert (E : (frequency v + (targetFrequency v - frequency v) * 0.01) * dt
                    == 0.99 * (frequency v * dt) + 0.01 * (targetFrequency v * dt)) by ring.
        rewrite E. split; lra.
      - split; lra. }
    destruct Hlin as [L0 L1]. split; [done|]. split; [done|].
    destruct (Qlt_le_dec f' 0) as [Hneg|Hpos].
    - rewrite (Qabs_neg f') by lra.
      assert (E : - f' * dt == - (f' * dt)) by ring. lra.
    - rewrite (Qabs_pos f') by lra. lra. }
  destruct Hf' as (Hi0 & Hi1 & Hi2).
  set (p1 := phase v + f' * dt).
  assert (Hp1r : -1 <= p1 /\ p1 < 2) by (subst p1; split; lra).
  destruct Hp1r as [Hq0 Hq1].
  set (p2 := if Qleb 1 p1 then p1 - 1 else p1).
  assert (Hp2 : -1 <= p2 /\ p2 < 1).
  { subst p2. destruct (Qleb_cases 1 p1) as [[-> H]|[-> H]]; split; lra. }
  destruct Hp2 as [Hr0 Hr1].
  set (p3 := if Qltb p2 0 then p2 + 1 else p2).
  assert (Hp3 : 0 <= p3 /\ p3 < 1).
  { subst p3. destruct (Qltb_cases p2 0) as [[-> H]|[-> H]]; split; lra. }
  destruct Hp3 as [Hs0 Hs1].
  split; [done|]. split; [done|].
  intros Hw. destruct (waveform v); [done| | |].
  - destruct (Qltb_cases p3 0.5) as [[-> H]|[-> H]]; split; lra.
  - split; lra.
  - destruct (Qltb p3 0.5); split; lra.
Qed.

End Glide.

Lemma glide_witness :
  let v := {| phase := 0; frequency := 440; targetFrequency := 220; active := true;
              waveform := SAW |} in
  let e := frequency v - targetFrequency v in
  let vn := generate_n (fun _ => 0) 0 3 (1 # 48000) v in
  Qabs (frequency vn - targetFrequency v) <= (99 # 100) ^ Z.of_nat 3 * Qabs e /\
  (0 <= e -> 0 <= frequency vn - targetFrequency v) /\
  (e <= 0 -> frequency vn - targetFrequency v <= 0) /\
  ((99 # 100) ^ Z.of_nat 3 * Qabs e <= 0.1 ->
   forall m, (3 < m)%nat ->
     frequency (generate_n (fun _ => 0) 0 m (1 # 48000) v) = targetFrequency v).
Proof.
  apply (frequency_glide_closes_in_without_overshoot (fun _ => 0) 0 3 (1 # 48000)
           {| phase := 0; frequency := 440; targetFrequency := 220; active := true;
              waveform := SAW |}).
  reflexivity.
Defined.

Lemma phase_witness :
  let v := {| phase := 0.99; frequency := 440; targetFrequency := 220; active := true;
              waveform := SAW |} in
  let s := (generate (fun _ => 0) 0 (1 # 48000) v).1 in
  let v' := (generate (fun _ => 0) 0 (1 # 48000) v).2 in
  (0 <= phase v' /\ phase v' < 1) /\
  Qabs (frequency v') * (1 # 48000) <= 1 /\
  (waveform v <> SINE -> -1 <= s /\ s <= 1).
Proof.
  apply (phase_stays_in_the_unit_interval (fun _ => 0) 0 (1 # 48000)
           {| phase := 0.99; frequency := 440; targetFrequency := 220; active := true;
              waveform := SAW |}).
  - reflexivity.
  - vm_compute. discriminate.
  - vm_compute. discriminate.
  - vm_compute. reflexivity.
  - vm_compute. discriminate.
  - vm_compute. discriminate.
Defined.

End PadVoiceBehaviour.

(** ** WT_SURGE_X.cpp: normalisation, table reads, interpolation, warp *)

Module WavetableBehaviour.
Import ReverbFacts WT_SURGE_X WavetableFacts OutputFacts.

(** The peak search, from any starting value. *)
Lemma peak_fold (l : list Q) : forall init,
  let p := foldl (fun peak v => let a := fabs v in if Qltb peak a then a else peak) init l in
  init <= p /\ Forall (fun v => Qabs v <= p) l /\
  (p = init \/ exists v, v ∈ l /\ p = fabs v).
Proof.
  induction l as [|v l IH]; intros init; cbv zeta.
  - cbn [foldl]. split; [lra|]. split; [constructor|by left].
  - cbn [foldl]. cbv zeta in IH.
    destruct (IH (if Qltb init (fabs v) then fabs v else init)) as (H1 & H2 & H3).
    set (p := foldl _ _ l) in *.
    assert (Hstep : init <= (if Qltb init (fabs v) then fabs v else init) /\
                    Qabs v <= (if Qltb init (fabs v) then fabs v else init)).
    { unfold fabs. destruct (Qltb_cases init (Qabs v)) as [[-> H]|[-> H]]; lra. }
    destruct Hstep as [Ha Hb].
    split; [lra|]. split.
    + constructor; [lra|done].
    + destruct H3 as [H3|(u & Hu & H3)].
      * rewrite H3. destruct (Qltb init (fabs v)); [right|by left].
        exists v. split; [apply list_elem_of_here|done].
      * right. exists u. split; [by apply list_elem_of_further|done].
Qed.

Lemma div_bounded v p : 0 < p -> Qabs v <= p -> Qabs (v / p) <= 1.
Proof.
  intros Hp Hv. qabs. destruct Hv as [H1 H2]. split.
  - apply Qle_shift_div_l; lra.
  - apply Qle_shift_div_r; lra.
Qed.

Lemma peak_of_bounds l :
  0.0001 <= peak_of l /\ Forall (fun v => Qabs v <= peak_of l) l.
Proof. destruct (peak_fold l 0.0001) as (H1 & H2 & _). by split. Qed.

Lemma normalize_bounded l : Forall (fun v => Qabs v <= 1) (normalize l).
Proof.
  destruct (peak_of_bounds l) as [H1 H2].
  unfold normalize. cbv zeta. apply List.Forall_map.
  eapply Forall_impl; [exact H2|]. intros v Hv. cbv beta in *. apply div_bounded; lra.
Qed.

(** X20.  The normalisation never divides by less than 0.0001 and scales
    the peak to 1: the peak found is at least 0.0001 and at least every
    magnitude of the list; the result has the length of the input and all
    its values lie in [[-1, 1]]; and unless the peak is the 0.0001 floor,
    some value of the input is mapped to magnitude exactly 1. *)
Theorem normalize_scales_the_peak_to_one (l : list Q) :
  0.0001 <= peak_of l /\
  Forall (fun v => Qabs v <= peak_of l) l /\
  length (normalize l) = length l /\
  Forall (fun v => Qabs v <= 1) (normalize l) /\
  (peak_of l = 0.0001 \/
   exists v, v ∈ l /\ peak_of l = fabs v /\ Qabs (v / peak_of l) == 1).
Proof.
  destruct (peak_fold l 0.0001) as (H1 & H2 & H3). cbv zeta in *.
  fold (peak_of l) in H1, H2, H3.
  split; [done|]. split; [done|]. split; [unfold normalize; by rewrite length_map|].
  split; [apply normalize_bounded|].
  destruct H3 as [H3|(v & Hv & H3)]; [by left|right].
  exists v. split; [done|]. split; [done|].
  assert (Hp : 0 < Qabs v) by (unfold fabs in H3; rewrite <- H3; lra).
  rewrite H3. unfold fabs.
  destruct (Qlt_le_dec v 0) as [Hneg|Hpos].
  - rewrite (Qabs_neg v) by lra.
    assert (E : v / - v == -1) by (field; lra).
    rewrite E. reflexivity.
  - rewrite (Qabs_pos v) by lra.
    assert (Hv0 : ~ v == 0) by (rewrite Qabs_pos in Hp by lra; lra).
    assert (E : v / v == 1) by (field; lra).
    rewrite E. reflexivity.
Qed.




Section Tables.

Variables sinf cosf : Q -> Q.
Variable M_PI : Q.



End Tables.


Lemma select_mip_range fc : (0 <= select_mip fc < MIP_LEVELS)%Z.
Proof.
  unfold select_mip, MIP_LEVELS.
  repeat match goal with |- context [if ?b then _ else _] => destruct b end; lia.
Qed.

Lemma select_mip_mono fc fc' : fc <= fc' -> (select_mip fc <= select_mip fc')%Z.
Proof.
  intros H. unfold select_mip.
  repeat match goal with
         | |- context [Qltb ?a ?b] =>
             let E := fresh in destruct (Qltb_cases a b) as [[-> E]|[-> E]]
         end; try lia; lra.
Qed.

(** The indices [readWavetable] computes. *)
Lemma frame_index_range t :
  let f0 := if (t <? 0)%Z then 0%Z else t in
  let f0 := if (NUM_FRAMES - 1 <=? f0)%Z then (NUM_FRAMES - 2)%Z else f0 in
  (0 <= f0 < NUM_FRAMES - 1)%Z.
Proof.
  cbv zeta. unfold NUM_FRAMES.
  destruct (Z.ltb_spec t 0);
    match goal with |- context [(?a <=? ?b)%Z] => destruct (Z.leb_spec a b) end; lia.
Qed.

Lemma mip_index_range fc quality :
  let mip := select_mip fc in
  let mip := if (quality =? 0)%Z then std_minZ (mip + 2) (MIP_LEVELS - 1) else mip in
  (0 <= mip < MIP_LEVELS)%Z.
Proof.
  cbv zeta. pose proof (select_mip_range fc) as H. unfold std_minZ, MIP_LEVELS in *.
  destruct (quality =? 0)%Z; [|done].
  destruct (Z.ltb_spec (10 - 1) (select_mip fc + 2)); lia.
Qed.

Lemma sample_index_range p :
  let s0 := wrap_index p in
  let s1 := cmod (s0 + 1) TABLE_SIZE in
  let sm1 := cmod (s0 - 1 + TABLE_SIZE) TABLE_SIZE in
  let sp2 := cmod (s1 + 1) TABLE_SIZE in
  (0 <= s0 < TABLE_SIZE)%Z /\ (0 <= s1 < TABLE_SIZE)%Z /\
  (0 <= sm1 < TABLE_SIZE)%Z /\ (0 <= sp2 < TABLE_SIZE)%Z /\
  s1 = ((p + 1) mod TABLE_SIZE)%Z /\ sm1 = ((p - 1) mod TABLE_SIZE)%Z /\
  sp2 = ((p + 2) mod TABLE_SIZE)%Z.
Proof.
  cbv zeta. rewrite wrap_index_mod. unfold cmod, TABLE_SIZE.
  repeat split; Z.to_euclidean_division_equations; lia.
Qed.

(** X22.  [readWavetable] only reads cells of the declared array, for any
    frame position, phase, frequency and quality: two banks that agree on
    the cells with frame in [[0, 64)], level in [[0, 10)] and sample index
    in [[0, 2048)] give the same result. *)
Theorem readWavetable_reads_only_cells_of_the_table
    (w1 w2 : WavetableBank) (bank : Z) (framePos phase freqHz sampleRate : Q) (quality : Z) :
  tableReady w1 = tableReady w2 ->
  (forall f mip s,
     (0 <= f < NUM_FRAMES)%Z -> (0 <= mip < MIP_LEVELS)%Z -> (0 <= s < TABLE_SIZE)%Z ->
     sample (tables w1) bank f mip s = sample (tables w2) bank f mip s) ->
  readWavetable w1 bank framePos phase freqHz sampleRate quality =
  readWavetable w2 bank framePos phase freqHz sampleRate quality.
Proof.
  intros Hr H. unfold readWavetable. rewrite Hr.
  destruct (tableReady w2); cbn [negb]; [|done]. cbv zeta.
  pose proof (mip_index_range (freqHz / sampleRate * ofZ TABLE_SIZE) quality) as Hmip.
  pose proof (frame_index_range (Qtrunc (framePos * ofZ (NUM_FRAMES - 1)))) as Hf.
  destruct (sample_index_range (Qtrunc (phase * ofZ TABLE_SIZE)))
    as (Hs0 & Hs1 & Hsm1 & Hsp2 & _).
  cbv zeta in Hmip, Hf.
  set (mip := if (quality =? 0)%Z then _ else _) in *.
  set (f0 := if (NUM_FRAMES - 1 <=? _)%Z then _ else _) in *.
  set (s0 := wrap_index _) in *.
  assert (Hf1 : (0 <= f0 + 1 < NUM_FRAMES)%Z) by lia.
  assert (Hf0 : (0 <= f0 < NUM_FRAMES)%Z) by lia.
  rewrite !(H f0 mip) by assumption.
  rewrite !(H (f0 + 1)%Z mip) by assumption.
  reflexivity.
Qed.

Lemma reads_only_cells_witness :
  readWavetable blank_bank 0 0.5 0.25 440 48000 2 =
  readWavetable {| tables := Tables_zero ++ [[[[1]]]]; tableReady := true |} 0 0.5 0.25 440 48000 2.
Proof.
  apply (readWavetable_reads_only_cells_of_the_table blank_bank
           {| tables := Tables_zero ++ [[[[1]]]]; tableReady := true |} 0 0.5 0.25 440 48000 2).
  - reflexivity.
  - intros f mip s _ _ _. reflexivity.
Defined.

Lemma lerp_between lo hi a b t :
  0 <= t -> t <= 1 -> lo <= a -> a <= hi -> lo <= b -> b <= hi ->
  lo <= lerp a b t /\ lerp a b t <= hi.
Proof.
  intros Ht0 Ht1 Ha0 Ha1 Hb0 Hb1. unfold lerp.
  assert (E1 : a + (b - a) * t - lo == (a - lo) * (1 - t) + (b - lo) * t) by ring.
  assert (E2 : hi - (a + (b - a) * t) == (hi - a) * (1 - t) + (hi - b) * t) by ring.
  assert (0 <= (a - lo) * (1 - t)) by (apply Qmult_le_0_compat; lra).
  assert (0 <= (b - lo) * t) by (apply Qmult_le_0_compat; lra).
  assert (0 <= (hi - a) * (1 - t)) by (apply Qmult_le_0_compat; lra).
  assert (0 <= (hi - b) * t) by (apply Qmult_le_0_compat; lra).
  split; lra.
Qed.

Lemma frac_range q : 0 <= q -> 0 <= q - ofZ (Qtrunc q) /\ q - ofZ (Qtrunc q) < 1.
Proof.
  intros Hq. destruct (Qtrunc_nonneg q Hq) as [_ H1]. destruct (Qtrunc_bounds q) as [_ H2].
  unfold ofZ. split; lra.
Qed.

(** X23.  At low and medium quality the value read is bounded by the
    table: with a frame position in [[0, 1]] and a phase that is not
    negative, the result is no larger in magnitude than the largest cell.
    (High quality uses [cubicHermite], which can overshoot.) *)
Theorem bilinear_read_is_bounded_by_the_table
    (w : WavetableBank) (bank : Z) (framePos phase freqHz sampleRate : Q) (quality : Z) (B : Q) :
  (forall f mip s,
     (0 <= f < NUM_FRAMES)%Z -> (0 <= mip < MIP_LEVELS)%Z -> (0 <= s < TABLE_SIZE)%Z ->
     Qabs (sample (tables w) bank f mip s) <= B) ->
  0 <= B -> quality <> 2%Z ->
  0 <= framePos -> framePos <= 1 -> 0 <= phase ->
  Qabs (readWavetable w bank framePos phase freqHz sampleRate quality) <= B.
Proof.
  intros H HB Hq Hx0 Hx1 Hp. unfold readWavetable.
  destruct (tableReady w); cbn [negb]; [|by change (Qabs 0) with 0]. cbv zeta.
  pose proof (mip_index_range (freqHz / sampleRate * ofZ TABLE_SIZE) quality) as Hmip.
  pose proof (frame_index_range (Qtrunc (framePos * ofZ (NUM_FRAMES - 1)))) as Hf.
  destruct (sample_index_range (Qtrunc (phase * ofZ TABLE_SIZE)))
    as (Hs0 & Hs1 & _).
  cbv zeta in Hmip, Hf.
  assert (Hpos : 0 <= phase * ofZ TABLE_SIZE).
  { apply Qmult_le_0_compat; [done|]. by vm_compute. }
  destruct (frac_range _ Hpos) as [Hfr0 Hfr1].
  assert (HfIdx : 0 <= framePos * ofZ (NUM_FRAMES - 1) /\ framePos * ofZ (NUM_FRAMES - 1) <= 63).
  { change (ofZ (NUM_FRAMES - 1)) with 63. split; lra. }
  destruct HfIdx as [Hi0 Hi1].
  destruct (Qtrunc_nonneg _ Hi0) as [Ht0 Ht1].
  destruct (Qtrunc_bounds (framePos * ofZ (NUM_FRAMES - 1))) as [_ Ht2].
  set (fIdx := framePos * ofZ (NUM_FRAMES - 1)) in *.
  assert (HfracF :
    let t := Qtrunc fIdx in
    let f0 := if (t <? 0)%Z then 0%Z else t in
    let f0 := if (NUM_FRAMES - 1 <=? f0)%Z then (NUM_FRAMES - 2)%Z else f0 in
    0 <= fIdx - ofZ f0 /\ fIdx - ofZ f0 <= 1).
  { cbv zeta. set (t := Qtrunc fIdx) in *.
    destruct (Z.ltb_spec t 0) as [Hc|Hc]; [lia|].
    unfold NUM_FRAMES. destruct (Z.leb_spec (64 - 1) t) as [Hc'|Hc'].
    - assert (63 <= inject_Z t) by (change 63 with (inject_Z 63); rewrite <- Zle_Qle; lia).
      change (ofZ (64 - 2)) with 62. split; lra.
    - unfold ofZ. split; lra. }
  cbv zeta in HfracF. destruct HfracF as [HF0 HF1].
  set (mip := if (quality =? 0)%Z then _ else _) in *.
  set (f0 := if (NUM_FRAMES - 1 <=? _)%Z then _ else _) in *.
  set (s0 := wrap_index _) in *.
  assert (Hf1 : (0 <= f0 + 1 < NUM_FRAMES)%Z) by lia.
  assert (Hf0 : (0 <= f0 < NUM_FRAMES)%Z) by lia.
  destruct (Z.eqb_spec quality 2) as [?|_]; [done|].
  pose proof (H f0 mip s0 Hf0 Hmip Hs0) as H00.
  pose proof (H f0 mip _ Hf0 Hmip Hs1) as H01.
  pose proof (H (f0 + 1)%Z mip s0 Hf1 Hmip Hs0) as H10.
  pose proof (H (f0 + 1)%Z mip _ Hf1 Hmip Hs1) as H11.
  qabs. destruct H00, H01, H10, H11.
  destruct (lerp_between (- B) B (sample (tables w) bank f0 mip s0)
              (sample (tables w) bank f0 mip (cmod (s0 + 1) TABLE_SIZE))
              (phase * ofZ TABLE_SIZE - ofZ (Qtrunc (phase * ofZ TABLE_SIZE))));
    try done; try lra.
  destruct (lerp_between (- B) B (sample (tables w) bank (f0 + 1) mip s0)
              (sample (tables w) bank (f0 + 1) mip (cmod (s0 + 1) TABLE_SIZE))
              (phase * ofZ TABLE_SIZE - ofZ (Qtrunc (phase * ofZ TABLE_SIZE))));
    try done; try lra.
  apply lerp_between; done.
Qed.

Lemma bilinear_read_witness :
  Qabs (readWavetable blank_bank 0 0.5 0.25 440 48000 1) <= 0.
Proof.
  apply (bilinear_read_is_bounded_by_the_table blank_bank 0 0.5 0.25 440 48000 1 0).
  - intros f mip s Hf Hm Hs. unfold sample, frame_of, level_of, blank_bank, Tables_zero.
    cbn [tables].
    rewrite lookup_replicate_2 by (unfold NUM_BANKS; lia). cbn [default from_option id].
    rewrite lookup_replicate_2 by lia. cbn [default from_option id].
    rewrite lookup_replicate_2 by lia. cbn [default from_option id].
    unfold at_. destruct (s <? 0)%Z; [by vm_compute|].
    rewrite lookup_replicate_2 by lia. by vm_compute.
  - lra.
  - lia.
  - lra.
  - lra.
  - lra.
Defined.

(** X24.  [cubicHermite] passes through its two middle points at [t = 0]
    and [t = 1] and reproduces straight lines exactly: on four equally
    spaced collinear points it equals [lerp].  [lerp] returns its end
    points at 0 and 1. *)
Theorem cubicHermite_interpolates_and_reproduces_lines (y0 y1 y2 y3 a d t : Q) :
  cubicHermite y0 y1 y2 y3 0 == y1 /\
  cubicHermite y0 y1 y2 y3 1 == y2 /\
  cubicHermite (a - d) a (a + d) (a + 2 * d) t == lerp a (a + d) t /\
  lerp y1 y2 0 == y1 /\ lerp y1 y2 1 == y2.
Proof. unfold cubicHermite, lerp. cbv zeta. repeat split; ring. Qed.

Lemma softClip_cross x y :
  x <= y -> x * (1 + Qabs y) <= y * (1 + Qabs x).
Proof.
  intros H.
  destruct (Qlt_le_dec x 0) as [Hx|Hx]; destruct (Qlt_le_dec y 0) as [Hy|Hy].
  - rewrite (Qabs_neg x), (Qabs_neg y) by lra.
    assert (E : y * (1 + - x) - x * (1 + - y) == y - x) by ring. lra.
  - rewrite (Qabs_neg x), (Qabs_pos y) by lra.
    assert (0 <= (- x) * (1 + y)) by (apply Qmult_le_0_compat; lra).
    assert (0 <= y * (1 + - x)) by (apply Qmult_le_0_compat; lra).
    assert (E : x * (1 + y) == - ((- x) * (1 + y))) by ring. lra.
  - lra.
  - rewrite (Qabs_pos x), (Qabs_pos y) by lra.
    assert (E : y * (1 + x) - x * (1 + y) == y - x) by ring. lra.
Qed.

(** X25.  [softClip] is odd, never decreases, never increases a
    magnitude, and keeps the sign. *)
Theorem softClip_is_odd_monotone_and_contracting (x y : Q) :
  softClip (- x) == - softClip x /\
  (x <= y -> softClip x <= softClip y) /\
  Qabs (softClip x) <= Qabs x /\
  (0 <= x -> 0 <= softClip x).
Proof.
  unfold softClip, fabs.
  pose proof (Qabs_nonneg x) as Hx. pose proof (Qabs_nonneg y) as Hy.
  split; [|split; [|split]].
  - rewrite Qabs_opp. field. lra.
  - intros H. apply Qle_shift_div_l; [lra|].
    assert (E : x / (1 + Qabs x) * (1 + Qabs y) == x * (1 + Qabs y) / (1 + Qabs x))
      by (field; lra).
    rewrite E. apply Qle_shift_div_r; [lra|]. by apply softClip_cross.
  - pose proof (Qle_Qabs x) as H1.
    pose proof (Qle_Qabs (- x)) as H2. rewrite Qabs_opp in H2.
    assert (0 <= Qabs x * Qabs x) by (apply Qmult_le_0_compat; lra).
    qabs. split.
    + apply Qle_shift_div_l; [lra|].
      assert (E : - Qabs x * (1 + Qabs x) == - Qabs x - Qabs x * Qabs x) by ring. lra.
    + apply Qle_shift_div_r; [lra|].
      assert (E : Qabs x * (1 + Qabs x) == Qabs x + Qabs x * Qabs x) by ring. lra.
  - intros H. apply Qle_shift_div_l; lra.
Qed.

Section Warp.

Variables sinf tanhf floorf : Q -> Q.
Variable powf : Q -> Q -> Q.
Variable M_PI : Q.

(** X26.  [applyWarp]: an amount below 0.0001 or a mode outside 0..4
    returns the sample; the fold mode returns a sample that is already in
    [[-1, 1]]; and for a sample in [(1, 3]] it moves it toward its
    reflection [2 - sample] by the square of the amount, since the amount
    is applied once inside the mode and once more on return. *)
Theorem fold_warp_leaves_unit_samples_and_mixes_twice (sample_ phase amount : Q) (mode : Z) :
  (amount < 0.0001 -> applyWarp sinf tanhf floorf powf M_PI sample_ phase mode amount = sample_) /\
  (0.0001 <= amount -> (mode < 0 \/ 4 < mode)%Z ->
   applyWarp sinf tanhf floorf powf M_PI sample_ phase mode amount == sample_) /\
  (0.0001 <= amount -> -1 <= sample_ -> sample_ <= 1 ->
   applyWarp sinf tanhf floorf powf M_PI sample_ phase 3 amount == sample_) /\
  (0.0001 <= amount -> 1 < sample_ -> sample_ <= 3 ->
   applyWarp sinf tanhf floorf powf M_PI sample_ phase 3 amount ==
   sample_ + (2 - sample_ - sample_) * (amount * amount)).
Proof.
  unfold applyWarp. split; [|split; [|split]].
  - intros H. by rewrite (proj2 (Qltb_true _ _) H).
  - intros H Hm. rewrite (proj2 (Qltb_false _ _) H). cbv zeta.
    destruct (Z.eqb_spec mode 0); [lia|]. destruct (Z.eqb_spec mode 1); [lia|].
    destruct (Z.eqb_spec mode 2); [lia|]. destruct (Z.eqb_spec mode 3); [lia|].
    destruct (Z.eqb_spec mode 4); [lia|]. unfold lerp. ring.
  - intros H H0 H1. rewrite (proj2 (Qltb_false _ _) H). cbv zeta.
    change (3 =? 0)%Z with false. change (3 =? 1)%Z with false.
    change (3 =? 2)%Z with false. change (3 =? 3)%Z with true. cbv iota.
    cbn [while_]. rewrite (proj2 (Qltb_false 1 sample_) H1).
    rewrite (proj2 (Qltb_false sample_ (-1)) H0). unfold lerp. ring.
  - intros H H0 H1. rewrite (proj2 (Qltb_false _ _) H). cbv zeta.
    change (3 =? 0)%Z with false. change (3 =? 1)%Z with false.
    change (3 =? 2)%Z with false. change (3 =? 3)%Z with true. cbv iota.
    cbn [while_]. rewrite (proj2 (Qltb_true 1 sample_) H0).
    rewrite (proj2 (Qltb_false 1 (2 - sample_)) ltac:(lra)).
    rewrite (proj2 (Qltb_false (2 - sample_) (-1)) ltac:(lra)). unfold lerp. ring.
Qed.

End Warp.

End WavetableBehaviour.

(** ** BuildupLooper.cpp: interpolation, crossfade and the state machine *)

Module LooperBehaviour.
Import BuildupLooper LooperFacts.

Lemma while_idle n cond body x : cond x = false -> while_ n cond body x = x.
Proof. intros H. destruct n; cbn [while_]; by rewrite ?H. Qed.

Lemma while_sub_nonneg len n : forall p,
  0 <= p -> 0 <= while_ n (fun p => Qleb len p) (fun p => p - len) p.
Proof.
  induction n as [|n IH]; intros p Hp; cbn [while_]; [done|].
  destruct (Qleb_cases len p) as [[-> Hc]|[-> Hc]]; [|done]. apply IH. lra.
Qed.

Lemma while_add_below len n : forall p,
  p < len -> while_ n (fun p => Qltb p 0) (fun p => p + len) p < len.
Proof.
  induction n as [|n IH]; intros p Hp; cbn [while_]; [done|].
  destruct (Qltb_cases p 0) as [[-> Hc]|[-> Hc]]; [|done]. apply IH. lra.
Qed.

(** A position wrapped up and then down lands in [[0, len)]. *)
Lemma wrap_up_down_range p len :
  0 < len -> 0 <= wrap_down (wrap_up p len) len /\ wrap_down (wrap_up p len) len < len.
Proof.
  intros H. split.
  - apply while_sub_nonneg. apply Qltb_false. by apply wrap_up_exits.
  - apply Qleb_false. by apply wrap_down_exits.
Qed.

(** And so does a position wrapped down and then up. *)
Lemma wrap_down_up_range p len :
  0 < len -> 0 <= wrap_up (wrap_down p len) len /\ wrap_up (wrap_down p len) len < len.
Proof.
  intros H. split.
  - apply Qltb_false. by apply wrap_up_exits.
  - apply while_add_below. apply Qleb_false. by apply wrap_down_exits.
Qed.

Lemma wrap_in_range p len : 0 <= p -> p < len ->
  wrap_up p len = p /\ wrap_down p len = p.
Proof.
  intros H0 H1. split.
  - apply while_idle. by apply Qltb_false.
  - apply while_idle. by apply Qleb_false.
Qed.

(** X1.  [easeInOut] is a ramp: its value lies in [[0, 1]], it is 0 for
    every argument at or below 0 and 1 for every argument at or above 1,
    and it never decreases. *)
Theorem easeInOut_is_a_monotone_unit_ramp (x y : Q) :
  (0 <= easeInOut x /\ easeInOut x <= 1) /\
  (x <= 0 -> easeInOut x == 0) /\
  (1 <= x -> easeInOut x == 1) /\
  (x <= y -> easeInOut x <= easeInOut y).
Proof.
  unfold easeInOut.
  pose proof (clamp_range x 0 1 ltac:(lra)) as [Hc0 Hc1].
  pose proof (clamp_range y 0 1 ltac:(lra)) as [Hd0 Hd1].
  pose proof (clamp_value x 0 1 ltac:(lra)) as Hv.
  pose proof (clamp_mono x y 0 1 ltac:(lra)) as Hm.
  set (c := clamp x 0 1) in *. set (d := clamp y 0 1) in *.
  split; [by apply smoothstep_unit|]. split; [|split].
  - intros Hx. assert (E : c == 0).
    { destruct Hv as [[_ E]|[(H0 & _ & E)|[H1 E]]]; rewrite E; lra. }
    rewrite E. ring.
  - intros Hx. assert (E : c == 1).
    { destruct Hv as [[H0 E]|[(_ & H1 & E)|[_ E]]]; rewrite E; lra. }
    rewrite E. ring.
  - intros Hxy. apply smoothstep_mono; auto.
Qed.

Lemma easeInOut_witness : easeInOut (1 # 4) <= easeInOut (3 # 4).
Proof.
  apply (easeInOut_is_a_monotone_unit_ramp (1 # 4) (3 # 4)).
  vm_compute. discriminate.
Defined.

(** X2.  [readLinear] wraps the position into [[0, size)] (a position
    already there is left alone), reads the two cells [i0] and [i1], both
    inside [[0, size)] with [i1] wrapping to 0 after the last cell, and
    mixes them with weight [f] in [[0, 1)].  At an integer position [k] it
    returns cell [k]. *)
Theorem readLinear_reads_inside_the_buffer (buf : list Q) (size : Z) (pos : Q) :
  (0 < size)%Z ->
  let p := wrap_down (wrap_up pos (ofZ size)) (ofZ size) in
  let i0 := Qtrunc p in
  let i1 := if (size <=? i0 + 1)%Z then 0%Z else (i0 + 1)%Z in
  let f := p - ofZ i0 in
  (0 <= p /\ p < ofZ size) /\
  (0 <= pos -> pos < ofZ size -> p = pos) /\
  (0 <= i0 < size)%Z /\ (0 <= i1 < size)%Z /\ (0 <= f /\ f < 1) /\
  readLinear buf size pos = at_ buf i0 * (1 - f) + at_ buf i1 * f /\
  (forall k, (0 <= k < size)%Z -> readLinear buf size (ofZ k) == at_ buf k).
Proof.
  intros Hs p i0 i1 f.
  pose proof (ofZ_pos size Hs) as Hlen.
  destruct (wrap_up_down_range pos (ofZ size) Hlen) as [Hp0 Hp1]. fold p in Hp0, Hp1.
  destruct (Qtrunc_nonneg p Hp0) as [Hi0 Hi0p]. fold i0 in Hi0, Hi0p.
  destruct (Qtrunc_bounds p) as [_ Hi0u]. fold i0 in Hi0u.
  assert (Hi0s : (i0 < size)%Z).
  { rewrite Zlt_Qlt. unfold ofZ in *. lra. }
  assert (Hread : forall q, readLinear buf size q =
            at_ buf (Qtrunc (wrap_down (wrap_up q (ofZ size)) (ofZ size)))
              * (1 - (wrap_down (wrap_up q (ofZ size)) (ofZ size)
                      - ofZ (Qtrunc (wrap_down (wrap_up q (ofZ size)) (ofZ size)))))
            + at_ buf (if (size <=? Qtrunc (wrap_down (wrap_up q (ofZ size)) (ofZ size)) + 1)%Z
                       then 0%Z
                       else (Qtrunc (wrap_down (wrap_up q (ofZ size)) (ofZ size)) + 1)%Z)
              * (wrap_down (wrap_up q (ofZ size)) (ofZ size)
                 - ofZ (Qtrunc (wrap_down (wrap_up q (ofZ size)) (ofZ size))))).
  { intros q. unfold readLinear. destruct (Z.leb_spec size 0); [lia|]. reflexivity. }
  split; [by split|]. split.
  { intros H0 H1. subst p. destruct (wrap_in_range pos (ofZ size) H0 H1) as [-> ->]. done. }
  split; [lia|]. split.
  { subst i1. destruct (Z.leb_spec size (i0 + 1)); lia. }
  split; [subst f; unfold ofZ in *; split; lra|].
  split; [apply Hread|].
  intros k Hk. rewrite Hread.
  assert (Hk0 : 0 <= ofZ k).
  { unfold ofZ. change 0 with (inject_Z 0). rewrite <- Zle_Qle. lia. }
  assert (Hk1 : ofZ k < ofZ size) by (unfold ofZ; rewrite <- Zlt_Qlt; lia).
  destruct (wrap_in_range (ofZ k) (ofZ size) Hk0 Hk1) as [-> ->].
  unfold ofZ at 1 4 6. rewrite !Qtrunc_inject. unfold ofZ. ring.
Qed.

Lemma readLinear_witness :
  readLinear [1; 2; 3; 4] 4 (ofZ 2) == at_ [1; 2; 3; 4] 2.
Proof.
  destruct (readLinear_reads_inside_the_buffer [1; 2; 3; 4] 4 0 ltac:(lia))
    as (_ & _ & _ & _ & _ & _ & H).
  apply H. lia.
Defined.

(** X3.  With a window [N] that fits ([0 < N], [2 * N <= len]) and a
    position inside the loop: before the last [N] samples
    [readWithLoopCrossfade] is [readLinear]; inside them it is the blend
    of the sample at [pos] and the sample at [pos - (len - N)], the weight
    of the latter growing linearly from 0 and staying below 1. *)
Theorem crossfade_blends_only_the_last_window (buf : list Q) (len N : Z) (pos : Q) :
  (0 < N)%Z -> (2 * N <= len)%Z -> 0 <= pos -> pos < ofZ len ->
  (pos < ofZ (len - N) ->
   readWithLoopCrossfade buf len pos N == readLinear buf len pos) /\
  (ofZ (len - N) <= pos ->
   let w := (pos - ofZ (len - N)) / ofZ N in
   (0 <= w /\ w < 1) /\
   readWithLoopCrossfade buf len pos N =
   readLinear buf len pos * (1 - w) + readLinear buf len (pos - ofZ (len - N)) * w).
Proof.
  intros HN Hlen H0 H1.
  destruct (wrap_in_range pos (ofZ len) H0 H1) as [Eu Ed].
  assert (HNq : 0 < ofZ N) by (apply ofZ_pos; lia).
  assert (Hsub : ofZ (len - N) == ofZ len - ofZ N).
  { unfold ofZ. replace (len - N)%Z with (len + - N)%Z by lia.
    rewrite inject_Z_plus, inject_Z_opp. reflexivity. }
  unfold readWithLoopCrossfade.
  destruct (Z.leb_spec len 0); [lia|].
  destruct (Z.leb_spec N 0); [lia|].
  destruct (Z.ltb_spec len (2 * N)); [lia|].
  change (false || false) with false. cbv iota. rewrite Ed, Eu. split.
  - intros Hc.
    destruct (Qleb_cases (ofZ (len - N)) pos) as [[-> Hc']|[-> Hc']]; [lra|]. ring.
  - intros Hc.
    destruct (Qleb_cases (ofZ (len - N)) pos) as [[-> Hc']|[-> Hc']]; [|lra].
    destruct (Qltb_cases (pos - ofZ (len - N)) 0) as [[-> Hs]|[-> Hs]]; [lra|].
    split; [|reflexivity]. split.
    + apply Qle_shift_div_l; lra.
    + apply Qlt_shift_div_r; lra.
Qed.

Lemma crossfade_witness :
  readWithLoopCrossfade [1; 2; 3; 4; 5; 6; 7; 8] 8 3 2 == readLinear [1; 2; 3; 4; 5; 6; 7; 8] 8 3.
Proof.
  apply (crossfade_blends_only_the_last_window [1; 2; 3; 4; 5; 6; 7; 8] 8 2 3).
  - lia.
  - lia.
  - vm_compute. discriminate.
  - vm_compute. reflexivity.
  - vm_compute. reflexivity.
Defined.

(** *** The state machine *)

Lemma ensureBuffers_machine m :
  let m1 := ensureBuffers m in
  loopSamples m1 = loopSamples m /\ playheadL m1 = playheadL m /\
  playheadR m1 = playheadR m /\ rampSamples m1 = rampSamples m /\
  exitFadeSamples m1 = exitFadeSamples m /\ exitFadeTotal m1 = exitFadeTotal m /\
  smoothedTime m1 = smoothedTime m /\ smoothedIntensity m1 = smoothedIntensity m.
Proof. unfold ensureBuffers. by destruct (allocated m). Qed.

Lemma pre_machine_machine i m0 :
  let m := pre_machine i m0 in
  loopSamples m = loopSamples m0 /\ playheadL m = playheadL m0 /\
  playheadR m = playheadR m0 /\ rampSamples m = rampSamples m0 /\
  exitFadeSamples m = exitFadeSamples m0 /\
  exitFadeTotal m =
    (if Qleb (exitFadeTotal m0) 0 || Qltb 96000 (exitFadeTotal m0)
     then EXIT_FADE_MS * 0.001 * sampleRate i else exitFadeTotal m0).
Proof.
  cbv zeta. unfold pre_machine.
  destruct (clock_step i (ensureBuffers m0)) as [[[pch counter] last] beat].
  destruct (audio_in i) as [inL inR].
  cbn [loopSamples playheadL playheadR rampSamples exitFadeSamples exitFadeTotal].
  destruct (ensureBuffers_machine m0) as (-> & -> & -> & -> & -> & -> & _). done.
Qed.

(** X4.  Only the IDLE-to-BUILD transition writes the loop snapshot: a
    step taken in [BUILD] or [EXIT_FADE], or in [IDLE] without a build
    request, leaves [loopL], [loopR] and [loopSamples] as they were. *)
Theorem loop_snapshot_changes_only_on_the_build_transition (i : Inputs) (m : Module_) :
  state m <> IDLE \/ wantBuild i (ensureBuffers m) = false ->
  loopL (process i m).2 = loopL (ensureBuffers m) /\
  loopR (process i m).2 = loopR (ensureBuffers m) /\
  loopSamples (process i m).2 = loopSamples m.
Proof.
  intros H.
  destruct (pre_machine_fields i m) as (Hs & _ & _ & _ & _ & _ & _ & _ & HL & HR).
  destruct (pre_machine_machine i m) as (Hls & _).
  cbv zeta in *. unfold process. destruct (audio_in i) as [inL inR]. rewrite Hs.
  destruct (state m) eqn:E.
  - destruct H as [H|H]; [done|]. rewrite H. cbn [snd]. by rewrite HL, HR, Hls.
  - destruct (wantBuild i (ensureBuffers m));
      cbn [negb snd exit_fade set_machine loopL loopR loopSamples]; by rewrite HL, HR, Hls.
  - cbn [snd exit_fade set_machine loopL loopR loopSamples]. by rewrite HL, HR, Hls.
Qed.

Lemma loop_snapshot_witness :
  let m := run Module_new [with_button 1 (quiet 100)] in
  loopL (process (with_button 1 (quiet 100)) m).2 = loopL (ensureBuffers m) /\
  loopR (process (with_button 1 (quiet 100)) m).2 = loopR (ensureBuffers m) /\
  loopSamples (process (with_button 1 (quiet 100)) m).2 = loopSamples m.
Proof.
  apply (loop_snapshot_changes_only_on_the_build_transition (with_button 1 (quiet 100))
           (run Module_new [with_button 1 (quiet 100)])).
  left. vm_compute. discriminate.
Defined.

(** X5.  In [IDLE] the module is a wire: each output is its own input,
    or the other input when only that one is patched, or 0; the light is
    off. *)
Theorem idle_passes_the_input_through (i : Inputs) (m : Module_) :
  state m = IDLE ->
  let o := (process i m).1 in
  AUDIO_L_OUTPUT o ==
    (if AUDIO_L_connected i then AUDIO_L_voltage i
     else if AUDIO_R_connected i then AUDIO_R_voltage i else 0) /\
  AUDIO_R_OUTPUT o ==
    (if AUDIO_R_connected i then AUDIO_R_voltage i
     else if AUDIO_L_connected i then AUDIO_L_voltage i else 0) /\
  BUILD_LIGHT o = 0.
Proof.
  intros Hst. cbv zeta.
  destruct (pre_machine_fields i m) as (Hs & _).
  unfold process, audio_in. rewrite Hs, Hst. cbn [fst AUDIO_L_OUTPUT AUDIO_R_OUTPUT BUILD_LIGHT].
  destruct (AUDIO_L_connected i), (AUDIO_R_connected i); cbn [andb negb];
    repeat split; try reflexivity; field.
Qed.

Lemma idle_witness :
  let o := (process (with_audio 5 (quiet 44100)) Module_new).1 in
  AUDIO_L_OUTPUT o == 5 /\ AUDIO_R_OUTPUT o == 5 /\ BUILD_LIGHT o = 0.
Proof.
  apply (idle_passes_the_input_through (with_audio 5 (quiet 44100)) Module_new).
  reflexivity.
Defined.

(** X6.  While the build is held, both outputs stay within 12 V, the
    light stays in [[0.3, 1]] and the state stays [BUILD]. *)
Theorem build_output_is_limited_to_12_volts (i : Inputs) (m : Module_) :
  state m = BUILD -> wantBuild i (ensureBuffers m) = true ->
  let o := (process i m).1 in
  Qabs (AUDIO_L_OUTPUT o) <= 12 /\ Qabs (AUDIO_R_OUTPUT o) <= 12 /\
  (0.3 <= BUILD_LIGHT o /\ BUILD_LIGHT o <= 1) /\
  state (process i m).2 = BUILD.
Proof.
  intros Hst Hw. cbv zeta.
  destruct (pre_machine_fields i m) as (Hs & _).
  unfold process. destruct (audio_in i) as [inL inR]. rewrite Hs, Hst, Hw.
  cbn [negb fst snd AUDIO_L_OUTPUT AUDIO_R_OUTPUT BUILD_LIGHT set_machine state].
  set (progress := if Qltb 0 _ then clamp _ 0 1 else 1).
  assert (Hp : 0 <= progress /\ progress <= 1).
  { subst progress. destruct (Qltb 0 _); [apply clamp_range; lra | lra]. }
  repeat match goal with
  | |- context [clamp ?x (-1.2) 1.2] =>
      let c := fresh "c" in let Hc := fresh "Hc" in
      pose proof (clamp_range x (-1.2) 1.2 ltac:(lra)) as Hc;
      set (c := clamp x (-1.2) 1.2) in *; clearbody c
  end.
  split; [apply Qabs_Qle_condition; lra|].
  split; [apply Qabs_Qle_condition; lra|].
  split; [lra | reflexivity].
Qed.

Lemma build_output_witness :
  let m := run Module_new [with_button 1 (with_audio 5 (quiet 100))] in
  let o := (process (with_button 1 (quiet 100)) m).1 in
  Qabs (AUDIO_L_OUTPUT o) <= 12 /\ Qabs (AUDIO_R_OUTPUT o) <= 12 /\
  (0.3 <= BUILD_LIGHT o /\ BUILD_LIGHT o <= 1) /\
  state (process (with_button 1 (quiet 100)) m).2 = BUILD.
Proof.
  apply (build_output_is_limited_to_12_volts (with_button 1 (quiet 100))
           (run Module_new [with_button 1 (with_audio 5 (quiet 100))])).
  - vm_compute. reflexivity.
  - vm_compute. reflexivity.
Defined.

Lemma process_playheads_ok i m : playheads_ok m -> playheads_ok (process i m).2.
Proof.
  intros Hok.
  destruct (pre_machine_fields i m) as (Hs & _).
  destruct (pre_machine_machine i m) as (Hls & HpL & HpR & _).
  cbv zeta in *. unfold playheads_ok in *. unfold process.
  destruct (audio_in i) as [inL inR]. rewrite Hs.
  destruct (state m) eqn:E.
  - destruct (wantBuild i (ensureBuffers m)).
    + cbn [snd set_machine state loopSamples playheadL playheadR]. intros _.
      pose proof (L_samples_range i (ensureBuffers m)) as HL.
      split; [done|].
      assert (0 < ofZ (L_samples i (ensureBuffers m))) by (apply ofZ_pos; lia).
      split; split; lra.
    + cbn [snd]. rewrite Hs. intros H. by destruct H.
  - destruct Hok as (Hl & HL & HR); [done|].
    assert (Hlen : 0 < ofZ (loopSamples m)) by (apply ofZ_pos; lia).
    destruct (wantBuild i (ensureBuffers m)); cbn [negb].
    + cbn [snd set_machine state loopSamples playheadL playheadR]. intros _.
      rewrite Hls. split; [done|].
      split; apply wrap_down_up_range; done.
    + cbn [snd exit_fade set_machine state loopSamples playheadL playheadR]. intros _.
      by rewrite Hls, HpL, HpR.
  - destruct Hok as (Hl & HL & HR); [done|].
    cbn [snd exit_fade set_machine state loopSamples playheadL playheadR]. intros _.
    by rewrite Hls, HpL, HpR.
Qed.

(** X7.  In every state other than [IDLE] reached from a fresh module,
    the loop length is in [[1, LOOP_MAX_SAMPLES]] and both playheads are
    in [[0, loopSamples)]. *)
Theorem playheads_stay_inside_the_loop (is_ : list Inputs) :
  let m := run Module_new is_ in
  state m <> IDLE ->
  (1 <= loopSamples m <= LOOP_MAX_SAMPLES)%Z /\
  (0 <= playheadL m /\ playheadL m < ofZ (loopSamples m)) /\
  (0 <= playheadR m /\ playheadR m < ofZ (loopSamples m)).
Proof.
  cbv zeta. change (playheads_ok (run Module_new is_)).
  induction is_ as [|i is_ IH] using rev_ind.
  - intros H. by destruct H.
  - rewrite run_snoc. by apply process_playheads_ok.
Qed.

Lemma playheads_witness :
  let m := run Module_new [with_button 1 (quiet 100); with_button 1 (quiet 100)] in
  (1 <= loopSamples m <= LOOP_MAX_SAMPLES)%Z /\
  (0 <= playheadL m /\ playheadL m < ofZ (loopSamples m)) /\
  (0 <= playheadR m /\ playheadR m < ofZ (loopSamples m)).
Proof.
  apply (playheads_stay_inside_the_loop [with_button 1 (quiet 100); with_button 1 (quiet 100)]).
  vm_compute. discriminate.
Defined.

(** X8.  An exit fade ends: from [EXIT_FADE] with a fade length in
    [(0, 96000]] and at least [exitFadeTotal - exitFadeSamples] further
    steps, whatever the inputs, there is a step after which the state is
    [IDLE], and the state is [EXIT_FADE] at every step before it. *)
Theorem exit_fade_returns_to_idle (is_ : list Inputs) : forall m,
  state m = EXIT_FADE ->
  0 < exitFadeTotal m -> exitFadeTotal m <= 96000 ->
  exitFadeSamples m < exitFadeTotal m ->
  exitFadeTotal m <= exitFadeSamples m + inject_Z (Z.of_nat (length is_)) ->
  exists k, (1 <= k <= length is_)%nat /\
    state (run m (take k is_)) = IDLE /\
    forall j, (j < k)%nat -> state (run m (take j is_)) = EXIT_FADE.
Proof.
  induction is_ as [|i is_ IH]; intros m Hst Ht0 Ht1 Hlt Hn.
  - cbn [length] in Hn. change (inject_Z (Z.of_nat 0)) with 0 in Hn. lra.
  - destruct (pre_machine_fields i m) as (Hs & _).
    destruct (pre_machine_machine i m) as (_ & _ & _ & _ & Hefs & Heft).
    cbv zeta in *.
    assert (Hrange : Qleb (exitFadeTotal m) 0 || Qltb 96000 (exitFadeTotal m) = false).
    { apply orb_false_iff. split; [by apply Qleb_false | by apply Qltb_false]. }
    rewrite Hrange in Heft.
    assert (Hstep : state (process i m).2 =
                    (if Qleb (exitFadeTotal m) (exitFadeSamples m + 1) then IDLE else EXIT_FADE) /\
                    exitFadeSamples (process i m).2 = exitFadeSamples m + 1 /\
                    exitFadeTotal (process i m).2 = exitFadeTotal m).
    { unfold process. destruct (audio_in i) as [inL inR]. rewrite Hs, Hst.
      cbn [snd exit_fade set_machine state exitFadeSamples exitFadeTotal].
      by rewrite Heft, Hefs. }
    destruct Hstep as (Hst' & Hefs' & Heft').
    destruct (Qleb_cases (exitFadeTotal m) (exitFadeSamples m + 1)) as [[E Hc]|[E Hc]];
      rewrite E in Hst'.
    + exists 1%nat. split; [cbn [length]; lia|]. split.
      * cbn [take]. rewrite take_0. by rewrite run_cons.
      * intros j Hj. assert (j = 0%nat) as -> by lia. by rewrite take_0.
    + cbn [length] in Hn. rewrite Nat2Z.inj_succ, <- Z.add_1_r, inject_Z_plus in Hn.
      change (inject_Z 1) with 1 in Hn.
      destruct (IH (process i m).2) as (k & Hk & Hidle & Hbefore);
        rewrite ?Hefs', ?Heft'; try done; try lra.
      exists (S k). split; [cbn [length]; lia|]. split.
      * cbn [take]. by rewrite run_cons.
      * intros j Hj. destruct j as [|j]; [by rewrite take_0|].
        cbn [take]. rewrite run_cons. apply Hbefore. lia.
Qed.

Lemma exit_fade_witness :
  let m := run (onSampleRateChange 200 Module_new)
             [with_button 1 (quiet 200); quiet 200] in
  exists k, (1 <= k <= length (replicate 3 (quiet 200)))%nat /\
    state (run m (take k (replicate 3 (quiet 200)))) = IDLE /\
    forall j, (j < k)%nat -> state (run m (take j (replicate 3 (quiet 200)))) = EXIT_FADE.
Proof.
  apply (exit_fade_returns_to_idle (replicate 3 (quiet 200))
           (run (onSampleRateChange 200 Module_new)
              [with_button 1 (quiet 200); quiet 200])).
  - vm_compute. reflexivity.
  - vm_compute. reflexivity.
  - vm_compute. discriminate.
  - vm_compute. reflexivity.
  - vm_compute. discriminate.
Defined.

Lemma ensureBuffers_cursor m : ringWritePos (ensureBuffers m) = ringWritePos m.
Proof. unfold ensureBuffers. by destruct (allocated m). Qed.

(** X9.  After [n] steps of a fresh module the write cursor is
    [n mod RING_MAX_SAMPLES]; after the first step the buffers are
    allocated, the rings hold [RING_MAX_SAMPLES] cells and the loop
    buffers [LOOP_MAX_SAMPLES]. *)
Theorem ring_cursor_counts_the_steps_modulo_the_ring_size (is_ : list Inputs) :
  let m := run Module_new is_ in
  ringWritePos m = (Z.of_nat (length is_) mod RING_MAX_SAMPLES)%Z /\
  (is_ <> [] ->
   allocated m = true /\ ringSize m = RING_MAX_SAMPLES /\
   Z.of_nat (length (ringL m)) = RING_MAX_SAMPLES /\
   Z.of_nat (length (ringR m)) = RING_MAX_SAMPLES /\
   Z.of_nat (length (loopL m)) = LOOP_MAX_SAMPLES /\
   Z.of_nat (length (loopR m)) = LOOP_MAX_SAMPLES).
Proof.
  cbv zeta.
  assert (Hok0 : buffers_ok Module_new) by reflexivity.
  split.
  - induction is_ as [|i is_ IH] using rev_ind; [done|].
    rewrite run_snoc, length_app, Nat2Z.inj_add.
    pose proof (run_ok is_ Module_new Hok0) as Hok.
    destruct (ensureBuffers_ok _ Hok) as (_ & Hs & _ & _ & _ & _ & Hw).
    destruct (process_ring i (run Module_new is_)) as (_ & _ & -> & _).
    cbv zeta in *. rewrite Hs, ensureBuffers_cursor in *. rewrite IH in *.
    rewrite RING_MAX_value in *. unfold cmod. cbn [length Z.of_nat].
    Z.to_euclidean_division_equations. lia.
  - intros Hne.
    pose proof (run_ok is_ Module_new Hok0) as Hok.
    pose proof (run_allocated is_ Module_new Hne Hok0) as Ha.
    unfold buffers_ok in Hok. rewrite Ha in Hok.
    destruct Hok as (Hs & HrL & HrR & HlL & HlR & _).
    rewrite HrL, HrR, HlL, HlR. rewrite RING_MAX_value, LOOP_MAX_value in *.
    repeat split; try done; lia.
Qed.

Lemma ring_cursor_witness :
  let m := run Module_new [quiet 100; quiet 100; quiet 100] in
  allocated m = true /\ ringSize m = RING_MAX_SAMPLES /\
  Z.of_nat (length (ringL m)) = RING_MAX_SAMPLES /\
  Z.of_nat (length (ringR m)) = RING_MAX_SAMPLES /\
  Z.of_nat (length (loopL m)) = LOOP_MAX_SAMPLES /\
  Z.of_nat (length (loopR m)) = LOOP_MAX_SAMPLES.
Proof.
  apply (ring_cursor_counts_the_steps_modulo_the_ring_size [quiet 100; quiet 100; quiet 100]).
  discriminate.
Defined.

End LooperBehaviour.

(** ** AmbientRandomSynth.cpp: the note choice and the voice *)

Module AmbientBehaviour.
Import ReverbFacts AmbientRandomSynth.

Lemma scales_degrees :
  Forall (fun sc : list Z => (0 < length sc)%nat /\ Forall (fun d => (0 <= d <= 11)%Z) sc) SCALES.
Proof. unfold SCALES. repeat (constructor; [split; [cbn; lia|repeat constructor; lia]|]). constructor. Qed.

Lemma Qtrunc_below q (n : Z) : 0 <= q -> q < inject_Z n -> (0 <= Qtrunc q < n)%Z.
Proof.
  intros H0 H1. destruct (Qtrunc_nonneg q H0) as [Ha Hb]. split; [done|].
  rewrite Zlt_Qlt. lra.
Qed.

(** X29.  With the root in [[0, 12)], the scale in [[0, 6)] and both
    random draws in [[0, 1)], [playNote] reads inside [SCALES] and inside
    the selected scale, and the note it chooses is the root plus a degree
    of that scale (0 to 11 semitones) plus 2, 3 or 4 octaves: a MIDI note
    from 24 to 70. *)
Theorem chosen_note_is_a_scale_degree_in_octaves_2_to_4 (i : NoteInputs) :
  0 <= ROOT_PARAM i -> ROOT_PARAM i < 12 ->
  0 <= SCALE_PARAM i -> SCALE_PARAM i < 6 ->
  0 <= uniform1 i -> uniform1 i < 1 ->
  0 <= uniform2 i -> uniform2 i < 1 ->
  exists scaleArr degree octave,
    SCALES !! Z.to_nat (Qtrunc (SCALE_PARAM i)) = Some scaleArr /\
    scaleArr !! Z.to_nat (Qtrunc (uniform2 i * ofZ (Z.of_nat (length scaleArr)))) = Some degree /\
    (0 <= degree <= 11)%Z /\ (2 <= octave <= 4)%Z /\
    chosen_midiNote i = (Qtrunc (ROOT_PARAM i) + degree + octave * 12)%Z /\
    (24 <= chosen_midiNote i <= 70)%Z.
Proof.
  intros Hr0 Hr1 Hs0 Hs1 Hu0 Hu1 Hv0 Hv1.
  pose proof (Qtrunc_below (ROOT_PARAM i) 12 Hr0 Hr1) as Hroot.
  pose proof (Qtrunc_below (SCALE_PARAM i) 6 Hs0 Hs1) as Hscale.
  assert (Hoct : (0 <= Qtrunc (uniform1 i * 3) < 3)%Z).
  { apply Qtrunc_below; [|change (inject_Z 3) with 3]; lra. }
  destruct (lookup_lt_is_Some_2 SCALES (Z.to_nat (Qtrunc (SCALE_PARAM i)))) as [sc Hsc].
  { unfold SCALES. cbn [length]. lia. }
  destruct (proj1 (Forall_lookup _ _) scales_degrees _ _ Hsc) as [Hlen Hdeg].
  assert (Hk : (0 <= Qtrunc (uniform2 i * ofZ (Z.of_nat (length sc))) < Z.of_nat (length sc))%Z).
  { assert (Hl : 0 < ofZ (Z.of_nat (length sc))) by (apply ofZ_pos; lia).
    apply Qtrunc_below.
    - apply Qmult_le_0_compat; lra.
    - fold (ofZ (Z.of_nat (length sc))).
      assert (0 < (1 - uniform2 i) * ofZ (Z.of_nat (length sc))) by (apply Qmult_lt_0_compat; lra).
      assert (E : (1 - uniform2 i) * ofZ (Z.of_nat (length sc))
                  == ofZ (Z.of_nat (length sc)) - uniform2 i * ofZ (Z.of_nat (length sc))) by ring.
      lra. }
  destruct (lookup_lt_is_Some_2 sc (Z.to_nat (Qtrunc (uniform2 i * ofZ (Z.of_nat (length sc))))))
    as [d Hd]; [lia|].
  pose proof (proj1 (Forall_lookup _ _) Hdeg _ _ Hd) as Hdr. cbv beta in Hdr.
  exists sc, d, (Qtrunc (uniform1 i * 3) + 2)%Z.
  assert (E : chosen_midiNote i = (Qtrunc (ROOT_PARAM i) + d + (Qtrunc (uniform1 i * 3) + 2) * 12)%Z).
  { unfold chosen_midiNote. cbv zeta. rewrite Hsc. cbn [default from_option id].
    rewrite Hd. reflexivity. }
  repeat split; try done; try lia.
Qed.

Lemma chosen_note_witness :
  exists scaleArr degree octave,
    SCALES !! Z.to_nat (Qtrunc (SCALE_PARAM example_note)) = Some scaleArr /\
    scaleArr !! Z.to_nat (Qtrunc (uniform2 example_note * ofZ (Z.of_nat (length scaleArr))))
      = Some degree /\
    (0 <= degree <= 11)%Z /\ (2 <= octave <= 4)%Z /\
    chosen_midiNote example_note = (Qtrunc (ROOT_PARAM example_note) + degree + octave * 12)%Z /\
    (24 <= chosen_midiNote example_note <= 70)%Z.
Proof.
  apply (chosen_note_is_a_scale_degree_in_octaves_2_to_4 example_note).
  - vm_compute. discriminate.
  - vm_compute. reflexivity.
  - vm_compute. discriminate.
  - vm_compute. reflexivity.
  - vm_compute. discriminate.
  - vm_compute. reflexivity.
  - vm_compute. discriminate.
  - vm_compute. reflexivity.
Defined.

Section VoiceBound.

Variables expf sinf : Q -> Q.
Variable M_PI : Q.

Hypothesis sinf_range : forall x, -1 <= sinf x /\ sinf x <= 1.
Hypothesis expf_range : forall x, x <= 0 -> 0 < expf x /\ expf x <= 1.

Lemma osc_fold_bound f dt (ks : list nat) : forall out ph n,
  - inject_Z (Z.of_nat n) <= out -> out <= inject_Z (Z.of_nat n) ->
  let r := foldl (osc_step sinf M_PI f dt) (out, ph) ks in
  - inject_Z (Z.of_nat (n + length ks)) <= r.1 /\ r.1 <= inject_Z (Z.of_nat (n + length ks)) /\
  length r.2 = length ph.
Proof.
  induction ks as [|k ks IH]; intros out ph n H0 H1; cbv zeta.
  - cbn [foldl length fst snd]. rewrite Nat.add_0_r. done.
  - cbn [foldl length]. unfold osc_step at 2. cbv zeta.
    set (p := if Qleb 1 _ then _ else _).
    destruct (sinf_range (2 * M_PI * p)) as [S0 S1].
    destruct (IH (out + sinf (2 * M_PI * p)) (<[k := p]> ph) (S n)) as (A & B & C).
    + rewrite Nat2Z.inj_succ, <- Z.add_1_r, inject_Z_plus. change (inject_Z 1) with 1. lra.
    + rewrite Nat2Z.inj_succ, <- Z.add_1_r, inject_Z_plus. change (inject_Z 1) with 1. lra.
    + cbv zeta in *. rewrite length_insert in C.
      replace (n + S (length ks))%nat with (S n + length ks)%nat by lia. done.
Qed.

(** X30.  For any [sin] within [[-1, 1]] and any [exp] within [(0, 1]] on
    arguments that are not positive: an idle voice returns 0 and is left
    alone; a sounding voice (positive attack and release, envelope phase
    not negative) leaves its envelope in [[0, 0.2]], returns a sample no
    larger in magnitude than that envelope, keeps its three phases, and
    switches itself off only after the attack, then with envelope and
    sample 0. *)
Theorem voice_output_is_at_most_its_envelope (dt : Q) (v : Voice) :
  0 <= envPhase v -> 0 < attack v -> 0 < release v ->
  let o := (Voice_process expf sinf M_PI dt v).1 in
  let v' := (Voice_process expf sinf M_PI dt v).2 in
  (active v = false -> o = 0 /\ v' = v) /\
  (active v = true ->
   (0 <= env v' /\ env v' <= 0.2) /\ Qabs o <= env v' /\
   length (phase v') = length (phase v) /\
   (active v' = false -> o = 0 /\ env v' = 0 /\ attack v <= envPhase v)).
Proof.
  intros Hp Ha Hr. cbv zeta. unfold Voice_process. split.
  - intros ->. done.
  - intros ->. cbn [negb]. cbv zeta.
    set (env_ := if Qltb (envPhase v) (attack v) then _ else _).
    assert (Henv : 0 <= env_ /\ env_ <= 0.2).
    { subst env_. destruct (Qltb_cases (envPhase v) (attack v)) as [[-> H]|[-> H]].
      - assert (0 <= envPhase v / attack v) by (apply Qle_shift_div_l; lra).
        assert (envPhase v / attack v <= 1) by (apply Qle_shift_div_r; lra).
        split; lra.
      - destruct (expf_range (-5.3 * (envPhase v - attack v) / release v)) as [E0 E1].
        { apply Qle_shift_div_r; [done|].
          assert (0 <= 5.3 * (envPhase v - attack v)) by (apply Qmult_le_0_compat; lra).
          assert (E : -5.3 * (envPhase v - attack v) == - (5.3 * (envPhase v - attack v))) by ring.
          lra. }
        split; lra. }
    destruct Henv as [He0 He1].
    destruct (negb (Qltb (envPhase v) (attack v)) && Qltb env_ 0.001) eqn:Hdead.
    + cbn [fst snd env phase active]. change (Qabs 0) with 0.
      split; [split; lra|]. split; [lra|]. split; [done|]. intros _.
      split; [done|]. split; [done|].
      apply andb_true_iff in Hdead. destruct Hdead as [Hd _].
      apply negb_true_iff in Hd. by apply Qltb_false.
    + destruct (osc_fold_bound (freq v) dt (seq 0 3) 0 (phase v) 0) as (B0 & B1 & B2).
      { change (inject_Z (Z.of_nat 0)) with 0. lra. }
      { change (inject_Z (Z.of_nat 0)) with 0. lra. }
      cbv zeta in B0, B1, B2.
      change (inject_Z (Z.of_nat (0 + length (seq 0 3)))) with 3 in B0, B1.
      destruct (foldl (osc_step sinf M_PI (freq v) dt) (0, phase v) (seq 0 3)) as [out ph].
      cbn [fst snd env phase active] in *.
      split; [done|]. split; [|split; [done|discriminate]].
      assert (0 <= (1 - out * (1 # 3)) * env_) by (apply Qmult_le_0_compat; lra).
      assert (0 <= (1 + out * (1 # 3)) * env_) by (apply Qmult_le_0_compat; lra).
      assert (E0 : out / 3 * env_ == out * (1 # 3) * env_) by (field).
      assert (E1 : (1 - out * (1 # 3)) * env_ == env_ - out * (1 # 3) * env_) by ring.
      assert (E2 : (1 + out * (1 # 3)) * env_ == env_ + out * (1 # 3) * env_) by ring.
      rewrite E0. qabs. split; lra.
Qed.

End VoiceBound.

Lemma voice_output_witness :
  let v := trigger 220 1.5 5 57 Voice_new in
  let o := (Voice_process (fun _ => 1) (fun _ => 0) 0 (1 # 48000) v).1 in
  let v' := (Voice_process (fun _ => 1) (fun _ => 0) 0 (1 # 48000) v).2 in
  (active v = false -> o = 0 /\ v' = v) /\
  (active v = true ->
   (0 <= env v' /\ env v' <= 0.2) /\ Qabs o <= env v' /\
   length (phase v') = length (phase v) /\
   (active v' = false -> o = 0 /\ env v' = 0 /\ attack v <= envPhase v)).
Proof.
  apply (voice_output_is_at_most_its_envelope (fun _ => 1) (fun _ => 0) 0).
  - intros x. split; lra.
  - intros x _. split; lra.
  - vm_compute. discriminate.
  - vm_compute. reflexivity.
  - vm_compute. reflexivity.
Defined.

End AmbientBehaviour.
